(** * Image watermarking tool: the rendering engine and its callers

    A shallow embedding of the Python sources [data_manager.py],
    [watermark_rendering.py] and [ui_components.py].

    - A Python [float] is an IEEE-754 binary64 number.  Module [Float]
      defines rounding to nearest, ties to even, on the rationals; every
      float operation is the exact operation followed by that rounding.
      All the values that occur stay far below the overflow threshold, so
      infinities and NaN are not represented.
    - A Python [int] is an integer of [Z]; [int(x)] truncates toward zero.
    - An exception is a value of [result]; [x ← r; k] propagates it.
    - Pillow, Tk and the file system are external.  Their primitives (font
      loading, text measuring and drawing, LANCZOS and BICUBIC resampling,
      decoding a file) are the fields of the class [PIL]; what is proved
      holds for every implementation of the class.  The operations of
      Pillow that are plain arithmetic on pixels ([Image.new], [split],
      [putalpha], [paste], [alpha_composite], [convert("RGB")], the blend
      behind [ImageEnhance.Brightness]) are defined here.  A resize or a
      rotation is taken to return: Pillow's refusal of an extent of 2^31
      or more and the exhaustion of memory are not represented.  What
      [save] does with a file is an argument of [_save_image].
    - An image is a value (size and pixels); module [ObjectStore] replays
      the image renderer with images as mutable objects in a store.
    - The Tk canvas is a display list of image items (module [Canvas]);
      [CanvasController] runs on it, while [UIController] keeps of the
      canvas only whether the watermark item has been created.

    Definitions come first, one module per class of the sources; the facts
    follow, from rounding up to the properties of the renderers. *)

From stdpp Require Import gmap strings.
From Stdlib Require Import ZArith QArith Qround Qpower Qminmax Qabs Lia Lqa Ascii String List.
From Stdlib Require Import Floats.
Import ListNotations.

Local Open Scope Z_scope.

(* ===================================================================== *)
(** ** Binary floating point                                              *)
(* ===================================================================== *)

Module Float.

(** [pow2 e] is 2^e for any integer exponent. *)
Definition pow2 (e : Z) : Q := Qpower 2 e.

(** Exponent of the binade of a positive rational:
    [2^(ilog2 x) <= x < 2^(ilog2 x + 1)]. *)
Definition ilog2 (x : Q) : Z :=
  let l := Z.log2 (Qnum x) - Z.log2 (Zpos (Qden x)) in
  if Qle_bool (pow2 l) x then l else l - 1.

(** Nearest integer, ties to even. *)
Definition rne (x : Q) : Z :=
  let f := Qfloor x in
  match Qcompare (x - inject_Z f) (1 # 2) with
  | Lt => f
  | Gt => f + 1
  | Eq => if Z.even f then f else f + 1
  end.

(** A binary format: [prec] significand bits, smallest exponent [emin]
    of the unit in the last place (subnormals included). *)
Record format := { prec : Z; emin : Z }.

Definition binary64 : format := {| prec := 53; emin := -1074 |}.
Definition binary32 : format := {| prec := 24; emin := -149 |}.

(** Exponent of the unit in the last place of [x] in the format. *)
Definition ulp_exp (fmt : format) (x : Q) : Z :=
  Z.max (ilog2 x - (prec fmt - 1)) (emin fmt).

Definition round_pos (fmt : format) (x : Q) : Q :=
  let e := ulp_exp fmt x in
  (inject_Z (rne (x / pow2 e)) * pow2 e)%Q.

(** Round to nearest, ties to even. *)
Definition round (fmt : format) (x : Q) : Q :=
  let y := Qred x in
  match Qcompare y 0 with
  | Eq => 0%Q
  | Gt => Qred (round_pos fmt y)
  | Lt => Qred (- round_pos fmt (- y))
  end.

(** Reading of a hardware float, to compare [round] with the kernel's
    IEEE-754 arithmetic on concrete inputs. *)
Definition of_spec_float (s : SpecFloat.spec_float) : option Q :=
  match s with
  | SpecFloat.S754_zero _ => Some 0%Q
  | SpecFloat.S754_finite sg m e =>
      Some (Qred ((if sg then -1 else 1) * inject_Z (Zpos m) * pow2 e))%Q
  | _ => None
  end.

Definition of_hardware (x : PrimFloat.float) : option Q :=
  of_spec_float (FloatOps.Prim2SF x).

End Float.

(* ===================================================================== *)
(** ** Python numbers and exceptions                                      *)
(* ===================================================================== *)

Inductive exn := ZeroDivisionError | OSError | TclError.

Inductive result (A : Type) :=
| Ok (a : A)
| Raise (e : exn).
Arguments Ok {A} a.
Arguments Raise {A} e.

(** Sequencing stops at the first exception ([x ← r; k] below). *)
#[export] Instance result_bind : MBind result := fun A B k r =>
  match r with
  | Ok a => k a
  | Raise e => Raise e
  end.

(** A Python [float]: the rational value of a finite binary64 number. *)
Definition float := Q.

Definition fl (x : Q) : float := Float.round Float.binary64 x.

(** [float(n)], also the implicit conversion of an [int] operand. *)
Definition float_of_int (n : Z) : float := fl (inject_Z n).

Definition fmul (x y : float) : float := fl (x * y).
Definition fsub (x y : float) : float := fl (x - y).

(** [x / y] with a divisor that is a non-zero literal. *)
Definition fdiv (x y : float) : float := fl (x / y).

(** [x / y] in general: division by zero raises. *)
Definition truediv (x y : float) : result float :=
  if Qeq_bool y 0 then Raise ZeroDivisionError else Ok (fdiv x y).

(** [int(x)]: truncation toward zero. *)
Definition py_int (x : float) : Z :=
  if Qle_bool 0 x then Qfloor x else Qceiling x.

(* ===================================================================== *)
(** ** Images                                                             *)
(* ===================================================================== *)

(** An RGBA pixel [(r, g, b, a)]. *)
Definition Pixel : Type := Z * Z * Z * Z.

Definition alpha_of (p : Pixel) : Z := let '(_, _, _, a) := p in a.

Definition transparent : Pixel := (0, 0, 0, 0).

Record Image := mkImage {
  width : Z;
  height : Z;
  getpixel : Z -> Z -> Pixel
}.

Definition size (img : Image) : Z * Z := (width img, height img).

(** [Image.new("RGBA", size, color)] *)
Definition Image_new (sz : Z * Z) (color : Pixel) : Image :=
  mkImage (fst sz) (snd sz) (fun _ _ => color).

Definition alpha_at (img : Image) (x y : Z) : Z := alpha_of (getpixel img x y).

(** A single band (mode "L"), as returned by [split()]. *)
Record Band := mkBand {
  band_width : Z;
  band_height : Z;
  band_get : Z -> Z -> Z
}.

(** [img.split()[3]] *)
Definition split_alpha (img : Image) : Band :=
  mkBand (width img) (height img) (fun x y => alpha_at img x y).

(** [img.putalpha(band)] *)
Definition putalpha (img : Image) (alpha : Band) : Image :=
  mkImage (width img) (height img)
    (fun x y => let '(r, g, b, _) := getpixel img x y in (r, g, b, band_get alpha x y)).

(** One sample of [Image.blend(black, band, factor)], on which
    [ImageEnhance.Brightness(band).enhance(factor)] is built.  Pillow
    takes the factor as a C [float] and stores the product truncated to
    eight bits; outside [0, 1] the result is clipped. *)
Definition blend_black (factor : float) (v : Z) : Z :=
  let f := Float.round Float.binary32 factor in
  if Qeq_bool f 0 then 0
  else if Qeq_bool f 1 then v
  else
    let t := Float.round Float.binary32 (f * inject_Z v) in
    if Qle_bool 0 f && Qle_bool f 1 then py_int t
    else if Qle_bool t 0 then 0
    else if Qle_bool 255 t then 255
    else py_int t.

(** [ImageEnhance.Brightness(band).enhance(factor)] *)
Definition Brightness_enhance (band : Band) (factor : float) : Band :=
  mkBand (band_width band) (band_height band)
    (fun x y => blend_black factor (band_get band x y)).

(** Pillow's fixed-point division by 255 and per-channel blend. *)
Definition DIV255 (a : Z) : Z :=
  let tmp := a + 128 in Z.shiftr (Z.shiftr tmp 8 + tmp) 8.

Definition BLEND (mask in1 in2 : Z) : Z := DIV255 (in1 * (255 - mask) + in2 * mask).

Definition blend_pixel (mask : Z) (dst src : Pixel) : Pixel :=
  let '(r1, g1, b1, a1) := dst in
  let '(r2, g2, b2, a2) := src in
  (BLEND mask r1 r2, BLEND mask g1 g2, BLEND mask b1 b2, BLEND mask a1 a2).

(** [self.paste(im, box, mask)] with a two-element [box] (upper left
    corner) and an RGBA mask whose alpha band weighs the copy.  Pixels of
    [im] that fall outside [self] are clipped. *)
Definition paste (self im : Image) (box : Z * Z) (mask : Image) : Image :=
  mkImage (width self) (height self)
    (fun x y =>
       let sx := x - fst box in
       let sy := y - snd box in
       if (0 <=? sx) && (sx <? width im) && (0 <=? sy) && (sy <? height im)
       then blend_pixel (alpha_at mask sx sy) (getpixel self x y) (getpixel im sx sy)
       else getpixel self x y).

(** One pixel of [Image.alpha_composite(im1, im2)]: [dst] is the pixel of
    [im1], [src] the pixel of [im2].  Pillow computes in integers with
    seven extra bits of precision; a source pixel of alpha zero leaves
    the destination pixel as it is.  For eight-bit channels no
    intermediate value reaches 2^32. *)
Definition composite_pixel (dst src : Pixel) : Pixel :=
  let '(dr, dg, db, da) := dst in
  let '(sr, sg, sb, sa) := src in
  if sa =? 0 then dst
  else
    let blend := da * (255 - sa) in
    let outa255 := sa * 255 + blend in
    let coef1 := sa * 255 * 255 * Z.shiftl 1 7 / outa255 in
    let coef2 := 255 * Z.shiftl 1 7 - coef1 in
    let channel s d :=
      let tmp := s * coef1 + d * coef2 + Z.shiftl 128 7 in
      Z.shiftr (Z.shiftr (Z.shiftr tmp 8 + tmp) 8) 7 in
    let tmpa := outa255 + 128 in
    (channel sr dr, channel sg dg, channel sb db, Z.shiftr (Z.shiftr tmpa 8 + tmpa) 8).

(** [Image.alpha_composite(im1, im2)]; [None] stands for the [ValueError]
    raised when the two images differ in size. *)
Definition alpha_composite (im1 im2 : Image) : option Image :=
  if (width im1 =? width im2) && (height im1 =? height im2)
  then Some (mkImage (width im1) (height im1)
               (fun x y => composite_pixel (getpixel im1 x y) (getpixel im2 x y)))
  else None.

(** [s.lower()] and [s.endswith(suffix)].  A path is a sequence of bytes;
    only the ASCII capitals matter for the suffixes tested by the tool. *)
Definition lower_ascii (c : ascii) : ascii :=
  let n := nat_of_ascii c in
  if ((65 <=? n) && (n <=? 90))%nat then ascii_of_nat (n + 32) else c.

Fixpoint lower (s : string) : string :=
  match s with
  | EmptyString => EmptyString
  | String c rest => String (lower_ascii c) (lower rest)
  end.

Definition endswith (s suffix : string) : bool :=
  let n := String.length s in
  let m := String.length suffix in
  (m <=? n)%nat && String.eqb (substring (n - m) m s) suffix.

(** An image of mode ["RGB"]. *)
Record RGBImage := mkRGB {
  rgb_width : Z;
  rgb_height : Z;
  rgb_getpixel : Z -> Z -> Z * Z * Z
}.

Definition rgb_of (p : Pixel) : Z * Z * Z := let '(r, g, b, _) := p in (r, g, b).

(** [img.convert("RGB")] of an RGBA image: the alpha band is dropped and
    the three colours are kept as they are. *)
Definition convert_RGB (img : Image) : RGBImage :=
  mkRGB (width img) (height img) (fun x y => rgb_of (getpixel img x y)).

(** The primitives of Pillow, Tk and the file system used by the tool. *)
Class PIL := {
  Font : Type;
  PhotoImage : Type;
  (** [os.path.exists] *)
  path_exists : string -> bool;
  (** [ImageFont.truetype(path, size)]; [None] when it raises *)
  truetype : string -> Z -> option Font;
  (** [ImageFont.load_default()] *)
  load_default : Font;
  (** [draw.textbbox((0, 0), text, font)]; [None] when it raises *)
  textbbox : string -> Font -> option (Z * Z * Z * Z);
  (** [draw.textsize(text, font)] *)
  textsize : string -> Font -> Z * Z;
  (** pixels of the canvas after [draw.text(xy, text, font, fill)] *)
  text_pixels : Image -> Z * Z -> string -> Font -> Pixel -> Z -> Z -> Pixel;
  (** pixels of [img.resize(size, Image.LANCZOS)] *)
  lanczos : Image -> Z * Z -> Z -> Z -> Pixel;
  (** [img.rotate(angle, expand=True, resample=BICUBIC, fillcolor=(0,0,0,0))] *)
  rotate_bicubic : Image -> Z -> Image;
  (** the image after [img.thumbnail(size, Image.LANCZOS)] *)
  thumbnail_lanczos : Image -> Z * Z -> Image;
  (** [Image.open(path).convert("RGBA")]; [None] when opening or decoding raises *)
  open_rgba : string -> option Image;
  (** [ImageTk.PhotoImage(img)]; [None] when it raises *)
  photo_image : Image -> option PhotoImage
}.

(** [img.resize(size, Image.LANCZOS)]: the result has the requested size.
    Pillow refuses an extent of 2^31 or more with an [OverflowError] and
    can run out of memory on a large one; these failures of the library
    are not represented, and no statement below is about them. *)
Definition resize `{PIL} (img : Image) (sz : Z * Z) : Image :=
  mkImage (fst sz) (snd sz) (lanczos img sz).

(** [ImageDraw.Draw(img).text(xy, text, font=font, fill=fill)]: the canvas
    keeps its size. *)
Definition draw_text `{PIL} (img : Image) (xy : Z * Z) (text : string)
    (font : Font) (fill : Pixel) : Image :=
  mkImage (width img) (height img) (text_pixels img xy text font fill).

(* ===================================================================== *)
(** ** data_manager.py                                                    *)
(* ===================================================================== *)

Record WatermarkSettings := mkSettings {
  wm_type : string;
  text : string;
  text_color : Pixel;
  font_path : option string;
  font_size : Z;
  size_percent : Z;
  rotation : Z;
  anchor_ratio : float * float;
  opacity : Z
}.

(** The dataclass defaults. *)
Definition default_settings : WatermarkSettings :=
  {| wm_type := "text";
     text := "Sample Watermark";
     text_color := (255, 255, 255, 200);
     font_path := None;
     font_size := 36;
     size_percent := 20;
     rotation := 0;
     anchor_ratio := (fl (1 # 2), fl (1 # 2));
     opacity := 50 |}.

(** Attribute assignment [settings.field = v]. *)
Definition set_wm_type (s : WatermarkSettings) (v : string) : WatermarkSettings :=
  {| wm_type := v; text := text s; text_color := text_color s;
     font_path := font_path s; font_size := font_size s; size_percent := size_percent s;
     rotation := rotation s; anchor_ratio := anchor_ratio s; opacity := opacity s |}.

Definition set_text (s : WatermarkSettings) (v : string) : WatermarkSettings :=
  {| wm_type := wm_type s; text := v; text_color := text_color s;
     font_path := font_path s; font_size := font_size s; size_percent := size_percent s;
     rotation := rotation s; anchor_ratio := anchor_ratio s; opacity := opacity s |}.

Definition set_text_color (s : WatermarkSettings) (v : Pixel) : WatermarkSettings :=
  {| wm_type := wm_type s; text := text s; text_color := v;
     font_path := font_path s; font_size := font_size s; size_percent := size_percent s;
     rotation := rotation s; anchor_ratio := anchor_ratio s; opacity := opacity s |}.

Definition set_font_path (s : WatermarkSettings) (v : option string) : WatermarkSettings :=
  {| wm_type := wm_type s; text := text s; text_color := text_color s;
     font_path := v; font_size := font_size s; size_percent := size_percent s;
     rotation := rotation s; anchor_ratio := anchor_ratio s; opacity := opacity s |}.

Definition set_font_size (s : WatermarkSettings) (v : Z) : WatermarkSettings :=
  {| wm_type := wm_type s; text := text s; text_color := text_color s;
     font_path := font_path s; font_size := v; size_percent := size_percent s;
     rotation := rotation s; anchor_ratio := anchor_ratio s; opacity := opacity s |}.

Definition set_size_percent (s : WatermarkSettings) (v : Z) : WatermarkSettings :=
  {| wm_type := wm_type s; text := text s; text_color := text_color s;
     font_path := font_path s; font_size := font_size s; size_percent := v;
     rotation := rotation s; anchor_ratio := anchor_ratio s; opacity := opacity s |}.

Definition set_rotation (s : WatermarkSettings) (v : Z) : WatermarkSettings :=
  {| wm_type := wm_type s; text := text s; text_color := text_color s;
     font_path := font_path s; font_size := font_size s; size_percent := size_percent s;
     rotation := v; anchor_ratio := anchor_ratio s; opacity := opacity s |}.

Definition set_anchor_ratio (s : WatermarkSettings) (v : float * float) : WatermarkSettings :=
  {| wm_type := wm_type s; text := text s; text_color := text_color s;
     font_path := font_path s; font_size := font_size s; size_percent := size_percent s;
     rotation := rotation s; anchor_ratio := v; opacity := opacity s |}.

Definition set_opacity (s : WatermarkSettings) (v : Z) : WatermarkSettings :=
  {| wm_type := wm_type s; text := text s; text_color := text_color s;
     font_path := font_path s; font_size := font_size s; size_percent := size_percent s;
     rotation := rotation s; anchor_ratio := anchor_ratio s; opacity := v |}.

(* ===================================================================== *)
(** ** watermark_rendering.py                                             *)
(* ===================================================================== *)

(** [max(1, int(bg_w * (size_percent / 100.0)))], the target width shared
    by both renderers. *)
Definition target_width (bg_w size_percent : Z) : Z :=
  Z.max 1 (py_int (fmul (float_of_int bg_w) (fdiv (float_of_int size_percent) 100%Q))).

Module TextWatermarkRenderer.
Section WithPIL.
Context `{PIL}.

Definition _get_font (font_path : option string) (font_size : Z) : Font :=
  let attempt :=
    match font_path with
    | Some p =>
        if negb (String.eqb p "") && path_exists p
        then truetype p font_size
        else truetype "arial.ttf" font_size
    | None => truetype "arial.ttf" font_size
    end in
  match attempt with
  | Some font => font
  | None => load_default
  end.

Definition _measure_text (text : string) (font : Font) : Z * Z :=
  match textbbox text font with
  | Some (x0, y0, x1, y1) => (x1 - x0, y1 - y0)
  | None => textsize text font
  end.

(** [if text_w == 0: text_w = text_h = 1] *)
Definition logical_size (measured : Z * Z) : Z * Z :=
  let '(text_w, text_h) := measured in
  if text_w =? 0 then (1, 1) else (text_w, text_h).

(** [int(a * (settings.opacity / 100.0))] *)
Definition fill_alpha (a opacity : Z) : Z :=
  py_int (fmul (float_of_int a) (fdiv (float_of_int opacity) 100%Q)).

Definition _scale_image (img : Image) (bg_size : Z * Z) (size_percent : Z)
    (text_w padding : Z) : result Image :=
  let '(bg_w, bg_h) := bg_size in
  let target_w := target_width bg_w size_percent in
  scale ← truediv (float_of_int target_w) (float_of_int text_w);
  let new_w := Z.max 1 (py_int (fmul (float_of_int (text_w + padding * 2)) scale)) in
  let new_h := Z.max 1 (py_int (fmul (float_of_int (height img)) scale)) in
  Ok (resize img (new_w, new_h)).

Definition _rotate_image (img : Image) (rotation : Z) : Image :=
  rotate_bicubic img rotation.

(** The sprite as it stands after "Scale and rotate" has scaled it and
    before the rotation test. *)
Definition render_scaled (background_size : Z * Z) (settings : WatermarkSettings)
    : result Image :=
  let text := text settings in
  let font := _get_font (font_path settings) (font_size settings) in
  let '(text_w, text_h) := logical_size (_measure_text text font) in
  let padding := 20 in
  let txt_img := Image_new (text_w + padding * 2, text_h + padding * 2) (0, 0, 0, 0) in
  let '(r, g, b, a) := text_color settings in
  let a := fill_alpha a (opacity settings) in
  let txt_img := draw_text txt_img (padding, padding) text font (r, g, b, a) in
  _scale_image txt_img background_size (size_percent settings) text_w padding.

Definition render (background_size : Z * Z) (settings : WatermarkSettings)
    : result Image :=
  txt_img ← render_scaled background_size settings;
  if negb (rotation settings mod 360 =? 0)
  then Ok (_rotate_image txt_img (rotation settings))
  else Ok txt_img.

End WithPIL.
End TextWatermarkRenderer.

Module ImageWatermarkRenderer.
Section WithPIL.
Context `{PIL}.

(** The renderer object: its only attribute. *)
Record t := mk { watermark_image : option Image }.

Definition __init__ : t := mk None.

(** The image passed in is already RGBA; [convert] returns a copy. *)
Definition set_watermark_image (self : t) (image : Image) : t := mk (Some image).

(** "Scale watermark" *)
Definition scale_watermark (wm : Image) (background_size : Z * Z)
    (settings : WatermarkSettings) : result Image :=
  let '(bg_w, bg_h) := background_size in
  let target_w := target_width bg_w (size_percent settings) in
  scale ← truediv (float_of_int target_w) (float_of_int (width wm));
  let new_w := Z.max 1 (py_int (fmul (float_of_int (width wm)) scale)) in
  let new_h := Z.max 1 (py_int (fmul (float_of_int (height wm)) scale)) in
  Ok (resize wm (new_w, new_h)).

(** "Apply opacity" *)
Definition apply_opacity (wm : Image) (opacity : Z) : Image :=
  if opacity <? 100 then
    let alpha := split_alpha wm in
    let alpha := Brightness_enhance alpha (fdiv (float_of_int opacity) 100%Q) in
    putalpha wm alpha
  else wm.

(** The sprite before "Apply rotation". *)
Definition render_unrotated (self : t) (background_size : Z * Z)
    (settings : WatermarkSettings) : result Image :=
  match watermark_image self with
  | None => Ok (Image_new (1, 1) (0, 0, 0, 0))
  | Some asset =>
      let wm := asset in
      wm ← scale_watermark wm background_size settings;
      Ok (apply_opacity wm (opacity settings))
  end.

Definition render (self : t) (background_size : Z * Z)
    (settings : WatermarkSettings) : result Image :=
  match watermark_image self with
  | None => Ok (Image_new (1, 1) (0, 0, 0, 0))
  | Some asset =>
      let wm := asset in
      wm ← scale_watermark wm background_size settings;
      let wm := apply_opacity wm (opacity settings) in
      if negb (rotation settings mod 360 =? 0)
      then Ok (rotate_bicubic wm (rotation settings))
      else Ok wm
  end.

End WithPIL.
End ImageWatermarkRenderer.

Module WatermarkProcessor.
Section WithPIL.
Context `{PIL}.

(** The text renderer has no attributes; the processor's state is the
    image renderer. *)
Record t := mk { image_renderer : ImageWatermarkRenderer.t }.

Definition __init__ : t := mk ImageWatermarkRenderer.__init__.

Definition create_watermark (self : t) (background_size : Z * Z)
    (settings : WatermarkSettings) : result Image :=
  if String.eqb (wm_type settings) "text"
  then TextWatermarkRenderer.render background_size settings
  else ImageWatermarkRenderer.render (image_renderer self) background_size settings.

(** [cx = int(ratio.x * w)], [cy = int(ratio.y * h)] *)
Definition placement_center (ratio : float * float) (container : Z * Z) : Z * Z :=
  (py_int (fmul (fst ratio) (float_of_int (fst container))),
   py_int (fmul (snd ratio) (float_of_int (snd container)))).

(** [int(c - extent / 2)] *)
Definition top_left (c extent : Z) : Z :=
  py_int (fsub (float_of_int c) (fl (inject_Z extent / 2)%Q)).

Definition create_overlay (self : t) (original_size : Z * Z)
    (settings : WatermarkSettings) : result Image :=
  let '(orig_w, orig_h) := original_size in
  let overlay := Image_new (orig_w, orig_h) (0, 0, 0, 0) in
  watermark ← create_watermark self original_size settings;
  let '(cx, cy) := placement_center (anchor_ratio settings) original_size in
  let top_left_x := top_left cx (width watermark) in
  let top_left_y := top_left cy (height watermark) in
  Ok (paste overlay watermark (top_left_x, top_left_y) watermark).

Definition set_watermark_image (self : t) (image : Image) : t :=
  mk (ImageWatermarkRenderer.set_watermark_image (image_renderer self) image).

End WithPIL.
End WatermarkProcessor.

(* ===================================================================== *)
(** ** data_manager.py: ImageManager                                      *)
(* ===================================================================== *)

Module ImageManager.
Section WithPIL.
Context `{PIL}.

Record t := mk {
  canvas_width : Z;
  canvas_height : Z;
  original_image : option Image;
  display_image : option Image;
  display_photo : option PhotoImage
}.

Definition __init__ (canvas_width canvas_height : Z) : t :=
  mk canvas_width canvas_height None None None.

(** Returns the object after the call and whether the call raised. *)
Definition _update_display_image (self : t) : t * result unit :=
  match original_image self with
  | None => (self, Ok tt)
  | Some original =>
      let img := thumbnail_lanczos original (canvas_width self, canvas_height self) in
      let self := mk (canvas_width self) (canvas_height self) (original_image self)
                     (Some img) (display_photo self) in
      match photo_image img with
      | Some photo =>
          (mk (canvas_width self) (canvas_height self) (original_image self)
              (display_image self) (Some photo), Ok tt)
      | None => (self, Raise TclError)
      end
  end.

(** The object after the call and the returned flag. *)
Definition load_image (self : t) (path : string) : t * bool :=
  match open_rgba path with
  | None => (self, false)
  | Some img =>
      let self := mk (canvas_width self) (canvas_height self) (Some img)
                     (display_image self) (display_photo self) in
      match _update_display_image self with
      | (self, Ok _) => (self, true)
      | (self, Raise _) => (self, false)
      end
  end.

Definition get_display_info (self : t) : Z * Z * Z * Z :=
  match display_image self with
  | None => (0, 0, 0, 0)
  | Some d =>
      let img_x := (canvas_width self - width d) / 2 in
      let img_y := (canvas_height self - height d) / 2 in
      (img_x, img_y, width d, height d)
  end.

End WithPIL.
End ImageManager.

(* ===================================================================== *)
(** ** ui_components.py                                                   *)
(* ===================================================================== *)

(** The Tk canvas, as far as the tool uses it: a display list of image
    items addressed by integer ids.  An id is never given twice, also
    after the item has been deleted; [coords], [itemconfig] and [move]
    on an id that designates no item do nothing, and reading the
    coordinates of such an id yields the empty list. *)
Module Canvas.
Section WithPIL.
Context `{PIL}.

Record item := mkItem {
  position : float * float;
  image : PhotoImage;
  anchor : string;
  tags : list string
}.

Record t := mk { items : gmap Z item; next_id : Z }.

(** A new [tk.Canvas]. *)
Definition empty : t := mk ∅ 1.

(** [canvas.delete("all")] *)
Definition delete_all (c : t) : t := mk ∅ (next_id c).

(** [canvas.create_image(x, y, image=..., anchor=..., tags=...)] *)
Definition create_image (c : t) (x y : Z) (img : PhotoImage) (anchor : string)
    (tags : list string) : Z * t :=
  let id := next_id c in
  (id, mk (<[id := mkItem (float_of_int x, float_of_int y) img anchor tags]> (items c))
          (id + 1)).

(** [canvas.coords(id, x, y)] *)
Definition set_coords (c : t) (id x y : Z) : t :=
  mk (alter (fun it => mkItem (float_of_int x, float_of_int y)
                         (image it) (anchor it) (tags it)) id (items c))
     (next_id c).

(** [canvas.itemconfig(id, image=...)] *)
Definition itemconfig (c : t) (id : Z) (img : PhotoImage) : t :=
  mk (alter (fun it => mkItem (position it) img (anchor it) (tags it)) id (items c))
     (next_id c).

(** [canvas.move(id, dx, dy)] *)
Definition move (c : t) (id dx dy : Z) : t :=
  mk (alter (fun it => mkItem (fl (fst (position it) + float_of_int dx),
                               fl (snd (position it) + float_of_int dy))
                         (image it) (anchor it) (tags it)) id (items c))
     (next_id c).

(** [canvas.coords(id)]: [None] for the empty list. *)
Definition coords (c : t) (id : Z) : option (float * float) :=
  position <$> items c !! id.

End WithPIL.
End Canvas.

Module CanvasController.

(** Lines 86-89 of [_on_motion]: the anchor ratio of the canvas point
    [coords] inside the displayed image [(img_x, img_y, img_w, img_h)].
    The operand of each division is converted to [float] when the
    clamp returned one of the integer bounds. *)
Definition ratio_from_pixel (coords : float * float) (info : Z * Z * Z * Z)
    : result (float * float) :=
  let '(cx, cy) := coords in
  let '(img_x, img_y, img_w, img_h) := info in
  let local_x := Qmax 0 (Qmin (fsub cx (float_of_int img_x)) (inject_Z img_w)) in
  let local_y := Qmax 0 (Qmin (fsub cy (float_of_int img_y)) (inject_Z img_h)) in
  rx ← truediv (fl local_x) (float_of_int img_w);
  ry ← truediv (fl local_y) (float_of_int img_h);
  Ok (rx, ry).

Section WithPIL.
Context `{PIL}.

(** The canvas controller with its canvas.  The image manager is an
    object shared with the UI controller: it is passed to the methods
    that read it.  [on_position_change] tells whether a callback is
    installed. *)
Record t := mk {
  canvas : Canvas.t;
  bg_image_id : option Z;
  watermark_id : option Z;
  watermark_photo : option PhotoImage;
  _drag_data : Z * Z;
  on_position_change : bool
}.

Definition __init__ (canvas : Canvas.t) : t :=
  mk canvas None None None (0, 0) false.

Definition update_background (self : t) (image_manager : ImageManager.t) : t :=
  match ImageManager.display_photo image_manager with
  | None => self
  | Some display_photo =>
      let c := Canvas.delete_all (canvas self) in
      let '(img_x, img_y, img_w, img_h) := ImageManager.get_display_info image_manager in
      let '(id, c) := Canvas.create_image c img_x img_y display_photo "nw" ["bg"] in
      mk c (Some id) (watermark_id self) (watermark_photo self) (_drag_data self)
         (on_position_change self)
  end.

(** Lines 45-47 of [update_watermark]: where the centre of the watermark
    item goes. *)
Definition item_center (ratio : float * float) (info : Z * Z * Z * Z) : Z * Z :=
  let '(img_x, img_y, img_w, img_h) := info in
  (img_x + py_int (fmul (fst ratio) (float_of_int img_w)),
   img_y + py_int (fmul (snd ratio) (float_of_int img_h))).

Definition update_watermark (self : t) (image_manager : ImageManager.t)
    (watermark_img : Image) (settings : WatermarkSettings) : result t :=
  match ImageManager.display_image image_manager with
  | None => Ok self
  | Some _ =>
      match photo_image watermark_img with
      | None => Raise TclError
      | Some photo =>
          let '(cx, cy) := item_center (anchor_ratio settings)
                             (ImageManager.get_display_info image_manager) in
          match watermark_id self with
          | None =>
              let '(id, c) :=
                Canvas.create_image (canvas self) cx cy photo "center" ["watermark"] in
              Ok (mk c (bg_image_id self) (Some id) (Some photo) (_drag_data self)
                     (on_position_change self))
          | Some id =>
              let c := Canvas.set_coords (canvas self) id cx cy in
              let c := Canvas.itemconfig c id photo in
              Ok (mk c (bg_image_id self) (watermark_id self) (Some photo)
                     (_drag_data self) (on_position_change self))
          end
      end
  end.

Definition _on_press (self : t) (x y : Z) : t :=
  mk (canvas self) (bg_image_id self) (watermark_id self) (watermark_photo self)
     (x, y) (on_position_change self).

(** How a call of [_on_motion] ends. *)
Inductive motion :=
| Ignored                                (* no watermark item yet: immediate return *)
| Moved                                  (* no callback installed *)
| Dragged (new_ratio : float * float)    (* the callback is called with the ratio *)
| UnpackFailed                           (* [cx, cy = []]: the item is gone *)
| DivisionFailed (e : exn).              (* the ratio could not be computed *)

Definition _on_motion (self : t) (image_manager : ImageManager.t) (x y : Z)
    : t * motion :=
  match watermark_id self with
  | None => (self, Ignored)
  | Some id =>
      let dx := x - fst (_drag_data self) in
      let dy := y - snd (_drag_data self) in
      let self := mk (Canvas.move (canvas self) id dx dy) (bg_image_id self)
                     (watermark_id self) (watermark_photo self) (x, y)
                     (on_position_change self) in
      if on_position_change self then
        match Canvas.coords (canvas self) id with
        | None => (self, UnpackFailed)
        | Some coords =>
            match ratio_from_pixel coords
                    (ImageManager.get_display_info image_manager) with
            | Ok new_ratio => (self, Dragged new_ratio)
            | Raise e => (self, DivisionFailed e)
            end
        end
      else (self, Moved)
  end.

(** [_on_release] only restores the cursor. *)
Definition _on_release (self : t) : t := self.

(** The calls that reach the canvas controller. *)
Inductive call :=
| UpdateBackground (image_manager : ImageManager.t)
| UpdateWatermark (image_manager : ImageManager.t) (watermark_img : Image)
    (settings : WatermarkSettings)
| Press (x y : Z)
| Motion (image_manager : ImageManager.t) (x y : Z)
| Release.

(** A call that raises leaves the controller as the exception found it. *)
Definition perform (self : t) (c : call) : t :=
  match c with
  | UpdateBackground im => update_background self im
  | UpdateWatermark im watermark_img settings =>
      match update_watermark self im watermark_img settings with
      | Ok self' => self'
      | Raise _ => self
      end
  | Press x y => _on_press self x y
  | Motion im x y => fst (_on_motion self im x y)
  | Release => _on_release self
  end.

Definition perform_all (self : t) (calls : list call) : t :=
  fold_left perform calls self.

End WithPIL.
End CanvasController.

Module UIController.
Section WithPIL.
Context `{PIL}.

(** The controller together with the attributes of its canvas
    controller that the handlers read or write.  [watermark_id] records
    whether the canvas item of the watermark has been created. *)
Record t := mk {
  settings : WatermarkSettings;
  image_manager : ImageManager.t;
  watermark_processor : WatermarkProcessor.t;
  watermark_id : option unit;
  _drag_data : Z * Z;
  pos_var : string
}.

Definition __init__ : t :=
  mk default_settings (ImageManager.__init__ 900 600) WatermarkProcessor.__init__
     None (0, 0) "center".

Definition with_settings (self : t) (s : WatermarkSettings) : t :=
  mk s (image_manager self) (watermark_processor self) (watermark_id self)
     (_drag_data self) (pos_var self).

(** [_update_watermark_preview], with [CanvasController.update_watermark]
    inlined: the canvas item is created on the first successful render.
    An exception raised inside a Tk callback is reported and the event
    loop goes on. *)
Definition _update_watermark_preview (self : t) : t :=
  match ImageManager.display_image (image_manager self) with
  | None => self
  | Some d =>
      match WatermarkProcessor.create_watermark (watermark_processor self)
              (size d) (settings self) with
      | Raise _ => self
      | Ok watermark =>
          match photo_image watermark with
          | None => self
          | Some _ =>
              mk (settings self) (image_manager self) (watermark_processor self)
                 (Some tt) (_drag_data self) (pos_var self)
          end
      end
  end.

(** The values read from the widgets; [None] stands for a read that
    raises, after which the [try] block assigns nothing more. *)
Definition _update_settings (self : t) (text : string)
    (font_size size_percent rotation opacity : option Z) : t :=
  let s := set_text (settings self) text in
  let s :=
    match font_size with
    | None => s
    | Some v =>
        let s := set_font_size s v in
        match size_percent with
        | None => s
        | Some v =>
            let s := set_size_percent s v in
            match rotation with
            | None => s
            | Some v =>
                let s := set_rotation s v in
                match opacity with
                | None => s
                | Some v => set_opacity s v
                end
            end
        end
    end in
  _update_watermark_preview (with_settings self s).

Definition _load_image (self : t) (path : string) : t :=
  if String.eqb path "" then self
  else
    let '(im, ok) := ImageManager.load_image (image_manager self) path in
    let self := mk (settings self) im (watermark_processor self) (watermark_id self)
                   (_drag_data self) (pos_var self) in
    if ok
    then
      let self := with_settings self
                    (set_anchor_ratio (settings self) (fl (1 # 2), fl (1 # 2))) in
      _update_watermark_preview self
    else self.

Definition _on_type_change (self : t) (selected : string) : t :=
  _update_watermark_preview (with_settings self (set_wm_type (settings self) selected)).

(** The [mapping] dictionary of [_on_position_preset]. *)
Definition mapping : gmap string (float * float) :=
  list_to_map
    [ ("top-left", (fl (8 # 100), fl (8 # 100)));
      ("top-center", (fl (1 # 2), fl (8 # 100)));
      ("top-right", (fl (92 # 100), fl (8 # 100)));
      ("center-left", (fl (8 # 100), fl (1 # 2)));
      ("center", (fl (1 # 2), fl (1 # 2)));
      ("center-right", (fl (92 # 100), fl (1 # 2)));
      ("bottom-left", (fl (8 # 100), fl (92 # 100)));
      ("bottom-center", (fl (1 # 2), fl (92 # 100)));
      ("bottom-right", (fl (92 # 100), fl (92 # 100))) ].

(** The combobox has already stored the selection in [pos_var]. *)
Definition _on_position_preset (self : t) (selected : string) : t :=
  let self := mk (settings self) (image_manager self) (watermark_processor self)
                 (watermark_id self) (_drag_data self) selected in
  let preset := pos_var self in
  match mapping !! preset with
  | Some ratio =>
      _update_watermark_preview
        (with_settings self (set_anchor_ratio (settings self) ratio))
  | None => self
  end.

Definition _on_position_drag (self : t) (new_ratio : float * float) : t :=
  mk (set_anchor_ratio (settings self) new_ratio) (image_manager self)
     (watermark_processor self) (watermark_id self) (_drag_data self) "custom".

Definition _choose_font (self : t) (path : string) : t :=
  if String.eqb path "" then self
  else _update_watermark_preview
         (with_settings self (set_font_path (settings self) (Some path))).

Definition _choose_color (self : t) (r g b : Z) : t :=
  let alpha := alpha_of (text_color (settings self)) in
  _update_watermark_preview
    (with_settings self (set_text_color (settings self) (r, g, b, alpha))).

Definition _choose_watermark_image (self : t) (path : string) : t :=
  if String.eqb path "" then self
  else
    match open_rgba path with
    | None => self
    | Some wm_img =>
        _update_watermark_preview
          (mk (settings self) (image_manager self)
              (WatermarkProcessor.set_watermark_image (watermark_processor self) wm_img)
              (watermark_id self) (_drag_data self) (pos_var self))
    end.

(** A call of Pillow's [save]: [SaveJPEG path image quality] stands for
    [image.save(path, quality=quality)] on an RGB image, and
    [SavePNG path image] for [image.save(path)] on an RGBA image, the
    format left to Pillow. *)
Inductive save_call :=
| SaveJPEG (path : string) (image : RGBImage) (quality : Z)
| SavePNG (path : string) (image : Image).

(** How a call of [_save_image] ends. *)
Inductive saving :=
| NoBackground                               (* "Open a background image first." *)
| SaveCancelled
| Saved (call : save_call)                   (* "Saved": [call] returned *)
| CouldNotSave (call : option save_call).    (* "Could not save image: ...": an
                                                exception, raised by [call] if
                                                [save] was reached *)

(** [path] is the answer of the file dialog, empty when the dialog was
    cancelled; [save] is what Pillow and the file system make of a call of
    [save]. *)
Definition _save_image (self : t) (path : string)
    (save : save_call -> result unit) : saving :=
  match ImageManager.original_image (image_manager self) with
  | None => NoBackground
  | Some original =>
      if String.eqb path "" then SaveCancelled
      else
        match WatermarkProcessor.create_overlay (watermark_processor self)
                (size original) (settings self) with
        | Raise _ => CouldNotSave None
        | Ok overlay =>
            (* [original] is RGBA already: [copy().convert("RGBA")] is a copy *)
            let base := original in
            match alpha_composite base overlay with
            | None => CouldNotSave None
            | Some result =>
                let call :=
                  if endswith (lower path) ".jpg" || endswith (lower path) ".jpeg"
                  then SaveJPEG path (convert_RGB result) 95
                  else SavePNG path result in
                match save call with
                | Ok _ => Saved call
                | Raise _ => CouldNotSave (Some call)
                end
            end
        end
  end.

(** The call of [save] that a run of [_save_image] made, if it made one. *)
Definition attempted (s : saving) : option save_call :=
  match s with
  | Saved call => Some call
  | CouldNotSave call => call
  | NoBackground | SaveCancelled => None
  end.

(** [CanvasController._on_press] *)
Definition _on_press (self : t) (x y : Z) : t :=
  mk (settings self) (image_manager self) (watermark_processor self)
     (watermark_id self) (x, y) (pos_var self).

(** [CanvasController._on_motion] followed by its callback; [coords] is
    what [canvas.coords(watermark_id)] returns after the item has moved. *)
Definition _on_motion (self : t) (x y : Z) (coords : float * float) : t :=
  match watermark_id self with
  | None => self
  | Some _ =>
      let self := mk (settings self) (image_manager self) (watermark_processor self)
                     (watermark_id self) (x, y) (pos_var self) in
      match CanvasController.ratio_from_pixel coords
              (ImageManager.get_display_info (image_manager self)) with
      | Ok new_ratio => _on_position_drag self new_ratio
      | Raise _ => self
      end
  end.

(** What the user and the window system can do to the controller. *)
Inductive event :=
| OpenImage (path : string)
| TypeSelected (selected : string)
| SettingsEdited (text : string) (font_size size_percent rotation opacity : option Z)
| PresetSelected (selected : string)
| FontChosen (path : string)
| ColorChosen (r g b : Z)
| WatermarkImageChosen (path : string)
| ButtonPress (x y : Z)
| B1Motion (x y : Z) (coords : float * float)
| ButtonRelease.

Definition handle (self : t) (ev : event) : t :=
  match ev with
  | OpenImage path => _load_image self path
  | TypeSelected selected => _on_type_change self selected
  | SettingsEdited text fs sp rot op => _update_settings self text fs sp rot op
  | PresetSelected selected => _on_position_preset self selected
  | FontChosen path => _choose_font self path
  | ColorChosen r g b => _choose_color self r g b
  | WatermarkImageChosen path => _choose_watermark_image self path
  | ButtonPress x y => _on_press self x y
  | B1Motion x y coords => _on_motion self x y coords
  | ButtonRelease => self
  end.

(** The controller after a sequence of events, from a fresh start. *)
Definition run (evs : list event) : t := fold_left handle evs __init__.

End WithPIL.
End UIController.

(* ===================================================================== *)
(** ** Image objects in a store                                           *)
(* ===================================================================== *)

(** Pillow images are mutable objects: [putalpha] writes into the image
    it is called on, while [copy], [resize] and [rotate] return new
    objects.  [ObjectStore] replays [ImageWatermarkRenderer] with every
    image held by reference.  A reference held by the renderer always
    designates an object of the store; the branches for a missing object
    are there to make the functions total. *)
Module ObjectStore.
Section WithPIL.
Context `{PIL}.

Definition loc := positive.

Definition alloc (h : gmap loc Image) (img : Image) : loc * gmap loc Image :=
  let l := fresh (dom h) in (l, <[l := img]> h).

Record renderer := mk { watermark_image : option loc }.

(** [self.watermark_image = image.convert("RGBA")] *)
Definition set_watermark_image (h : gmap loc Image) (self : renderer) (image : loc)
    : gmap loc Image * renderer :=
  match h !! image with
  | None => (h, self)
  | Some img => let '(l, h) := alloc h img in (h, mk (Some l))
  end.

Definition render (h : gmap loc Image) (self : renderer) (background_size : Z * Z)
    (settings : WatermarkSettings) : gmap loc Image * result loc :=
  match watermark_image self with
  | None =>
      let '(l, h) := alloc h (Image_new (1, 1) (0, 0, 0, 0)) in (h, Ok l)
  | Some stored =>
      match h !! stored with
      | None => (h, Ok stored)
      | Some asset =>
          (* wm = self.watermark_image.copy() *)
          let '(wm, h) := alloc h asset in
          let '(bg_w, bg_h) := background_size in
          let target_w := target_width bg_w (size_percent settings) in
          match truediv (float_of_int target_w) (float_of_int (width asset)) with
          | Raise e => (h, Raise e)
          | Ok scale =>
              let new_w := Z.max 1 (py_int (fmul (float_of_int (width asset)) scale)) in
              let new_h := Z.max 1 (py_int (fmul (float_of_int (height asset)) scale)) in
              (* wm = wm.resize(...) *)
              let resized := resize asset (new_w, new_h) in
              let '(wm, h) := alloc h resized in
              (* wm.putalpha(alpha) writes into the object [wm] *)
              let current := ImageWatermarkRenderer.apply_opacity resized (opacity settings) in
              let h := if opacity settings <? 100 then <[wm := current]> h else h in
              if negb (rotation settings mod 360 =? 0) then
                let '(rotated, h) :=
                  alloc h (rotate_bicubic current (rotation settings)) in
                (h, Ok rotated)
              else (h, Ok wm)
          end
      end
  end.

(** The store after a sequence of render calls. *)
Definition render_all (self : renderer) (calls : list (Z * Z * WatermarkSettings))
    (h : gmap loc Image) : gmap loc Image :=
  fold_left (fun h c => (render h self c.1 c.2).1) calls h.

End WithPIL.
End ObjectStore.

(* ===================================================================== *)
(** ** A small implementation of the external primitives                  *)
(* ===================================================================== *)

(** One implementation of [PIL], to run the model on concrete inputs: a
    fixed-pitch font ten pixels wide and twelve high, nearest-neighbour
    resampling into eight-bit samples, a rotation that swaps the axes, and
    a file system that holds the single image ["photo.png"]. *)
Module Reference.

Definition photo : Image :=
  mkImage 4 2 (fun x y => (x * 60, y * 100, 7, (x + y) * 50)).

(** Samples are stored on eight bits. *)
Definition clip8 (v : Z) : Z := Z.max 0 (Z.min 255 v).

Definition nearest (img : Image) (sz : Z * Z) (x y : Z) : Pixel :=
  let '(r, g, b, a) := getpixel img (x * width img / fst sz) (y * height img / snd sz) in
  (clip8 r, clip8 g, clip8 b, clip8 a).

Definition bbox (text : string) : Z * Z * Z * Z :=
  (0, 0, 10 * Z.of_nat (String.length text), if String.eqb text "" then 0 else 12).

Definition ink (img : Image) (xy : Z * Z) (text : string) (fill : Pixel) (x y : Z) : Pixel :=
  let '(_, _, w, h) := bbox text in
  if (fst xy <=? x) && (x <? fst xy + w) && (snd xy <=? y) && (y <? snd xy + h)
  then fill
  else getpixel img x y.

Definition pil : PIL :=
  {| Font := unit;
     PhotoImage := Z * Z;
     path_exists := fun _ => false;
     truetype := fun _ _ => None;
     load_default := tt;
     textbbox := fun text _ => Some (bbox text);
     textsize := fun text _ => let '(_, _, w, h) := bbox text in (w, h);
     text_pixels := fun img xy text _ fill => ink img xy text fill;
     lanczos := nearest;
     rotate_bicubic := fun img _ => mkImage (height img) (width img)
                                      (fun x y => getpixel img y x);
     thumbnail_lanczos := fun img sz =>
       let w := Z.min (width img) (fst sz) in
       let h := Z.min (height img) (snd sz) in
       mkImage w h (nearest img (w, h));
     open_rgba := fun path => if String.eqb path "photo.png" then Some photo else None;
     photo_image := fun img => Some (size img) |}.

End Reference.

(** A second implementation, with two features of Pillow that the first
    one lacks: the edge of a glyph is drawn with partial coverage, and the
    resampling kernel has a negative weight, as the LANCZOS and BICUBIC
    kernels have.  The first two columns of a text are covered to 64/255
    and 128/255 and the ink is blended into the canvas through the
    coverage; a resampled sample is twice the nearest source sample minus
    its right-hand neighbour, stored on eight bits. *)
Module Lobed.

Definition coverage (xy : Z * Z) (text : string) (x y : Z) : Z :=
  let '(_, _, w, h) := Reference.bbox text in
  if (fst xy <=? x) && (x <? fst xy + w) && (snd xy <=? y) && (y <? snd xy + h)
  then if x =? fst xy then 64 else if x =? fst xy + 1 then 128 else 255
  else 0.

Definition ink (img : Image) (xy : Z * Z) (text : string) (fill : Pixel) (x y : Z) : Pixel :=
  blend_pixel (coverage xy text x y) (getpixel img x y) fill.

Definition sharpen (img : Image) (sz : Z * Z) (x y : Z) : Pixel :=
  let sx := x * width img / fst sz in
  let sy := y * height img / snd sz in
  let '(r1, g1, b1, a1) := getpixel img sx sy in
  let '(r2, g2, b2, a2) := getpixel img (sx + 1) sy in
  (Reference.clip8 (2 * r1 - r2), Reference.clip8 (2 * g1 - g2),
   Reference.clip8 (2 * b1 - b2), Reference.clip8 (2 * a1 - a2)).

Definition pil : PIL :=
  {| Font := unit;
     PhotoImage := Z * Z;
     path_exists := fun _ => false;
     truetype := fun _ _ => None;
     load_default := tt;
     textbbox := fun text _ => Some (Reference.bbox text);
     textsize := fun text _ => let '(_, _, w, h) := Reference.bbox text in (w, h);
     text_pixels := fun img xy text _ fill => ink img xy text fill;
     lanczos := sharpen;
     rotate_bicubic := @rotate_bicubic Reference.pil;
     thumbnail_lanczos := @thumbnail_lanczos Reference.pil;
     open_rgba := @open_rgba Reference.pil;
     photo_image := fun img => Some (size img) |}.

End Lobed.

(* ===================================================================== *)
(** ** The quantities of the specification                                *)
(* ===================================================================== *)

(** Unit roundoff of binary64. *)
Definition u64 : Q := 1 # 9007199254740992.

(** Both components of an anchor ratio lie in [0, 1]. *)
Definition unit_ratio (r : float * float) : Prop :=
  (0 <= fst r)%Q /\ (fst r <= 1)%Q /\ (0 <= snd r)%Q /\ (snd r <= 1)%Q.



(** The alpha that the specification describes: [a * opacity / 100]
    rounded to the nearest integer and clamped to [0, 255]. *)
Definition spec_fill_alpha (a opacity : Z) : Z :=
  Z.max 0 (Z.min 255 (Float.rne (inject_Z (a * opacity) / 100)%Q)).

(** The product of [fill_alpha] and a quotient of integers, on the
    hardware floats of the kernel. *)
Definition hardware_fill_alpha (a opacity : Z) : option Z :=
  let f n := PrimFloat.of_uint63 (Uint63.of_Z n) in
  option_map py_int
    (Float.of_hardware (PrimFloat.mul (f a) (PrimFloat.div (f opacity) (f 100)))).

Definition hardware_quotient (t w : Z) : option Q :=
  let f n := PrimFloat.of_uint63 (Uint63.of_Z n) in
  Float.of_hardware (PrimFloat.div (f t) (f w)).

(** The width that the specification describes:
    [round(W * sizePercent / 100)]. *)
Definition spec_width (bg_w size_percent : Z) : Z :=
  Float.rne (inject_Z (bg_w * size_percent) / 100)%Q.

(** What every call of [load_image] keeps of an image manager created
    for a [cw] by [ch] canvas: the canvas size, a preview that is the
    thumbnail of the current original, and no photo without a preview. *)
Definition manager_consistent `{PIL} (cw ch : Z) (m : ImageManager.t) : Prop :=
  ImageManager.canvas_width m = cw /\ ImageManager.canvas_height m = ch /\
  ImageManager.display_image m
  = (fun original => thumbnail_lanczos original (cw, ch)) <$> ImageManager.original_image m /\
  (ImageManager.display_photo m <> None -> ImageManager.display_image m <> None).

(** The image manager of the UI controller is consistent for the 900 by
    600 canvas, and the canvas item of the watermark exists only over a
    preview. *)
Definition item_over_preview `{PIL} (self : UIController.t) : Prop :=
  manager_consistent 900 600 (UIController.image_manager self) /\
  (UIController.watermark_id self <> None ->
   ImageManager.display_image (UIController.image_manager self) <> None).

(** The id held in [watermark_id] has been given out by the canvas. *)
Definition item_id_issued `{PIL} (self : CanvasController.t) : Prop :=
  forall id, CanvasController.watermark_id self = Some id ->
             id < Canvas.next_id (CanvasController.canvas self).

(** The controller holds the id of a watermark item that the canvas no
    longer has. *)
Definition watermark_item_lost `{PIL} (self : CanvasController.t) : Prop :=
  exists id,
    CanvasController.watermark_id self = Some id /\
    Canvas.items (CanvasController.canvas self) !! id = None /\
    id < Canvas.next_id (CanvasController.canvas self).

(** Every item of the canvas is a background item. *)
Definition only_background `{PIL} (self : CanvasController.t) : Prop :=
  forall k it,
    Canvas.items (CanvasController.canvas self) !! k = Some it -> Canvas.tags it = ["bg"].

(** Every item of the canvas is the background item or the watermark
    item that the controller holds the id of. *)
Definition items_accounted `{PIL} (self : CanvasController.t) : Prop :=
  forall k it,
    Canvas.items (CanvasController.canvas self) !! k = Some it ->
    (Canvas.tags it = ["bg"] /\ CanvasController.bg_image_id self = Some k) \/
    (Canvas.tags it = ["watermark"] /\ CanvasController.watermark_id self = Some k).

(** The watermark item sits at the whole point [(qx, qy)]. *)
Definition item_at `{PIL} (self : CanvasController.t) (qx qy : Z) : Prop :=
  exists id it,
    CanvasController.watermark_id self = Some id /\
    Canvas.items (CanvasController.canvas self) !! id = Some it /\
    (fst (Canvas.position it) == inject_Z qx)%Q /\
    (snd (Canvas.position it) == inject_Z qy)%Q.

(** The round trip of C4: the pixel centre that [create_overlay] computes
    for a ratio, read back by the formula of [_on_motion] with the
    container at the origin. *)
Definition round_trip (ratio : float * float) (container : Z * Z)
    : result (float * float) :=
  let '(cx, cy) := WatermarkProcessor.placement_center ratio container in
  CanvasController.ratio_from_pixel (float_of_int cx, float_of_int cy)
    (0, 0, fst container, snd container).

(* ===================================================================== *)
(** ** Facts about rounding                                               *)
(* ===================================================================== *)

Module FloatFacts.
Import Float.
Local Open Scope Q_scope.

Lemma pow2_pos e : 0 < pow2 e.
Proof. apply Qpower_0_lt. reflexivity. Qed.

Lemma pow2_add a b : pow2 (a + b) == pow2 a * pow2 b.
Proof. apply Qpower_plus. discriminate. Qed.

Lemma pow2_Z n : (0 <= n)%Z -> pow2 n == inject_Z (2 ^ n).
Proof. intros H. unfold pow2. rewrite Zpower_Qpower by assumption. reflexivity. Qed.

Lemma pow2_opp a : pow2 (- a) == / pow2 a.
Proof. apply Qpower_opp. Qed.

Lemma pow2_le a b : (a <= b)%Z -> pow2 a <= pow2 b.
Proof. intros H. apply Qpower_le_compat_l; [assumption | discriminate]. Qed.

Lemma Q_as_div x : x == inject_Z (Qnum x) / inject_Z (Zpos (Qden x)).
Proof. destruct x as [n d]. simpl. rewrite Qmake_Qdiv. reflexivity. Qed.

Lemma ilog2_spec x : 0 < x -> pow2 (ilog2 x) <= x /\ x < pow2 (ilog2 x + 1).
Proof.
  intros Hx. unfold ilog2.
  set (n := Qnum x). set (d := Zpos (Qden x)).
  assert (Hn : (0 < n)%Z).
  { destruct x as [a b]. unfold Qlt in Hx. simpl in *. subst n. simpl. lia. }
  assert (Hd : (0 < d)%Z) by (subst d; lia).
  set (a := Z.log2 n). set (b := Z.log2 d).
  destruct (Z.log2_spec n Hn) as [Ha1 Ha2]. fold a in Ha1, Ha2.
  destruct (Z.log2_spec d Hd) as [Hb1 Hb2]. fold b in Hb1, Hb2.
  assert (Ha0 : (0 <= a)%Z) by apply Z.log2_nonneg.
  assert (Hb0 : (0 <= b)%Z) by apply Z.log2_nonneg.
  assert (Hxe : x == inject_Z n / inject_Z d) by apply Q_as_div.
  assert (Hdq : 0 < inject_Z d) by (change 0 with (inject_Z 0); rewrite <- Zlt_Qlt; assumption).
  assert (Hnq : 0 < inject_Z n) by (change 0 with (inject_Z 0); rewrite <- Zlt_Qlt; assumption).
  (* x * d = n *)
  assert (Hxd : x * inject_Z d == inject_Z n) by (rewrite Hxe; field; lra).
  assert (PA1 : pow2 a <= inject_Z n).
  { rewrite pow2_Z by assumption. rewrite <- Zle_Qle. assumption. }
  assert (PA2 : inject_Z n < pow2 (a + 1)).
  { rewrite pow2_Z by lia. rewrite <- Zlt_Qlt.
    replace (a + 1)%Z with (Z.succ a) by lia. assumption. }
  assert (PB1 : pow2 b <= inject_Z d).
  { rewrite pow2_Z by assumption. rewrite <- Zle_Qle. assumption. }
  assert (PB2 : inject_Z d < pow2 (b + 1)).
  { rewrite pow2_Z by lia. rewrite <- Zlt_Qlt.
    replace (b + 1)%Z with (Z.succ b) by lia. assumption. }
  assert (E1 : pow2 (a + 1) == pow2 (a - b + 1) * pow2 b).
  { rewrite <- pow2_add. replace (a - b + 1 + b)%Z with (a + 1)%Z by lia. reflexivity. }
  assert (E2 : pow2 a == pow2 (a - b - 1) * pow2 (b + 1)).
  { rewrite <- pow2_add. replace (a - b - 1 + (b + 1))%Z with a by lia. reflexivity. }
  clear Hxe. clearbody n d a b.
  pose proof (pow2_pos (a - b + 1)) as P1.
  pose proof (pow2_pos (a - b - 1)) as P2.
  pose proof (pow2_pos b) as P3.
  assert (U : x < pow2 (a - b + 1)).
  { apply Qnot_le_lt. intros C.
    assert (pow2 (a - b + 1) * pow2 b <= x * inject_Z d)
      by (apply Qmult_le_compat_nonneg; split; lra).
    lra. }
  assert (L : pow2 (a - b - 1) <= x).
  { apply Qnot_lt_le. intros C.
    assert (x * inject_Z d < pow2 (a - b - 1) * pow2 (b + 1))
      by (apply Qmult_lt_compat_nonneg; split; lra).
    lra. }
  destruct (Qle_bool (pow2 (a - b)) x) eqn:E.
  - apply Qle_bool_iff in E. split; assumption.
  - assert (~ pow2 (a - b) <= x) by (rewrite <- Qle_bool_iff; congruence).
    replace (a - b - 1 + 1)%Z with (a - b)%Z by lia. split; lra.
Qed.

Lemma pow2_lt_inv a b : pow2 a < pow2 b -> (a < b)%Z.
Proof.
  intros H. destruct (Z_lt_le_dec a b) as [L | L]; [assumption | exfalso].
  pose proof (pow2_le b a L). lra.
Qed.

Lemma pow2_lt_inv_le a b : pow2 a <= pow2 b -> (a <= b)%Z.
Proof.
  intros H. destruct (Z_lt_le_dec b a) as [L | L]; [exfalso | assumption].
  assert (pow2 b < pow2 a); [| lra].
  unfold pow2. apply Qpower_lt_compat_l; [assumption | reflexivity].
Qed.

Lemma ilog2_unique x k : pow2 k <= x -> x < pow2 (k + 1) -> ilog2 x = k.
Proof.
  intros H1 H2.
  assert (Hx : 0 < x) by (pose proof (pow2_pos k); lra).
  destruct (ilog2_spec x Hx) as [S1 S2].
  assert ((ilog2 x < k + 1)%Z) by (apply pow2_lt_inv; lra).
  assert ((k < ilog2 x + 1)%Z) by (apply pow2_lt_inv; lra).
  lia.
Qed.

Lemma rne_near x : x - (1 # 2) <= inject_Z (rne x) /\ inject_Z (rne x) <= x + (1 # 2).
Proof.
  unfold rne. pose proof (Qfloor_le x) as F1. pose proof (Qlt_floor x) as F2.
  rewrite inject_Z_plus in F2. change (inject_Z 1) with 1 in F2.
  assert (S : inject_Z (Qfloor x + 1) == inject_Z (Qfloor x) + 1)
    by (rewrite inject_Z_plus; reflexivity).
  destruct (Qcompare (x - inject_Z (Qfloor x)) (1 # 2)) eqn:C.
  - apply Qeq_alt in C. destruct (Z.even (Qfloor x)); [| rewrite S]; lra.
  - apply Qlt_alt in C. lra.
  - apply Qgt_alt in C. rewrite S. lra.
Qed.

Lemma rne_le_int x n : x <= inject_Z n -> (rne x <= n)%Z.
Proof.
  intros H. unfold rne. pose proof (Qfloor_le x) as F1.
  assert (Fn : (Qfloor x <= n)%Z) by (rewrite Zle_Qle; lra).
  destruct (Qcompare (x - inject_Z (Qfloor x)) (1 # 2)) eqn:C.
  - apply Qeq_alt in C. destruct (Z.even (Qfloor x)); [assumption |].
    assert (inject_Z (Qfloor x) < inject_Z n) by lra.
    rewrite <- Zlt_Qlt in H0. lia.
  - assumption.
  - apply Qgt_alt in C.
    assert (inject_Z (Qfloor x) < inject_Z n) by lra.
    rewrite <- Zlt_Qlt in H0. lia.
Qed.

Lemma rne_ge_int x n : inject_Z n <= x -> (n <= rne x)%Z.
Proof.
  intros H. unfold rne.
  assert (Fn : (n <= Qfloor x)%Z).
  { rewrite <- (Qfloor_Z n). apply Qfloor_resp_le. assumption. }
  destruct (Qcompare (x - inject_Z (Qfloor x)) (1 # 2));
    [destruct (Z.even (Qfloor x)) | |]; lia.
Qed.

Lemma rne_int x n : x == inject_Z n -> rne x = n.
Proof.
  intros H. apply Z.le_antisymm; [apply rne_le_int | apply rne_ge_int]; lra.
Qed.

Lemma round_pos_near fmt y :
  0 < y ->
  y - pow2 (ulp_exp fmt y) * (1 # 2) <= round_pos fmt y /\
  round_pos fmt y <= y + pow2 (ulp_exp fmt y) * (1 # 2).
Proof.
  intros Hy. unfold round_pos. set (s := pow2 (ulp_exp fmt y)).
  assert (Hs : 0 < s) by apply pow2_pos.
  destruct (rne_near (y / s)) as [N1 N2].
  set (m := inject_Z (rne (y / s))) in *.
  assert (E : y == (y / s) * s) by (field; lra).
  set (q := y / s) in *. clearbody q m s.
  assert (A1 : (q - (1 # 2)) * s <= m * s) by (apply Qmult_le_compat_r; lra).
  assert (A2 : m * s <= (q + (1 # 2)) * s) by (apply Qmult_le_compat_r; lra).
  split; lra.
Qed.

Lemma ulp_bound fmt y :
  0 < y -> pow2 (ulp_exp fmt y) <= y * pow2 (1 - prec fmt) + pow2 (emin fmt).
Proof.
  intros Hy. destruct (ilog2_spec y Hy) as [S1 _]. unfold ulp_exp.
  pose proof (pow2_pos (emin fmt)). pose proof (pow2_pos (1 - prec fmt)).
  destruct (Z.max_spec (ilog2 y - (prec fmt - 1)) (emin fmt)) as [[_ ->] | [_ ->]].
  - assert (0 <= y * pow2 (1 - prec fmt)) by (apply Qmult_le_0_compat; lra). lra.
  - replace (ilog2 y - (prec fmt - 1))%Z with (ilog2 y + (1 - prec fmt))%Z by lia.
    rewrite pow2_add.
    assert (pow2 (ilog2 y) * pow2 (1 - prec fmt) <= y * pow2 (1 - prec fmt))
      by (apply Qmult_le_compat_r; lra).
    lra.
Qed.

Lemma ulp_normal fmt y :
  pow2 (emin fmt + prec fmt - 1) <= y ->
  pow2 (ulp_exp fmt y) <= y * pow2 (1 - prec fmt).
Proof.
  intros Hn.
  assert (Hy : 0 < y) by (pose proof (pow2_pos (emin fmt + prec fmt - 1)); lra).
  destruct (ilog2_spec y Hy) as [S1 S2]. unfold ulp_exp.
  assert ((emin fmt + prec fmt - 1 < ilog2 y + 1)%Z) by (apply pow2_lt_inv; lra).
  rewrite Z.max_l by lia.
  replace (ilog2 y - (prec fmt - 1))%Z with (ilog2 y + (1 - prec fmt))%Z by lia.
  rewrite pow2_add. pose proof (pow2_pos (1 - prec fmt)).
  apply Qmult_le_compat_r; lra.
Qed.

Lemma round_Qeq fmt x y : x == y -> round fmt x = round fmt y.
Proof. intros H. unfold round. rewrite (Qred_complete x y H). reflexivity. Qed.

Lemma round_zero fmt x : x == 0 -> round fmt x = 0.
Proof. intros H. rewrite (round_Qeq fmt x 0 H). reflexivity. Qed.

Lemma round_gt0 fmt x : 0 < x -> round fmt x == round_pos fmt (Qred x).
Proof.
  intros H. unfold round.
  assert (C : Qcompare (Qred x) 0 = Gt) by (apply Qgt_alt; rewrite Qred_correct; assumption).
  rewrite C. apply Qred_correct.
Qed.

Lemma round_lt0 fmt x : x < 0 -> round fmt x == - round_pos fmt (- Qred x).
Proof.
  intros H. unfold round.
  assert (C : Qcompare (Qred x) 0 = Lt) by (apply Qlt_alt; rewrite Qred_correct; assumption).
  rewrite C. apply Qred_correct.
Qed.

Lemma round_pos_nonneg fmt y : 0 < y -> 0 <= round_pos fmt y.
Proof.
  intros Hy. unfold round_pos. pose proof (pow2_pos (ulp_exp fmt y)) as Hs.
  apply Qmult_le_0_compat; [| lra].
  change 0 with (inject_Z 0). rewrite <- Zle_Qle. apply rne_ge_int.
  change (inject_Z 0) with 0. apply Qle_shift_div_l; lra.
Qed.

Lemma round_nonneg fmt x : 0 <= x -> 0 <= round fmt x.
Proof.
  intros H. destruct (Qlt_le_dec 0 x) as [P | P].
  - rewrite round_gt0 by assumption. apply round_pos_nonneg. rewrite Qred_correct. assumption.
  - rewrite (round_zero fmt x) by lra. lra.
Qed.

(** Relative error of rounding in the normal range. *)
Lemma round_rel_pos fmt x :
  pow2 (emin fmt + prec fmt - 1) <= x ->
  x - x * pow2 (- prec fmt) <= round fmt x /\ round fmt x <= x + x * pow2 (- prec fmt).
Proof.
  intros Hn.
  assert (Hx : 0 < x) by (pose proof (pow2_pos (emin fmt + prec fmt - 1)); lra).
  rewrite round_gt0 by assumption.
  assert (Hy : 0 < Qred x) by (rewrite Qred_correct; assumption).
  assert (Hny : pow2 (emin fmt + prec fmt - 1) <= Qred x) by (rewrite Qred_correct; assumption).
  destruct (round_pos_near fmt (Qred x) Hy) as [N1 N2].
  pose proof (ulp_normal fmt (Qred x) Hny) as U.
  assert (E : pow2 (1 - prec fmt) * (1 # 2) == pow2 (- prec fmt)).
  { replace (- prec fmt)%Z with ((1 - prec fmt) + (-1))%Z by lia.
    rewrite pow2_add. reflexivity. }
  rewrite <- E. pose proof (Qred_correct x) as R.
  set (y := Qred x) in *. set (s := pow2 (ulp_exp fmt y)) in *.
  set (c := pow2 (1 - prec fmt)) in *. set (r := round_pos fmt y) in *.
  clearbody y s c r.
  assert (y * c == x * c) by (rewrite R; reflexivity).
  split; lra.
Qed.

(** Absolute error of rounding anywhere below the overflow threshold. *)
Lemma round_abs_pos fmt x :
  0 <= x ->
  x - (x * pow2 (- prec fmt) + pow2 (emin fmt - 1)) <= round fmt x /\
  round fmt x <= x + (x * pow2 (- prec fmt) + pow2 (emin fmt - 1)).
Proof.
  intros H0. pose proof (pow2_pos (emin fmt - 1)) as He.
  destruct (Qlt_le_dec 0 x) as [Hx | Hx].
  2:{ rewrite (round_zero fmt x) by lra.
      assert (x == 0) by lra.
      assert (x * pow2 (- prec fmt) == 0) by (rewrite H; ring). lra. }
  rewrite round_gt0 by assumption.
  assert (Hy : 0 < Qred x) by (rewrite Qred_correct; assumption).
  destruct (round_pos_near fmt (Qred x) Hy) as [N1 N2].
  pose proof (ulp_bound fmt (Qred x) Hy) as U.
  assert (E : pow2 (1 - prec fmt) * (1 # 2) == pow2 (- prec fmt)).
  { replace (- prec fmt)%Z with ((1 - prec fmt) + (-1))%Z by lia.
    rewrite pow2_add. reflexivity. }
  assert (E' : pow2 (emin fmt) * (1 # 2) == pow2 (emin fmt - 1)).
  { replace (emin fmt - 1)%Z with (emin fmt + (-1))%Z by lia.
    rewrite pow2_add. reflexivity. }
  rewrite <- E, <- E'. pose proof (Qred_correct x) as R.
  set (y := Qred x) in *. set (s := pow2 (ulp_exp fmt y)) in *.
  set (c := pow2 (1 - prec fmt)) in *. set (r := round_pos fmt y) in *.
  set (d := pow2 (emin fmt)) in *.
  clearbody y s c r d.
  assert (y * c == x * c) by (rewrite R; reflexivity).
  split; lra.
Qed.

(** Rounding never crosses an integer that the format represents exactly. *)
Lemma round_le_int fmt x n :
  (0 < n < 2 ^ prec fmt)%Z -> (emin fmt <= 0)%Z -> (0 < prec fmt)%Z ->
  x <= inject_Z n -> round fmt x <= inject_Z n.
Proof.
  intros Hn He Hp Hx.
  assert (Hnq : 0 < inject_Z n) by (change 0 with (inject_Z 0); rewrite <- Zlt_Qlt; lia).
  destruct (Qlt_le_dec 0 x) as [P | P].
  2:{ destruct (Qlt_le_dec x 0) as [N | N].
      - rewrite round_lt0 by assumption.
        assert (0 <= round_pos fmt (- Qred x)).
        { apply round_pos_nonneg. rewrite Qred_correct. lra. }
        lra.
      - rewrite (round_zero fmt x) by lra. lra. }
  rewrite round_gt0 by assumption.
  assert (Hy : 0 < Qred x) by (rewrite Qred_correct; assumption).
  assert (Hyn : Qred x <= inject_Z n) by (rewrite Qred_correct; assumption).
  set (y := Qred x) in *. clearbody y.
  destruct (ilog2_spec y Hy) as [S1 S2].
  assert (Hl : (ilog2 y < prec fmt)%Z).
  { apply pow2_lt_inv.
    assert (inject_Z n < pow2 (prec fmt)).
    { rewrite pow2_Z by lia. rewrite <- Zlt_Qlt. lia. }
    lra. }
  unfold round_pos. set (e := ulp_exp fmt y).
  assert (Hle : (e <= 0)%Z) by (unfold e, ulp_exp; lia).
  pose proof (pow2_pos e) as Hs.
  assert (Es : pow2 (- e) * pow2 e == 1).
  { rewrite <- pow2_add. replace (- e + e)%Z with 0%Z by lia. reflexivity. }
  assert (Ei : inject_Z (n * 2 ^ (- e)) == inject_Z n * pow2 (- e)).
  { rewrite inject_Z_mult. rewrite pow2_Z by lia. reflexivity. }
  assert (B : (rne (y / pow2 e) <= n * 2 ^ (- e))%Z).
  { apply rne_le_int. rewrite Ei.
    assert (D : y / pow2 e == y * pow2 (- e)) by (rewrite pow2_opp; reflexivity).
    rewrite D. pose proof (pow2_pos (- e)). apply Qmult_le_compat_r; lra. }
  rewrite Zle_Qle in B. rewrite Ei in B.
  set (m := inject_Z (rne (y / pow2 e))) in *.
  set (s := pow2 e) in *. set (t := pow2 (- e)) in *. clearbody m s t.
  assert (m * s <= inject_Z n * t * s) by (apply Qmult_le_compat_r; lra).
  assert (inject_Z n * t * s == inject_Z n) by (rewrite <- Qmult_assoc, Es; ring).
  lra.
Qed.

Lemma round_int_exact fmt n :
  (0 <= n < 2 ^ prec fmt)%Z -> (emin fmt <= 0)%Z -> (0 < prec fmt)%Z ->
  round fmt (inject_Z n) == inject_Z n.
Proof.
  intros Hn He Hp.
  destruct (Z.eq_dec n 0) as [-> | Hz]; [reflexivity |].
  apply Qle_antisym.
  - apply round_le_int; try assumption; [lia | lra].
  - assert (P : 0 < inject_Z n) by (change 0 with (inject_Z 0); rewrite <- Zlt_Qlt; lia).
    rewrite round_gt0 by assumption.
    assert (Hy : 0 < Qred (inject_Z n)) by (rewrite Qred_correct; assumption).
    pose proof (Qred_correct (inject_Z n)) as R.
    set (y := Qred (inject_Z n)) in *. clearbody y.
    destruct (ilog2_spec y Hy) as [S1 S2].
    assert (Hl : (ilog2 y < prec fmt)%Z).
    { apply pow2_lt_inv.
      assert (inject_Z n < pow2 (prec fmt)).
      { rewrite pow2_Z by lia. rewrite <- Zlt_Qlt. lia. }
      lra. }
    unfold round_pos. set (e := ulp_exp fmt y).
    assert (Hle : (e <= 0)%Z) by (unfold e, ulp_exp; lia).
    pose proof (pow2_pos e) as Hs.
    assert (Es : pow2 (- e) * pow2 e == 1).
    { rewrite <- pow2_add. replace (- e + e)%Z with 0%Z by lia. reflexivity. }
    assert (Ei : inject_Z (n * 2 ^ (- e)) == inject_Z n * pow2 (- e)).
    { rewrite inject_Z_mult. rewrite pow2_Z by lia. reflexivity. }
    assert (B : (n * 2 ^ (- e) <= rne (y / pow2 e))%Z).
    { apply rne_ge_int. rewrite Ei.
      assert (D : y / pow2 e == y * pow2 (- e)) by (rewrite pow2_opp; reflexivity).
      rewrite D. pose proof (pow2_pos (- e)). apply Qmult_le_compat_r; lra. }
    rewrite Zle_Qle in B. rewrite Ei in B.
    set (m := inject_Z (rne (y / pow2 e))) in *.
    set (s := pow2 e) in *. set (t := pow2 (- e)) in *. clearbody m s t.
    assert (inject_Z n * t * s <= m * s) by (apply Qmult_le_compat_r; lra).
    assert (inject_Z n * t * s == inject_Z n) by (rewrite <- Qmult_assoc, Es; ring).
    lra.
Qed.

Lemma rne_mono x y : x <= y -> (rne x <= rne y)%Z.
Proof.
  intros H.
  pose proof (Qfloor_resp_le x y H) as F.
  pose proof (Qfloor_le x) as X1. pose proof (Qlt_floor x) as X2.
  pose proof (Qfloor_le y) as Y1. pose proof (Qlt_floor y) as Y2.
  rewrite inject_Z_plus in X2, Y2. change (inject_Z 1) with 1 in X2, Y2.
  destruct (Z.eq_dec (Qfloor x) (Qfloor y)) as [E | NE].
  - unfold rne. rewrite <- E.
    destruct (Qcompare (x - inject_Z (Qfloor x)) (1 # 2)) eqn:Cx;
      destruct (Qcompare (y - inject_Z (Qfloor x)) (1 # 2)) eqn:Cy;
      try (destruct (Z.even (Qfloor x))); try lia;
      repeat match goal with
        | C : Qcompare _ _ = Eq |- _ => apply Qeq_alt in C
        | C : Qcompare _ _ = Lt |- _ => apply Qlt_alt in C
        | C : Qcompare _ _ = Gt |- _ => apply Qgt_alt in C
        end;
      exfalso; lra.
  - assert ((rne x <= Qfloor x + 1)%Z).
    { apply rne_le_int. rewrite inject_Z_plus. change (inject_Z 1) with 1. lra. }
    assert ((Qfloor y <= rne y)%Z) by (apply rne_ge_int; assumption).
    lia.
Qed.

Lemma rne_int_eq x y : x == y -> rne x = rne y.
Proof.
  intros H. apply Z.le_antisymm; apply rne_mono; rewrite H; apply Qle_refl.
Qed.

Lemma pow2_int_ratio a b : (b <= a)%Z -> pow2 a / pow2 b == inject_Z (2 ^ (a - b)).
Proof.
  intros H. rewrite <- pow2_Z by lia.
  replace a with ((a - b) + b)%Z at 1 by lia. rewrite pow2_add.
  pose proof (pow2_pos b). field. lra.
Qed.

Lemma round_pos_mono fmt x y :
  (0 < prec fmt)%Z -> 0 < x -> x <= y -> round_pos fmt x <= round_pos fmt y.
Proof.
  intros Hp Hx Hxy. assert (Hy : 0 < y) by lra.
  destruct (ilog2_spec x Hx) as [X1 X2]. destruct (ilog2_spec y Hy) as [Y1 Y2].
  assert (Hl : (ilog2 x <= ilog2 y)%Z).
  { assert ((ilog2 x < ilog2 y + 1)%Z) by (apply pow2_lt_inv; lra). lia. }
  unfold round_pos.
  set (ex := ulp_exp fmt x). set (ey := ulp_exp fmt y).
  pose proof (pow2_pos ex) as Sx. pose proof (pow2_pos ey) as Sy.
  destruct (Z.eq_dec ex ey) as [E | NE].
  - rewrite <- E.
    assert ((rne (x / pow2 ex) <= rne (y / pow2 ex))%Z).
    { apply rne_mono. apply Qmult_le_compat_r; [assumption |].
      apply Qlt_le_weak, Qinv_lt_0_compat. assumption. }
    apply Qmult_le_compat_r; [| lra]. rewrite <- Zle_Qle. assumption.
  - assert (Hey : ey = (ilog2 y - (prec fmt - 1))%Z /\ (ex < ey)%Z /\ (ilog2 x < ilog2 y)%Z)
      by (unfold ex, ey, ulp_exp in *; lia).
    destruct Hey as (Hey & Hlt & Hll).
    assert (Hex : (ex <= ilog2 y)%Z) by lia.
    apply Qle_trans with (pow2 (ilog2 y)).
    + assert (B : (rne (x / pow2 ex) <= 2 ^ (ilog2 y - ex))%Z).
      { apply rne_le_int. rewrite <- pow2_int_ratio by assumption.
        apply Qmult_le_compat_r.
        - assert (pow2 (ilog2 x + 1) <= pow2 (ilog2 y)) by (apply pow2_le; lia). lra.
        - apply Qlt_le_weak, Qinv_lt_0_compat. assumption. }
      rewrite Zle_Qle in B. rewrite <- pow2_int_ratio in B by assumption.
      assert (pow2 (ilog2 y) / pow2 ex * pow2 ex == pow2 (ilog2 y)) by (field; lra).
      assert (inject_Z (rne (x / pow2 ex)) * pow2 ex <= pow2 (ilog2 y) / pow2 ex * pow2 ex)
        by (apply Qmult_le_compat_r; lra).
      lra.
    + assert (Hey' : (ey <= ilog2 y)%Z) by lia.
      assert (B : (2 ^ (ilog2 y - ey) <= rne (y / pow2 ey))%Z).
      { apply rne_ge_int. rewrite <- pow2_int_ratio by assumption.
        apply Qmult_le_compat_r; [assumption |].
        apply Qlt_le_weak, Qinv_lt_0_compat. assumption. }
      rewrite Zle_Qle in B. rewrite <- pow2_int_ratio in B by assumption.
      assert (pow2 (ilog2 y) / pow2 ey * pow2 ey == pow2 (ilog2 y)) by (field; lra).
      assert (pow2 (ilog2 y) / pow2 ey * pow2 ey <= inject_Z (rne (y / pow2 ey)) * pow2 ey)
        by (apply Qmult_le_compat_r; lra).
      lra.
Qed.

Lemma round_nonpos fmt x : x <= 0 -> round fmt x <= 0.
Proof.
  intros H. destruct (Qlt_le_dec x 0) as [N | N].
  - rewrite (round_lt0 fmt x N).
    assert (0 <= round_pos fmt (- Qred x))
      by (apply round_pos_nonneg; rewrite Qred_correct; lra).
    lra.
  - rewrite (round_zero fmt x) by lra. lra.
Qed.

Lemma round_mono fmt x y : (0 < prec fmt)%Z -> x <= y -> round fmt x <= round fmt y.
Proof.
  intros Hp H.
  destruct (Qlt_le_dec 0 x) as [Px | Px].
  - assert (Py : 0 < y) by lra.
    rewrite (round_gt0 fmt x Px), (round_gt0 fmt y Py).
    apply round_pos_mono; rewrite ?Qred_correct; assumption.
  - destruct (Qlt_le_dec y 0) as [Ny | Ny].
    + assert (Nx : x < 0) by lra.
      rewrite (round_lt0 fmt x Nx), (round_lt0 fmt y Ny).
      assert (round_pos fmt (- Qred y) <= round_pos fmt (- Qred x)).
      { apply round_pos_mono; [assumption | |]; rewrite ?Qred_correct; lra. }
      lra.
    + apply Qle_trans with 0; [apply round_nonpos | apply round_nonneg]; assumption.
Qed.

Lemma round_pos_int_multiple fmt w k :
  0 < w -> w / pow2 (ulp_exp fmt w) == inject_Z k -> round_pos fmt w == w.
Proof.
  intros Hw Hk. unfold round_pos. rewrite (rne_int _ k Hk), <- Hk.
  pose proof (pow2_pos (ulp_exp fmt w)). field. lra.
Qed.

Lemma round_pos_fixed fmt w m e :
  (0 < prec fmt)%Z -> (0 < m <= 2 ^ prec fmt)%Z -> (emin fmt <= e)%Z ->
  w == inject_Z m * pow2 e -> round_pos fmt w == w.
Proof.
  intros Hp Hm He Hw.
  pose proof (pow2_pos e) as Se.
  assert (Hmq : 0 < inject_Z m) by (change 0 with (inject_Z 0); rewrite <- Zlt_Qlt; lia).
  assert (W0 : 0 < w) by (rewrite Hw; apply Qmult_lt_0_compat; assumption).
  destruct (Z.eq_dec m (2 ^ prec fmt)) as [E | NE].
  - assert (Wp : w == pow2 (prec fmt + e)).
    { rewrite Hw, E, pow2_add. rewrite (pow2_Z (prec fmt)) by lia. reflexivity. }
    assert (L : ilog2 w = (prec fmt + e)%Z).
    { apply ilog2_unique; rewrite Wp; [apply Qle_refl |].
      apply Qnot_le_lt. intros C. apply pow2_lt_inv_le in C. lia. }
    apply round_pos_int_multiple with (k := (2 ^ (prec fmt - 1))%Z); [assumption |].
    unfold ulp_exp. rewrite L, Z.max_l by lia. rewrite Wp.
    rewrite pow2_int_ratio by lia. f_equiv. f_equal. lia.
  - assert (Wp : w < pow2 (prec fmt + e)).
    { rewrite Hw, pow2_add. apply Qmult_lt_compat_r; [assumption |].
      rewrite pow2_Z by lia. rewrite <- Zlt_Qlt. lia. }
    destruct (ilog2_spec w W0) as [S1 S2].
    assert (L : (ilog2 w < prec fmt + e)%Z) by (apply pow2_lt_inv; lra).
    set (e' := ulp_exp fmt w).
    assert (Le : (e' <= e)%Z) by (unfold e', ulp_exp; lia).
    apply round_pos_int_multiple with (k := (m * 2 ^ (e - e'))%Z); [assumption |].
    fold e'. rewrite Hw, inject_Z_mult, <- pow2_int_ratio by assumption.
    pose proof (pow2_pos e'). field. lra.
Qed.

Lemma round_pos_shape fmt y :
  (0 < prec fmt)%Z -> 0 < y ->
  (0 <= rne (y / pow2 (ulp_exp fmt y)) <= 2 ^ prec fmt)%Z.
Proof.
  intros Hp Hy. pose proof (pow2_pos (ulp_exp fmt y)) as Hs.
  destruct (ilog2_spec y Hy) as [S1 S2]. split.
  - apply rne_ge_int. change (inject_Z 0) with 0. apply Qle_shift_div_l; lra.
  - apply rne_le_int.
    assert (Hle : (ilog2 y + 1 <= ulp_exp fmt y + prec fmt)%Z) by (unfold ulp_exp; lia).
    pose proof (pow2_le _ _ Hle) as B.
    rewrite <- pow2_Z by lia. apply Qle_shift_div_r; [assumption |].
    pose proof (pow2_add (prec fmt) (ulp_exp fmt y)) as A.
    replace (prec fmt + ulp_exp fmt y)%Z with (ulp_exp fmt y + prec fmt)%Z in A by lia.
    lra.
Qed.

Lemma round_pos_idem fmt y :
  (0 < prec fmt)%Z -> 0 < y -> round fmt (round_pos fmt y) == round_pos fmt y.
Proof.
  intros Hp Hy.
  pose proof (round_pos_shape fmt y Hp Hy) as [M0 M1].
  pose proof (pow2_pos (ulp_exp fmt y)) as Hs.
  destruct (Z.eq_dec (rne (y / pow2 (ulp_exp fmt y))) 0) as [Z0 | NZ].
  - assert (E : round_pos fmt y == 0) by (unfold round_pos; rewrite Z0; ring).
    rewrite (round_zero fmt _ E). symmetry. assumption.
  - assert (V : 0 < round_pos fmt y).
    { unfold round_pos. apply Qmult_lt_0_compat; [| assumption].
      change 0 with (inject_Z 0). rewrite <- Zlt_Qlt. lia. }
    rewrite round_gt0 by assumption.
    rewrite <- (Qred_correct (round_pos fmt y)) at 2.
    apply round_pos_fixed with (m := rne (y / pow2 (ulp_exp fmt y))) (e := ulp_exp fmt y).
    + assumption.
    + lia.
    + unfold ulp_exp. lia.
    + rewrite Qred_correct. reflexivity.
Qed.

Lemma round_opp fmt x : round fmt (- x) == - round fmt x.
Proof.
  destruct (Qlt_le_dec 0 x) as [P | P].
  - rewrite (round_gt0 fmt x P). rewrite round_lt0 by lra.
    assert (E : - Qred (- x) == Qred x) by (rewrite !Qred_correct; ring).
    unfold round_pos, ulp_exp.
    assert (L : ilog2 (- Qred (- x)) = ilog2 (Qred x)).
    { assert (0 < Qred x) by (rewrite Qred_correct; assumption).
      destruct (ilog2_spec (Qred x) H) as [S1 S2].
      apply ilog2_unique; rewrite E; assumption. }
    rewrite L. set (e := Z.max _ _).
    assert (R : rne (- Qred (- x) / pow2 e) = rne (Qred x / pow2 e)).
    { apply rne_int_eq. rewrite E. reflexivity. }
    rewrite R. reflexivity.
  - destruct (Qlt_le_dec x 0) as [N | N].
    + rewrite (round_lt0 fmt x N). rewrite round_gt0 by lra.
      assert (E : Qred (- x) == - Qred x) by (rewrite !Qred_correct; ring).
      unfold round_pos, ulp_exp.
      assert (L : ilog2 (Qred (- x)) = ilog2 (- Qred x)).
      { assert (0 < - Qred x) by (rewrite Qred_correct; lra).
        destruct (ilog2_spec (- Qred x) H) as [S1 S2].
        apply ilog2_unique; rewrite E; assumption. }
      rewrite L. set (e := Z.max _ _).
      assert (R : rne (Qred (- x) / pow2 e) = rne (- Qred x / pow2 e)).
      { apply rne_int_eq. rewrite E. reflexivity. }
      rewrite R. ring.
    + rewrite (round_zero fmt x) by lra. rewrite (round_zero fmt (- x)) by lra. reflexivity.
Qed.

Lemma round_idem fmt x : (0 < prec fmt)%Z -> round fmt (round fmt x) == round fmt x.
Proof.
  intros Hp.
  destruct (Qlt_le_dec 0 x) as [P | P].
  - pose proof (round_gt0 fmt x P) as E.
    rewrite (round_Qeq fmt _ _ E), E.
    apply round_pos_idem; [assumption | rewrite Qred_correct; assumption].
  - destruct (Qlt_le_dec x 0) as [N | N].
    + pose proof (round_lt0 fmt x N) as E.
      rewrite (round_Qeq fmt _ _ E), E, round_opp.
      rewrite round_pos_idem; [reflexivity | assumption | rewrite Qred_correct; lra].
    + rewrite (round_zero fmt x) by lra. reflexivity.
Qed.

End FloatFacts.

(* ===================================================================== *)
(** ** Facts about Python arithmetic                                      *)
(* ===================================================================== *)

Module PyFacts.
Import Float FloatFacts.
Local Open Scope Q_scope.

Lemma fl_mono x y : x <= y -> fl x <= fl y.
Proof. apply round_mono. reflexivity. Qed.

Lemma fl_nonneg x : 0 <= x -> 0 <= fl x.
Proof. apply round_nonneg. Qed.

Lemma fl_Qeq x y : x == y -> fl x = fl y.
Proof. apply round_Qeq. Qed.

Lemma fl_idem x : fl (fl x) == fl x.
Proof. apply round_idem. reflexivity. Qed.

Lemma fl_int n : (Z.abs n < 2 ^ 53)%Z -> fl (inject_Z n) == inject_Z n.
Proof.
  intros Hn. unfold fl. destruct (Z_lt_le_dec n 0) as [N | P].
  - assert (E : inject_Z n == - inject_Z (- n)) by (rewrite inject_Z_opp; ring).
    rewrite (round_Qeq _ _ _ E), round_opp, round_int_exact; [symmetry; exact E | | |];
      simpl; lia.
  - apply round_int_exact; simpl; lia.
Qed.

Lemma float_of_int_exact n : (Z.abs n < 2 ^ 53)%Z -> float_of_int n == inject_Z n.
Proof. apply fl_int. Qed.

(** Relative error of one operation, away from the subnormal range. *)
Lemma fl_rel x :
  (1 # 4294967296) <= x -> x - x * u64 <= fl x /\ fl x <= x + x * u64.
Proof.
  intros Hx. apply (round_rel_pos binary64 x).
  apply Qle_trans with (1 # 4294967296); [| assumption].
  vm_compute. discriminate.
Qed.

(** Absolute error of one operation on a non-negative value. *)
Lemma fl_abs x :
  0 <= x ->
  x - (x * u64 + pow2 (-1075)) <= fl x /\ fl x <= x + (x * u64 + pow2 (-1075)).
Proof. intros Hx. apply (round_abs_pos binary64 x Hx). Qed.

Lemma fl_le_int x n : (0 < n < 2 ^ 53)%Z -> x <= inject_Z n -> fl x <= inject_Z n.
Proof. intros Hn Hx. apply round_le_int; simpl; try lia. assumption. Qed.

Lemma py_int_nonneg x : 0 <= x -> py_int x = Qfloor x.
Proof. intros H. unfold py_int. apply Qle_bool_iff in H. rewrite H. reflexivity. Qed.

Lemma py_int_bounds x n :
  0 <= x -> inject_Z n <= x -> x < inject_Z (n + 1) -> py_int x = n.
Proof.
  intros H0 H1 H2. rewrite py_int_nonneg by assumption.
  pose proof (Qfloor_le x) as F1. pose proof (Qlt_floor x) as F2.
  assert ((n <= Qfloor x)%Z) by (rewrite <- (Qfloor_Z n); apply Qfloor_resp_le; assumption).
  assert ((Qfloor x < n + 1)%Z) by (rewrite Zlt_Qlt; lra).
  lia.
Qed.

Lemma py_int_mono x y : 0 <= x -> x <= y -> (py_int x <= py_int y)%Z.
Proof.
  intros H0 H. rewrite !py_int_nonneg by lra. apply Qfloor_resp_le. assumption.
Qed.

Lemma py_int_Z n : py_int (inject_Z n) = n.
Proof.
  unfold py_int. destruct (Qle_bool 0 (inject_Z n)); [apply Qfloor_Z | apply Qceiling_Z].
Qed.

Lemma py_int_Qeq x y : x == y -> py_int x = py_int y.
Proof.
  intros E. unfold py_int.
  assert (B : Qle_bool 0 x = Qle_bool 0 y).
  { destruct (Qle_bool 0 x) eqn:Ex, (Qle_bool 0 y) eqn:Ey; try reflexivity.
    - apply Qle_bool_iff in Ex. rewrite E in Ex. apply Qle_bool_iff in Ex. congruence.
    - apply Qle_bool_iff in Ey. rewrite <- E in Ey. apply Qle_bool_iff in Ey. congruence. }
  rewrite B. destruct (Qle_bool 0 y); [apply Qfloor_comp | apply Qceiling_comp]; assumption.
Qed.

Lemma fl_0 : fl 0 = 0.
Proof. reflexivity. Qed.

Lemma fl_1 : fl 1 = 1.
Proof. reflexivity. Qed.

Lemma fl_unit x : 0 <= x -> x <= 1 -> 0 <= fl x /\ fl x <= 1.
Proof.
  intros H0 H1. split.
  - apply fl_nonneg. assumption.
  - rewrite <- fl_1. apply fl_mono. assumption.
Qed.

Lemma div100 x : x / 100 == x * (1 # 100).
Proof. reflexivity. Qed.

Lemma inject_Z_le (a b : Z) : (a <= b)%Z -> inject_Z a <= inject_Z b.
Proof. intros L. rewrite <- Zle_Qle. assumption. Qed.

Lemma inject_Z_sub (a b : Z) : inject_Z (a - b) == inject_Z a - inject_Z b.
Proof. unfold Z.sub. rewrite inject_Z_plus, inject_Z_opp. reflexivity. Qed.

Lemma Qmult_le_l_nonneg (z x y : Q) : 0 <= z -> x <= y -> z * x <= z * y.
Proof.
  intros Hz L. rewrite (Qmult_comm z x), (Qmult_comm z y).
  apply Qmult_le_compat_r; assumption.
Qed.

(** [float(n)] is zero only for [n = 0]. *)
Lemma float_of_int_nonzero n : (n <> 0)%Z -> ~ float_of_int n == 0.
Proof.
  intros Hn E. unfold float_of_int in E.
  destruct (Z_lt_le_dec n 0) as [N | P].
  - assert (L : inject_Z n <= -1) by (apply (inject_Z_le n (-1)); lia).
    pose proof (fl_mono _ _ L) as M. change (fl (-1)) with (-1) in M. lra.
  - assert (L : 1 <= inject_Z n) by (apply (inject_Z_le 1); lia).
    pose proof (fl_mono _ _ L) as M. rewrite fl_1 in M. lra.
Qed.

Lemma truediv_ok x n :
  (n <> 0)%Z -> truediv x (float_of_int n) = Ok (fdiv x (float_of_int n)).
Proof.
  intros Hn. unfold truediv.
  destruct (Qeq_bool (float_of_int n) 0) eqn:E; [| reflexivity].
  apply Qeq_bool_iff in E. exfalso. exact (float_of_int_nonzero n Hn E).
Qed.

End PyFacts.

(* ===================================================================== *)
(** ** Agreement with the hardware floats                                 *)
(* ===================================================================== *)

(** [Float.round] on binary64 returns what the kernel's IEEE-754
    arithmetic returns: on the quotients [t / w] of small integers, as in
    the scale factors, *)
Lemma quotients_agree_with_hardware :
  forallb (fun t =>
     forallb (fun w =>
        match hardware_quotient t w with
        | Some q => Qeq_bool q (fdiv (float_of_int t) (float_of_int w))
        | None => false
        end) (seqZ 1 30)) (seqZ 0 30) = true.
Proof. vm_compute. reflexivity. Qed.

(** and on every product that [fill_alpha] computes for these alphas and
    every opacity. *)
Lemma fill_alpha_agrees_with_hardware :
  forallb (fun a =>
     forallb (fun o =>
        match hardware_fill_alpha a o with
        | Some v => v =? TextWatermarkRenderer.fill_alpha a o
        | None => false
        end) (seqZ 0 101)) [0; 1; 50; 100; 128; 200; 255] = true.
Proof. vm_compute. reflexivity. Qed.

(* ===================================================================== *)
(** ** Degenerate inputs, rotation and loading                            *)
(* ===================================================================== *)

Section Basic.
Context `{PIL}.
Import PyFacts.

Lemma logical_width_nonzero m : fst (TextWatermarkRenderer.logical_size m) <> 0.
Proof.
  destruct m as [w h]. unfold TextWatermarkRenderer.logical_size.
  destruct (w =? 0) eqn:E; simpl; [lia | apply Z.eqb_neq; assumption].
Qed.

Lemma text_render_scaled_ok bg s :
  exists sprite, TextWatermarkRenderer.render_scaled bg s = Ok sprite.
Proof.
  unfold TextWatermarkRenderer.render_scaled.
  pose proof (logical_width_nonzero
    (TextWatermarkRenderer._measure_text (text s)
       (TextWatermarkRenderer._get_font (font_path s) (font_size s)))) as NZ.
  destruct (TextWatermarkRenderer.logical_size _) as [text_w text_h]. simpl in NZ.
  destruct (text_color s) as [[[r g] b] a].
  unfold TextWatermarkRenderer._scale_image. destruct bg as [bg_w bg_h].
  rewrite truediv_ok by assumption. simpl. eauto.
Qed.

End Basic.

(** C2, as the specification words it, fails: a measured box of width 5
    and height 0 is kept as it is, no 1x1 size is substituted. *)
Lemma logical_size_zero_height_kept :
  TextWatermarkRenderer.logical_size (5, 0) = (5, 0) /\
  TextWatermarkRenderer.logical_size (5, 0) <> (1, 1).
Proof. split; [reflexivity | discriminate]. Qed.

(** C2 (amended): the 1x1 logical size is substituted exactly when the
    measured width is zero; a box of non-zero width is kept whatever its
    height.  Either way the width that later divides the target width is
    not zero, and rendering a text watermark returns a sprite: no division
    by zero for any text, font and settings. *)
Theorem text_width_guard `{PIL} (bg : Z * Z) (s : WatermarkSettings) :
  let measured :=
    TextWatermarkRenderer._measure_text (text s)
      (TextWatermarkRenderer._get_font (font_path s) (font_size s)) in
  (fst measured = 0 -> TextWatermarkRenderer.logical_size measured = (1, 1)) /\
  (fst measured <> 0 -> TextWatermarkRenderer.logical_size measured = measured) /\
  fst (TextWatermarkRenderer.logical_size measured) <> 0 /\
  (exists sprite, TextWatermarkRenderer.render bg s = Ok sprite).
Proof.
  intros measured. repeat split.
  - destruct measured as [w h]. simpl. intros ->. reflexivity.
  - destruct measured as [w h]. simpl. intros Hw.
    unfold TextWatermarkRenderer.logical_size.
    apply Z.eqb_neq in Hw. rewrite Hw. reflexivity.
  - apply logical_width_nonzero.
  - unfold TextWatermarkRenderer.render.
    destruct (text_render_scaled_ok bg s) as [sprite ->]. simpl.
    destruct (negb _); eauto.
Qed.

(** Pasting through a mask whose alpha is zero everywhere leaves a
    transparent canvas transparent. *)
Lemma paste_transparent_mask (canvas im : Image) (box : Z * Z) :
  (forall x y, getpixel canvas x y = transparent) ->
  (forall x y, alpha_at im x y = 0) ->
  forall x y, getpixel (paste canvas im box im) x y = transparent.
Proof.
  intros Hc Hm x y. unfold paste. simpl.
  destruct (_ && _); [| apply Hc].
  rewrite Hm, Hc. unfold transparent, blend_pixel.
  destruct (getpixel im _ _) as [[[r g] b] a].
  unfold BLEND. rewrite !Z.mul_0_r, !Z.mul_0_l. reflexivity.
Qed.

(** C6: with no watermark image set and a kind other than "text" (the kind
    Image), [create_watermark] returns a 1x1 sprite whose pixel is fully
    transparent, and for every background size [create_overlay] returns a
    canvas of exactly that size whose every pixel is fully transparent. *)
Theorem missing_asset_overlay_transparent `{PIL}
    (self : WatermarkProcessor.t) (s : WatermarkSettings) (w h : Z) :
  ImageWatermarkRenderer.watermark_image (WatermarkProcessor.image_renderer self) = None ->
  String.eqb (wm_type s) "text" = false ->
  (exists sprite,
      WatermarkProcessor.create_watermark self (w, h) s = Ok sprite /\
      size sprite = (1, 1) /\ getpixel sprite 0 0 = (0, 0, 0, 0)) /\
  (exists overlay,
      WatermarkProcessor.create_overlay self (w, h) s = Ok overlay /\
      size overlay = (w, h) /\
      forall x y, getpixel overlay x y = (0, 0, 0, 0) /\ alpha_at overlay x y = 0).
Proof.
  intros Hnone Hkind.
  assert (W : WatermarkProcessor.create_watermark self (w, h) s
              = Ok (Image_new (1, 1) (0, 0, 0, 0))).
  { unfold WatermarkProcessor.create_watermark. rewrite Hkind.
    unfold ImageWatermarkRenderer.render. rewrite Hnone. reflexivity. }
  split.
  - eexists. split; [exact W |]. split; reflexivity.
  - unfold WatermarkProcessor.create_overlay. rewrite W. simpl.
    eexists. split; [reflexivity |]. split; [reflexivity |].
    intros x y.
    assert (P : getpixel
                  (paste (Image_new (w, h) (0, 0, 0, 0)) (Image_new (1, 1) (0, 0, 0, 0))
                     (WatermarkProcessor.top_left
                        (py_int (fmul (fst (anchor_ratio s)) (float_of_int w))) 1,
                      WatermarkProcessor.top_left
                        (py_int (fmul (snd (anchor_ratio s)) (float_of_int h))) 1)
                     (Image_new (1, 1) (0, 0, 0, 0))) x y = transparent).
    { apply paste_transparent_mask; reflexivity. }
    split; [exact P |]. unfold alpha_at. rewrite P. reflexivity.
Qed.

Lemma missing_asset_overlay_transparent_witness :
  exists overlay,
    WatermarkProcessor.create_overlay (H := Reference.pil) WatermarkProcessor.__init__
      (1000, 800) (set_wm_type default_settings "image") = Ok overlay /\
    size overlay = (1000, 800) /\
    forall x y, getpixel overlay x y = (0, 0, 0, 0) /\ alpha_at overlay x y = 0.
Proof.
  apply (missing_asset_overlay_transparent (H := Reference.pil)
           WatermarkProcessor.__init__ (set_wm_type default_settings "image") 1000 800);
    reflexivity.
Defined.

(** C7: if the file cannot be opened or decoded, [load_image] returns
    [False] and the image manager is exactly what it was: the original
    image, the preview copy and the preview photo are untouched. *)
Theorem load_image_failure_keeps_state `{PIL} (self : ImageManager.t) (path : string) :
  open_rgba path = None ->
  ImageManager.load_image self path = (self, false).
Proof. intros Hopen. unfold ImageManager.load_image. rewrite Hopen. reflexivity. Qed.

Lemma load_image_failure_keeps_state_witness :
  let loaded := fst (ImageManager.load_image (H := Reference.pil)
                       (ImageManager.__init__ 900 600) "photo.png") in
  ImageManager.original_image loaded = Some Reference.photo /\
  ImageManager.load_image (H := Reference.pil) loaded "missing.png" = (loaded, false).
Proof.
  intros loaded. split; [reflexivity |].
  apply (load_image_failure_keeps_state (H := Reference.pil) loaded "missing.png").
  reflexivity.
Defined.

(** Outside C7: when the file decodes but the preview photo cannot be
    built, [load_image] also returns [False], and by then the new original
    and its preview have replaced the previous ones. *)
Lemma load_image_photo_failure `{PIL} (self : ImageManager.t) (path : string) (img : Image) :
  open_rgba path = Some img ->
  photo_image (thumbnail_lanczos img
                 (ImageManager.canvas_width self, ImageManager.canvas_height self)) = None ->
  snd (ImageManager.load_image self path) = false /\
  ImageManager.original_image (fst (ImageManager.load_image self path)) = Some img.
Proof.
  intros Hopen Hphoto. unfold ImageManager.load_image, ImageManager._update_display_image.
  rewrite Hopen. simpl. rewrite Hphoto. split; reflexivity.
Qed.

(** C8: for every settings value, rendering with a rotation of 0 and with
    a rotation of 360 returns the unrotated sprite itself (same size, same
    pixels), in the text renderer and in the image renderer: the rotation
    is skipped whenever the angle is 0 modulo 360. *)
Theorem rotation_0_360_noop `{PIL}
    (self : ImageWatermarkRenderer.t) (bg : Z * Z) (s : WatermarkSettings) :
  TextWatermarkRenderer.render bg (set_rotation s 0)
    = TextWatermarkRenderer.render_scaled bg s /\
  TextWatermarkRenderer.render bg (set_rotation s 360)
    = TextWatermarkRenderer.render_scaled bg s /\
  ImageWatermarkRenderer.render self bg (set_rotation s 0)
    = ImageWatermarkRenderer.render_unrotated self bg s /\
  ImageWatermarkRenderer.render self bg (set_rotation s 360)
    = ImageWatermarkRenderer.render_unrotated self bg s.
Proof.
  assert (T : forall r, r mod 360 = 0 ->
                TextWatermarkRenderer.render bg (set_rotation s r)
                = TextWatermarkRenderer.render_scaled bg s).
  { intros r Hr. unfold TextWatermarkRenderer.render.
    change (TextWatermarkRenderer.render_scaled bg (set_rotation s r))
      with (TextWatermarkRenderer.render_scaled bg s).
    simpl rotation. rewrite Hr.
    destruct (TextWatermarkRenderer.render_scaled bg s); reflexivity. }
  assert (I : forall r, r mod 360 = 0 ->
                ImageWatermarkRenderer.render self bg (set_rotation s r)
                = ImageWatermarkRenderer.render_unrotated self bg s).
  { intros r Hr.
    unfold ImageWatermarkRenderer.render, ImageWatermarkRenderer.render_unrotated.
    destruct (ImageWatermarkRenderer.watermark_image self) as [asset |]; [| reflexivity].
    change (ImageWatermarkRenderer.scale_watermark asset bg (set_rotation s r))
      with (ImageWatermarkRenderer.scale_watermark asset bg s).
    simpl rotation. simpl opacity. rewrite Hr.
    destruct (ImageWatermarkRenderer.scale_watermark asset bg s); reflexivity. }
  repeat split; first [apply T | apply I]; reflexivity.
Qed.

(* ===================================================================== *)
(** ** The stored watermark image is never written                        *)
(* ===================================================================== *)

Section Store.
Context `{PIL}.
Import ObjectStore.

Lemma alloc_spec (h h' : gmap loc Image) (img : Image) (l : loc) :
  alloc h img = (l, h') -> h !! l = None /\ h' = <[l := img]> h.
Proof.
  unfold alloc. intros E. inversion E; subst. split; [| reflexivity].
  apply not_elem_of_dom, is_fresh.
Qed.

Lemma alloc_new (h h' : gmap loc Image) (img : Image) (l : loc) :
  alloc h img = (l, h') -> h' !! l = Some img.
Proof. intros E. destruct (alloc_spec _ _ _ _ E) as [_ ->]. apply lookup_insert_eq. Qed.

Lemma alloc_old (h h' : gmap loc Image) (img : Image) (l l0 : loc) (v : Image) :
  alloc h img = (l, h') -> h !! l0 = Some v -> h' !! l0 = Some v /\ l <> l0.
Proof.
  intros E Hl. destruct (alloc_spec _ _ _ _ E) as [F ->].
  assert (l <> l0) by congruence.
  split; [| assumption]. rewrite lookup_insert_ne; assumption.
Qed.

(** Every object that exists before [render] is unchanged after it. *)
Lemma render_frame (h : gmap loc Image) (self : renderer) (bg : Z * Z)
    (s : WatermarkSettings) (l : loc) (v : Image) :
  h !! l = Some v -> (render h self bg s).1 !! l = Some v.
Proof.
  intros Hl. unfold render.
  destruct (watermark_image self) as [stored |].
  2:{ destruct (alloc h _) as [l0 h0] eqn:A. simpl.
      apply (alloc_old _ _ _ _ _ _ A Hl). }
  destruct (h !! stored) as [asset |]; [| assumption].
  destruct (alloc h asset) as [wm0 h0] eqn:A0.
  destruct (alloc_old _ _ _ _ _ _ A0 Hl) as [H0 _].
  destruct bg as [bg_w bg_h].
  destruct (truediv _ _) as [scale | e]; [| assumption].
  set (resized := resize asset _).
  destruct (alloc h0 resized) as [wm h1] eqn:A1.
  destruct (alloc_old _ _ _ _ _ _ A1 H0) as [H1 Hne].
  set (current := ImageWatermarkRenderer.apply_opacity resized (opacity s)).
  assert (H2 : (if opacity s <? 100 then <[wm := current]> h1 else h1) !! l = Some v).
  { destruct (opacity s <? 100); [| assumption].
    rewrite lookup_insert_ne; assumption. }
  destruct (negb _); [| assumption].
  destruct (alloc _ (rotate_bicubic current (rotation s))) as [rotated h2] eqn:A2.
  simpl. apply (alloc_old _ _ _ _ _ _ A2 H2).
Qed.

Lemma render_all_frame (self : renderer) (calls : list (Z * Z * WatermarkSettings))
    (h : gmap loc Image) (l : loc) (v : Image) :
  h !! l = Some v -> render_all self calls h !! l = Some v.
Proof.
  revert h. induction calls as [| c calls IH]; intros h Hl; [assumption |].
  simpl. apply IH. apply render_frame. assumption.
Qed.

(** The object returned by [render] holds the image that the value-level
    renderer computes from the stored asset. *)
Lemma render_refines (h : gmap loc Image) (self : renderer) (bg : Z * Z)
    (s : WatermarkSettings) (stored : loc) (asset : Image) :
  watermark_image self = Some stored -> h !! stored = Some asset ->
  match ImageWatermarkRenderer.render (ImageWatermarkRenderer.mk (Some asset)) bg s with
  | Ok sprite =>
      exists l, (render h self bg s).2 = Ok l /\ (render h self bg s).1 !! l = Some sprite
  | Raise e => (render h self bg s).2 = Raise e
  end.
Proof.
  intros Hs Hl. unfold render, ImageWatermarkRenderer.render. rewrite Hs, Hl.
  unfold ImageWatermarkRenderer.scale_watermark, alloc. destruct bg as [bg_w bg_h].
  cbn [ImageWatermarkRenderer.watermark_image].
  destruct (truediv _ _) as [scale | e]; cbn [mbind result_bind]; [| reflexivity].
  unfold ImageWatermarkRenderer.apply_opacity.
  destruct (negb _), (opacity s <? 100); cbn [fst snd];
    eexists; (split; [reflexivity | apply lookup_insert_eq]).
Qed.

End Store.

(** C10: after [set_watermark_image], the renderer holds its own copy of
    the image, and no sequence of [render] calls, whatever the background
    sizes and settings, changes that stored object or the caller's
    image: both are found in the store with the same size and pixels. *)
Theorem render_never_mutates_asset `{PIL}
    (h : gmap ObjectStore.loc Image) (self : ObjectStore.renderer)
    (image : ObjectStore.loc) (img : Image)
    (calls : list (Z * Z * WatermarkSettings)) :
  h !! image = Some img ->
  let after_set := ObjectStore.set_watermark_image h self image in
  exists stored,
    ObjectStore.watermark_image after_set.2 = Some stored /\
    stored <> image /\
    after_set.1 !! stored = Some img /\
    ObjectStore.render_all after_set.2 calls after_set.1 !! stored = Some img /\
    ObjectStore.render_all after_set.2 calls after_set.1 !! image = Some img.
Proof.
  intros Himg after_set. unfold after_set, ObjectStore.set_watermark_image.
  rewrite Himg.
  destruct (ObjectStore.alloc h img) as [l h0] eqn:A. simpl.
  pose proof (alloc_new _ _ _ _ A) as New.
  destruct (alloc_old _ _ _ _ _ _ A Himg) as [Old Hne].
  exists l. split; [reflexivity |]. split; [assumption |].
  split; [assumption |]. split; apply render_all_frame; assumption.
Qed.

Lemma render_never_mutates_asset_witness :
  let h : gmap ObjectStore.loc Image := {[ 1%positive := Reference.photo ]} in
  let after_set :=
    ObjectStore.set_watermark_image h (ObjectStore.mk None) 1%positive in
  exists stored,
    ObjectStore.watermark_image after_set.2 = Some stored /\
    stored <> 1%positive /\
    after_set.1 !! stored = Some Reference.photo /\
    ObjectStore.render_all (H := Reference.pil) after_set.2
      [((1000, 800), set_opacity default_settings 30);
       ((640, 480), set_rotation default_settings 45)] after_set.1 !! stored
    = Some Reference.photo /\
    ObjectStore.render_all (H := Reference.pil) after_set.2
      [((1000, 800), set_opacity default_settings 30);
       ((640, 480), set_rotation default_settings 45)] after_set.1 !! 1%positive
    = Some Reference.photo.
Proof.
  intros h after_set.
  apply (render_never_mutates_asset (H := Reference.pil) h (ObjectStore.mk None) 1%positive
           Reference.photo).
  reflexivity.
Defined.

(* ===================================================================== *)
(** ** The anchor ratio stays in the unit square                          *)
(* ===================================================================== *)

Section Anchor.
Import PyFacts.
Local Open Scope Q_scope.

(** One axis of [ratio_from_pixel]: clamp to the extent, then divide. *)
Lemma clamped_axis_unit (c : float) (origin extent : Z) (r : float) :
  truediv (fl (Qmax 0 (Qmin (fsub c (float_of_int origin)) (inject_Z extent))))
          (float_of_int extent) = Ok r ->
  0 <= r /\ r <= 1.
Proof.
  unfold truediv. set (d := fsub c (float_of_int origin)).
  set (loc := Qmax 0 (Qmin d (inject_Z extent))).
  destruct (Qeq_bool (float_of_int extent) 0) eqn:E; [discriminate |].
  intros R. inversion R as [R']. clear R R'. unfold fdiv.
  assert (L0 : 0 <= loc) by apply Q.le_max_l.
  destruct (Z_lt_le_dec 0 extent) as [P | N].
  - assert (Le : loc <= inject_Z extent).
    { apply Q.max_lub; [| apply Q.le_min_r].
      change 0 with (inject_Z 0). rewrite <- Zle_Qle. lia. }
    assert (D1 : 1 <= float_of_int extent).
    { rewrite <- fl_1. apply fl_mono.
      change 1 with (inject_Z 1). rewrite <- Zle_Qle. lia. }
    assert (N0 : 0 <= fl loc) by (apply fl_nonneg; assumption).
    assert (N1 : fl loc <= float_of_int extent) by (apply fl_mono; assumption).
    apply fl_unit.
    + apply Qle_shift_div_l; lra.
    + apply Qle_shift_div_r; lra.
  - assert (Z0 : loc == 0).
    { apply Qle_antisym; [| assumption].
      apply Q.max_lub; [lra |].
      apply Qle_trans with (inject_Z extent); [apply Q.le_min_r |].
      change 0 with (inject_Z 0). rewrite <- Zle_Qle. assumption. }
    assert (F0 : fl loc = 0) by (rewrite (fl_Qeq _ _ Z0); reflexivity).
    assert (Q0 : fl loc / float_of_int extent == 0) by (rewrite F0; reflexivity).
    rewrite (fl_Qeq _ _ Q0). rewrite fl_0. lra.
Qed.

Lemma ratio_from_pixel_unit (coords : float * float) (info : Z * Z * Z * Z)
    (r : float * float) :
  CanvasController.ratio_from_pixel coords info = Ok r -> unit_ratio r.
Proof.
  destruct coords as [cx cy]. destruct info as [[[img_x img_y] img_w] img_h].
  unfold CanvasController.ratio_from_pixel.
  destruct (truediv _ (float_of_int img_w)) as [rx | e] eqn:X; [| discriminate].
  cbn [mbind result_bind].
  destruct (truediv _ (float_of_int img_h)) as [ry | e] eqn:Y; [| discriminate].
  cbn [mbind result_bind]. intros R. inversion R; subst. clear R.
  apply clamped_axis_unit in X. apply clamped_axis_unit in Y.
  unfold unit_ratio. simpl. tauto.
Qed.

End Anchor.

Section UIInvariant.
Context `{PIL}.
Import UIController.



(** Re-rendering the preview does not write the settings. *)
Lemma preview_settings (self : t) :
  settings (_update_watermark_preview self) = settings self.
Proof.
  unfold _update_watermark_preview.
  destruct (ImageManager.display_image _); [| reflexivity].
  destruct (WatermarkProcessor.create_watermark _ _ _); [| reflexivity].
  destruct (photo_image _); reflexivity.
Qed.


Lemma run_app (evs : list event) (ev : event) :
  run (evs ++ [ev]) = handle (run evs) ev.
Proof. unfold run. rewrite fold_left_app. reflexivity. Qed.

End UIInvariant.


(** A drag far outside the displayed image, replayed on the small
    implementation: the stored ratio is (1.0, 0.0). *)
Lemma drag_outside_is_clamped :
  anchor_ratio
    (UIController.settings
       (UIController.run (H := Reference.pil)
          [UIController.OpenImage "photo.png";
           UIController.ButtonPress 450 300;
           UIController.B1Motion 950 10 (954, 1)%Q]))
  = (1, 0)%Q.
Proof. vm_compute. reflexivity. Qed.

(* ===================================================================== *)
(** ** Percentages in floating point                                      *)
(* ===================================================================== *)

Section Percent.
Import Float FloatFacts PyFacts.
Local Open Scope Q_scope.

(** Two roundings in a row lose at most three units in the last place. *)
Lemma two_roundings (X a b : Q) :
  0 <= X ->
  X - X * u64 <= a -> a <= X + X * u64 ->
  a - a * u64 <= b -> b <= a + a * u64 ->
  X - X * (3 # 9007199254740992) <= b /\ b <= X + X * (3 # 9007199254740992).
Proof. unfold u64. intros. split; lra. Qed.

(** [size_percent / 100.0] *)
Lemma percent_factor (p : Z) :
  (1 <= p <= 100)%Z ->
  let P := inject_Z p * (1 # 100) in
  P - P * u64 <= fdiv (float_of_int p) 100 /\ fdiv (float_of_int p) 100 <= P + P * u64.
Proof.
  intros Hp P. unfold fdiv.
  assert (E : float_of_int p / 100 == P).
  { rewrite div100, (float_of_int_exact p) by lia. reflexivity. }
  rewrite (fl_Qeq _ _ E). apply fl_rel.
  pose proof (inject_Z_le 1 p ltac:(lia)) as L. change (inject_Z 1) with 1 in L.
  unfold P. lra.
Qed.

(** [bg_w * (size_percent / 100.0)] is within a thousandth of the exact
    product. *)
Lemma percent_product (W p : Z) :
  (1 <= p <= 100)%Z -> (0 <= W < 2 ^ 31)%Z ->
  let x := fmul (float_of_int W) (fdiv (float_of_int p) 100) in
  let E := inject_Z (W * p) * (1 # 100) in
  0 <= x /\ E - (1 # 1000) <= x /\ x <= E + (1 # 1000).
Proof.
  intros Hp HW x E.
  destruct (percent_factor p Hp) as [P1 P2]. cbv zeta in P1, P2.
  set (pct := fdiv (float_of_int p) 100) in *.
  assert (Ep : 1 <= inject_Z p) by (apply (inject_Z_le 1); lia).
  assert (Ep' : inject_Z p <= 100) by (apply (inject_Z_le p 100); lia).
  assert (EW0 : 0 <= inject_Z W) by (apply (inject_Z_le 0); lia).
  assert (EW1 : inject_Z W <= 2147483648) by (apply (inject_Z_le W 2147483648); lia).
  assert (Ee : E == inject_Z W * (inject_Z p * (1 # 100))).
  { unfold E. rewrite inject_Z_mult. ring. }
  assert (Ex : float_of_int W * pct == inject_Z W * pct).
  { rewrite (float_of_int_exact W) by lia. reflexivity. }
  unfold x, fmul. rewrite (fl_Qeq _ _ Ex).
  set (m := inject_Z W * pct).
  assert (M1 : E - E * u64 <= m).
  { rewrite Ee. unfold m.
    assert (inject_Z W * (inject_Z p * (1 # 100) - inject_Z p * (1 # 100) * u64)
            <= inject_Z W * pct) by (apply Qmult_le_l_nonneg; assumption).
    lra. }
  assert (M2 : m <= E + E * u64).
  { rewrite Ee. unfold m.
    assert (inject_Z W * pct
            <= inject_Z W * (inject_Z p * (1 # 100) + inject_Z p * (1 # 100) * u64))
      by (apply Qmult_le_l_nonneg; assumption).
    lra. }
  assert (E0 : 0 <= E).
  { rewrite Ee. apply Qmult_le_0_compat; lra. }
  assert (E1 : E <= 2147483648).
  { rewrite Ee.
    assert (inject_Z W * (inject_Z p * (1 # 100)) <= inject_Z W * 1)
      by (apply Qmult_le_l_nonneg; lra).
    lra. }
  destruct (Z.eq_dec W 0) as [-> | NZ].
  - assert (Z0 : m == 0) by (unfold m; change (inject_Z 0) with 0; ring).
    rewrite (fl_Qeq _ _ Z0). rewrite fl_0.
    assert (E == 0) by (unfold E; reflexivity). lra.
  - assert (EW : 1 <= inject_Z W) by (apply (inject_Z_le 1); lia).
    assert (Em : (1 # 100) <= E).
    { rewrite Ee.
      assert (1 * (inject_Z p * (1 # 100)) <= inject_Z W * (inject_Z p * (1 # 100)))
        by (apply Qmult_le_compat_r; lra).
      lra. }
    assert (Mn : (1 # 4294967296) <= m) by (unfold u64 in M1; lra).
    destruct (fl_rel m Mn) as [R1 R2].
    unfold u64 in *. repeat split; lra.
Qed.

(** Truncating that product gives the integer quotient [W * p / 100], or
    one less when the exact value is a whole number. *)
Lemma percent_product_floor (W p : Z) :
  (1 <= p <= 100)%Z -> (0 <= W < 2 ^ 31)%Z ->
  let v := py_int (fmul (float_of_int W) (fdiv (float_of_int p) 100)) in
  let n := (W * p / 100)%Z in
  (n - 1 <= v <= n)%Z /\ (0 <= v)%Z /\ ((W * p) mod 100 <> 0 -> v = n)%Z.
Proof.
  intros Hp HW v n. unfold v.
  destruct (percent_product W p Hp HW) as (X0 & X1 & X2). cbv zeta in X0, X1, X2.
  set (x := fmul (float_of_int W) (fdiv (float_of_int p) 100)) in *.
  pose proof (Z.div_mod (W * p) 100 ltac:(lia)) as DM. fold n in DM.
  pose proof (Z.mod_pos_bound (W * p) 100 ltac:(lia)) as MB.
  set (r := ((W * p) mod 100)%Z) in *.
  assert (Ee : inject_Z (W * p) * (1 # 100) == inject_Z n + inject_Z r * (1 # 100)).
  { rewrite DM, inject_Z_plus, inject_Z_mult. change (inject_Z 100) with 100. ring. }
  rewrite Ee in X1, X2.
  assert (R0 : 0 <= inject_Z r) by (apply (inject_Z_le 0); lia).
  assert (R1 : inject_Z r <= 99) by (apply (inject_Z_le r 99); lia).
  rewrite py_int_nonneg by assumption.
  pose proof (Qfloor_le x) as F1. pose proof (Qlt_floor x) as F2.
  rewrite inject_Z_plus in F2. change (inject_Z 1) with 1 in F2.
  assert (U : (Qfloor x <= n)%Z).
  { assert (inject_Z (Qfloor x) < inject_Z (n + 1)).
    { rewrite inject_Z_plus. change (inject_Z 1) with 1. lra. }
    rewrite <- Zlt_Qlt in H. lia. }
  assert (L : (n - 1 <= Qfloor x)%Z).
  { assert (inject_Z (n - 1) < inject_Z (Qfloor x + 1)).
    { rewrite inject_Z_plus, inject_Z_sub. change (inject_Z 1) with 1. lra. }
    rewrite <- Zlt_Qlt in H. lia. }
  assert (P : (0 <= Qfloor x)%Z).
  { rewrite <- (Qfloor_Z 0). apply Qfloor_resp_le. assumption. }
  split; [lia |]. split; [assumption |]. intros NZ.
  assert (R2 : 1 <= inject_Z r) by (apply (inject_Z_le 1); lia).
  assert (inject_Z n < inject_Z (Qfloor x + 1)).
  { rewrite inject_Z_plus. change (inject_Z 1) with 1. lra. }
  rewrite <- Zlt_Qlt in H. lia.
Qed.

(** The target width is that quotient, or one less, and never less than 1. *)
Lemma target_width_floor (W p : Z) :
  (1 <= p <= 100)%Z -> (0 <= W < 2 ^ 31)%Z ->
  let n := (W * p / 100)%Z in
  (Z.max 1 (n - 1) <= target_width W p <= Z.max 1 n)%Z /\
  ((W * p) mod 100 <> 0 -> target_width W p = Z.max 1 n)%Z.
Proof.
  intros Hp HW n. unfold target_width.
  destruct (percent_product_floor W p Hp HW) as (B & P & E). cbv zeta in B, P, E.
  fold n in B, E. split; [lia |]. intros NZ. rewrite (E NZ). reflexivity.
Qed.

(** The exact value rounded to nearest is the integer quotient or the next
    integer, and the quotient itself when the division is exact. *)
Lemma nearest_percent_floor (W p : Z) :
  let n := (W * p / 100)%Z in
  (n <= rne (inject_Z (W * p) / 100) <= n + 1)%Z /\
  ((W * p) mod 100 = 0 -> rne (inject_Z (W * p) / 100) = n)%Z.
Proof.
  intros n.
  pose proof (Z.div_mod (W * p) 100 ltac:(lia)) as DM. fold n in DM.
  pose proof (Z.mod_pos_bound (W * p) 100 ltac:(lia)) as MB.
  set (r := ((W * p) mod 100)%Z) in *.
  assert (Ee : inject_Z (W * p) / 100 == inject_Z n + inject_Z r * (1 # 100)).
  { rewrite div100, DM, inject_Z_plus, inject_Z_mult. change (inject_Z 100) with 100. ring. }
  rewrite (rne_int_eq _ _ Ee).
  assert (R0 : 0 <= inject_Z r) by (apply (inject_Z_le 0); lia).
  assert (R1 : inject_Z r <= 99) by (apply (inject_Z_le r 99); lia).
  split.
  - split.
    + apply rne_ge_int. lra.
    + apply rne_le_int. rewrite inject_Z_plus. change (inject_Z 1) with 1. lra.
  - intros Z0. apply rne_int. rewrite Z0. change (inject_Z 0) with 0. ring.
Qed.

End Percent.

(* ===================================================================== *)
(** ** The alpha of the text fill                                         *)
(* ===================================================================== *)

Lemma fill_alpha_opacity_0 (a : Z) : TextWatermarkRenderer.fill_alpha a 0 = 0.
Proof.
  unfold TextWatermarkRenderer.fill_alpha, fmul.
  change (fdiv (float_of_int 0) 100%Q) with 0%Q.
  assert (E : (float_of_int a * 0 == 0)%Q) by ring.
  rewrite (PyFacts.fl_Qeq _ _ E). reflexivity.
Qed.

(** C3, as the specification words it, fails: for alpha 255 at opacity 47
    the product is 119.85; the renderer draws with 119, the nearest
    integer is 120. *)
Lemma fill_alpha_truncates :
  TextWatermarkRenderer.fill_alpha 255 47 = 119 /\
  spec_fill_alpha 255 47 = 120 /\
  TextWatermarkRenderer.fill_alpha 255 47 <> spec_fill_alpha 255 47.
Proof. vm_compute. repeat split; discriminate. Qed.

(** The float product of a whole number can fall just short of it: alpha
    100 at opacity 29 is drawn with 28. *)
Lemma fill_alpha_one_below :
  TextWatermarkRenderer.fill_alpha 100 29 = 28 /\ 100 * 29 / 100 = 29.
Proof. vm_compute. split; reflexivity. Qed.

(** C3 (amended): for an alpha in [0, 255] and an opacity in [0, 100] the
    alpha used to draw the text is [a * opacity / 100] truncated toward
    zero, not rounded: it is the integer quotient, or one below it when
    the exact value is a whole number that the float product misses from
    below.  It is never above the rounded value of the specification and
    at most one below it, and it lies in [0, 255] without any clamp. *)
Theorem fill_alpha_truncated (a opacity : Z) :
  0 <= a <= 255 -> 0 <= opacity <= 100 ->
  let v := TextWatermarkRenderer.fill_alpha a opacity in
  0 <= v <= 255 /\
  (v = a * opacity / 100 \/
   (a * opacity mod 100 = 0 /\ v = a * opacity / 100 - 1)) /\
  spec_fill_alpha a opacity - 1 <= v <= spec_fill_alpha a opacity.
Proof.
  intros Ha Ho v.
  assert (Q0 : 0 <= a * opacity / 100) by (apply Z.div_pos; nia).
  assert (Q1 : a * opacity / 100 <= 255) by (apply Z.div_le_upper_bound; nia).
  destruct (nearest_percent_floor a opacity) as [SB SE]. cbv zeta in SB, SE.
  assert (S : spec_fill_alpha a opacity = Float.rne (inject_Z (a * opacity) / 100)%Q).
  { unfold spec_fill_alpha.
    assert (Float.rne (inject_Z (a * opacity) / 100)%Q <= 255).
    { apply FloatFacts.rne_le_int. rewrite PyFacts.div100.
      assert (inject_Z (a * opacity) <= inject_Z 25500)%Q by (apply PyFacts.inject_Z_le; nia).
      change (inject_Z 25500) with 25500%Q in H.
      change (inject_Z 255) with 255%Q. lra. }
    lia. }
  destruct (Z.eq_dec opacity 0) as [-> | NZ].
  - unfold v. rewrite fill_alpha_opacity_0, S, Z.mul_0_r.
    change (Float.rne (inject_Z 0 / 100)%Q) with 0. change (0 / 100) with 0.
    split; [lia |]. split; [left; reflexivity | lia].
  - destruct (percent_product_floor a opacity ltac:(lia) ltac:(lia)) as (B & P & E).
    cbv zeta in B, P, E.
    change (py_int (fmul (float_of_int a) (fdiv (float_of_int opacity) 100%Q)))
      with v in B, P, E.
    rewrite S. destruct (Z.eq_dec ((a * opacity) mod 100) 0) as [Z0 | NZ0].
    + rewrite (SE Z0). split; [lia |]. split; [| lia].
      destruct (Z.eq_dec v (a * opacity / 100)); [left; assumption | right; split; lia].
    + rewrite (E NZ0). split; [lia |]. split; [left; reflexivity | lia].
Qed.

Lemma fill_alpha_truncated_witness :
  let v := TextWatermarkRenderer.fill_alpha 100 29 in
  0 <= v <= 255 /\
  (v = 100 * 29 / 100 \/ (100 * 29 mod 100 = 0 /\ v = 100 * 29 / 100 - 1)) /\
  spec_fill_alpha 100 29 - 1 <= v <= spec_fill_alpha 100 29.
Proof. apply (fill_alpha_truncated 100 29); lia. Defined.

(* ===================================================================== *)
(** ** Opacity                                                            *)
(* ===================================================================== *)

Section Opacity.
Import Float FloatFacts PyFacts.
Local Open Scope Q_scope.

(** The factor [opacity / 100.0] grows with the opacity and stays in
    [0, 1] for an opacity in [0, 100]. *)
Lemma factor_mono (o1 o2 : Z) :
  (o1 <= o2)%Z -> fdiv (float_of_int o1) 100 <= fdiv (float_of_int o2) 100.
Proof.
  intros L. unfold fdiv, float_of_int. apply fl_mono.
  pose proof (fl_mono _ _ (inject_Z_le _ _ L)). rewrite !div100. lra.
Qed.

Lemma factor_unit (o : Z) :
  (0 <= o <= 100)%Z ->
  0 <= fdiv (float_of_int o) 100 /\ fdiv (float_of_int o) 100 <= 1.
Proof.
  intros Ho. unfold fdiv.
  assert (E : float_of_int o == inject_Z o) by (apply float_of_int_exact; lia).
  assert (L0 : 0 <= inject_Z o) by (apply (inject_Z_le 0); lia).
  assert (L1 : inject_Z o <= 100) by (apply (inject_Z_le o 100); lia).
  apply fl_unit; rewrite E, div100; lra.
Qed.


Lemma round32_mono x y : x <= y -> round binary32 x <= round binary32 y.
Proof. apply round_mono. reflexivity. Qed.

Lemma round32_int (n : Z) : (0 <= n < 2 ^ 24)%Z -> round binary32 (inject_Z n) == inject_Z n.
Proof. intros Hn. apply round_int_exact; simpl; lia. Qed.

(** On a factor in [0, 1] and an eight-bit sample, every branch of
    [blend_black] is the truncated single-precision product. *)
Lemma blend_black_product (factor : float) (v : Z) :
  0 <= factor -> factor <= 1 -> (0 <= v <= 255)%Z ->
  blend_black factor v
  = py_int (round binary32 (round binary32 factor * inject_Z v)).
Proof.
  intros F0 F1 Hv. unfold blend_black.
  set (f := round binary32 factor).
  assert (Hf0 : 0 <= f) by (apply round_nonneg; assumption).
  assert (Hf1 : f <= 1).
  { change 1 with (inject_Z 1). apply round_le_int; simpl; try lia. assumption. }
  destruct (Qeq_bool f 0) eqn:E0.
  - apply Qeq_bool_iff in E0.
    assert (P : f * inject_Z v == 0) by (rewrite E0; ring).
    rewrite (round_Qeq _ _ _ P). reflexivity.
  - destruct (Qeq_bool f 1) eqn:E1.
    + apply Qeq_bool_iff in E1.
      assert (P : f * inject_Z v == inject_Z v) by (rewrite E1; ring).
      rewrite (round_Qeq _ _ _ P).
      rewrite (py_int_Qeq _ _ (round32_int v ltac:(lia))). symmetry. apply py_int_Z.
    + apply Qle_bool_iff in Hf0. apply Qle_bool_iff in Hf1.
      rewrite Hf0, Hf1. reflexivity.
Qed.


Lemma blend_black_le (f : float) (v : Z) :
  0 <= f -> f <= 1 -> (0 <= v <= 255)%Z -> (blend_black f v <= v)%Z.
Proof.
  intros H0 H1 Hv. rewrite blend_black_product by assumption.
  assert (V0 : 0 <= inject_Z v) by (apply (inject_Z_le 0); lia).
  assert (R0 : 0 <= round binary32 f) by (apply round_nonneg; assumption).
  assert (R1 : round binary32 f <= 1).
  { change 1 with (inject_Z 1). apply round_le_int; simpl; try lia. assumption. }
  rewrite <- (py_int_Z v) at 2.
  rewrite <- (py_int_Qeq _ _ (round32_int v ltac:(lia))).
  apply py_int_mono.
  - apply round_nonneg. apply Qmult_le_0_compat; assumption.
  - apply round32_mono.
    rewrite <- (Qmult_1_l (inject_Z v)) at 2. apply Qmult_le_compat_r; assumption.
Qed.

Lemma alpha_at_putalpha (img : Image) (band : Band) (x y : Z) :
  alpha_at (putalpha img band) x y = band_get band x y.
Proof.
  unfold alpha_at, putalpha. simpl.
  destruct (getpixel img x y) as [[[r g] b] a]. reflexivity.
Qed.

Lemma apply_opacity_alpha (wm : Image) (o : Z) (x y : Z) :
  alpha_at (ImageWatermarkRenderer.apply_opacity wm o) x y
  = if (o <? 100)%Z then blend_black (fdiv (float_of_int o) 100) (alpha_at wm x y)
    else alpha_at wm x y.
Proof.
  unfold ImageWatermarkRenderer.apply_opacity.
  destruct (o <? 100)%Z; [| reflexivity].
  rewrite alpha_at_putalpha. reflexivity.
Qed.


End Opacity.


Section Sprites.
Context `{PIL}.


(** With a rotation that is a multiple of 360 the renderers return the
    sprite as it stands before the rotation test. *)
Lemma text_render_unrotated (bg : Z * Z) (s : WatermarkSettings) :
  rotation s mod 360 = 0 ->
  TextWatermarkRenderer.render bg s = TextWatermarkRenderer.render_scaled bg s.
Proof.
  intros E. unfold TextWatermarkRenderer.render. rewrite E. simpl.
  destruct (TextWatermarkRenderer.render_scaled bg s); reflexivity.
Qed.


End Sprites.






(* ===================================================================== *)
(** ** Widths                                                             *)
(* ===================================================================== *)

Section Widths.
Import Float FloatFacts PyFacts.
Local Open Scope Q_scope.

(** [A * (t / float(w))]: the product that gives a new extent. *)
Lemma scale_product (A t w : Z) :
  (1 <= A < 2 ^ 53)%Z -> (1 <= t < 2 ^ 31)%Z -> (1 <= w < 2 ^ 31)%Z ->
  let prod := fmul (float_of_int A) (fdiv (float_of_int t) (float_of_int w)) in
  let X := inject_Z A * (inject_Z t / inject_Z w) in
  0 < X /\
  X - X * (3 # 9007199254740992) <= prod /\ prod <= X + X * (3 # 9007199254740992).
Proof.
  intros HA Ht Hw prod X.
  assert (EA : 1 <= inject_Z A) by (apply (inject_Z_le 1); lia).
  assert (Et : 1 <= inject_Z t) by (apply (inject_Z_le 1); lia).
  assert (Ew : 1 <= inject_Z w) by (apply (inject_Z_le 1); lia).
  assert (Ew' : inject_Z w <= 2147483648) by (apply (inject_Z_le w 2147483648); lia).
  set (d := inject_Z t / inject_Z w) in *.
  assert (Dn : (1 # 2147483648) <= d).
  { unfold d. apply Qle_shift_div_l; lra. }
  assert (Eq : float_of_int t / float_of_int w == d).
  { unfold d. rewrite (float_of_int_exact t), (float_of_int_exact w) by lia. reflexivity. }
  destruct (fl_rel d ltac:(lra)) as [Q1 Q2].
  set (q := fl d) in *.
  assert (Ep : float_of_int A * fdiv (float_of_int t) (float_of_int w) == inject_Z A * q).
  { unfold fdiv. rewrite (fl_Qeq _ _ Eq). fold q.
    rewrite (float_of_int_exact A) by lia. reflexivity. }
  unfold prod, fmul. rewrite (fl_Qeq _ _ Ep).
  set (m := inject_Z A * q).
  assert (X0 : (1 # 2147483648) <= X).
  { unfold X. assert (1 * d <= inject_Z A * d) by (apply Qmult_le_compat_r; lra). lra. }
  assert (M1 : X - X * u64 <= m).
  { unfold X, m.
    assert (inject_Z A * (d - d * u64) <= inject_Z A * q)
      by (apply Qmult_le_l_nonneg; lra).
    lra. }
  assert (M2 : m <= X + X * u64).
  { unfold X, m.
    assert (inject_Z A * q <= inject_Z A * (d + d * u64))
      by (apply Qmult_le_l_nonneg; lra).
    lra. }
  assert (Mn : (1 # 4294967296) <= m) by (unfold u64 in M1; lra).
  destruct (fl_rel m Mn) as [R1 R2].
  split; [lra |]. apply (two_roundings X m); try assumption. lra.
Qed.

(** A value within a thousandth of a whole number [t >= 1] truncates to
    [t] or [t - 1]. *)
Lemma py_int_near (x : Q) (t : Z) :
  (1 <= t)%Z -> inject_Z t - (1 # 1000) <= x -> x <= inject_Z t + (1 # 1000) ->
  (t - 1 <= py_int x <= t)%Z.
Proof.
  intros Ht L U.
  assert (T1 : 1 <= inject_Z t) by (apply (inject_Z_le 1); lia).
  rewrite py_int_nonneg by lra.
  pose proof (Qfloor_le x) as F1. pose proof (Qlt_floor x) as F2.
  rewrite inject_Z_plus in F2. change (inject_Z 1) with 1 in F2.
  assert (inject_Z (Qfloor x) < inject_Z (t + 1)).
  { rewrite inject_Z_plus. change (inject_Z 1) with 1. lra. }
  assert (inject_Z (t - 1) < inject_Z (Qfloor x + 1)).
  { rewrite inject_Z_plus, inject_Z_sub. change (inject_Z 1) with 1. lra. }
  rewrite <- Zlt_Qlt in H, H0. lia.
Qed.

(** Width of the image sprite: the target or one pixel less. *)
Lemma image_new_width (t w : Z) :
  (1 <= t < 2 ^ 31)%Z -> (1 <= w < 2 ^ 31)%Z ->
  let new_w := Z.max 1 (py_int (fmul (float_of_int w)
                                  (fdiv (float_of_int t) (float_of_int w)))) in
  (t - 1 <= new_w <= t)%Z /\ (1 <= new_w)%Z.
Proof.
  intros Ht Hw new_w.
  destruct (scale_product w t w ltac:(lia) Ht Hw) as (X0 & P1 & P2).
  cbv zeta in X0, P1, P2.
  assert (Ew : 1 <= inject_Z w) by (apply (inject_Z_le 1); lia).
  assert (EX : inject_Z w * (inject_Z t / inject_Z w) == inject_Z t) by (field; lra).
  rewrite EX in X0, P1, P2.
  assert (Et : inject_Z t <= 2147483648) by (apply (inject_Z_le t 2147483648); lia).
  set (prod := fmul (float_of_int w) (fdiv (float_of_int t) (float_of_int w))) in *.
  assert (B : (t - 1 <= py_int prod <= t)%Z) by (apply py_int_near; [lia | lra | lra]).
  unfold new_w. lia.
Qed.

(** Width of the text sprite: within two pixels of the padded text width
    scaled by target / text width. *)
Lemma text_new_width (t tw : Z) :
  (1 <= t < 2 ^ 31)%Z -> (1 <= tw < 2 ^ 31)%Z ->
  let new_w := Z.max 1 (py_int (fmul (float_of_int (tw + 20 * 2))
                                  (fdiv (float_of_int t) (float_of_int tw)))) in
  let X := inject_Z (tw + 40) * (inject_Z t / inject_Z tw) in
  X - 2 < inject_Z new_w /\ inject_Z new_w < X + 1.
Proof.
  intros Ht Hw. cbv zeta. change (20 * 2)%Z with 40%Z.
  destruct (scale_product (tw + 40) t tw ltac:(lia) Ht Hw) as (X0 & P1 & P2).
  cbv zeta in X0, P1, P2.
  set (X := inject_Z (tw + 40) * (inject_Z t / inject_Z tw)) in *.
  set (prod := fmul (float_of_int (tw + 40)) (fdiv (float_of_int t) (float_of_int tw))) in *.
  assert (Ew : 1 <= inject_Z tw) by (apply (inject_Z_le 1); lia).
  assert (Et : 1 <= inject_Z t) by (apply (inject_Z_le 1); lia).
  assert (Et' : inject_Z t <= 2147483648) by (apply (inject_Z_le t 2147483648); lia).
  assert (XU : X <= 41 * inject_Z t).
  { unfold X. rewrite inject_Z_plus. change (inject_Z 40) with 40.
    assert (D : inject_Z t / inject_Z tw <= inject_Z t) by (apply Qle_shift_div_r; nra).
    assert (D0 : 0 <= inject_Z t / inject_Z tw) by (apply Qle_shift_div_l; lra).
    assert (E : (inject_Z tw + 40) * (inject_Z t / inject_Z tw)
                == inject_Z t + 40 * (inject_Z t / inject_Z tw)) by (field; lra).
    rewrite E. lra. }
  assert (XL : 1 <= X).
  { unfold X. rewrite inject_Z_plus. change (inject_Z 40) with 40.
    assert (E : (inject_Z tw + 40) * (inject_Z t / inject_Z tw)
                == inject_Z t + 40 * (inject_Z t / inject_Z tw)) by (field; lra).
    assert (D0 : 0 <= inject_Z t / inject_Z tw) by (apply Qle_shift_div_l; lra).
    rewrite E. lra. }
  assert (P0 : 0 <= prod) by lra.
  pose proof (Qfloor_le prod) as F1. pose proof (Qlt_floor prod) as F2.
  rewrite inject_Z_plus in F2. change (inject_Z 1) with 1 in F2.
  rewrite py_int_nonneg by assumption.
  destruct (Z.max_spec 1 (Qfloor prod)) as [[C ->] | [C ->]].
  - split; lra.
  - assert (inject_Z (Qfloor prod) <= 1) by (apply (inject_Z_le _ 1); lia).
    change (inject_Z 1) with 1. split; lra.
Qed.

End Widths.

Section SpriteWidth.
Context `{PIL}.
Import PyFacts.

Lemma target_width_range (W p : Z) :
  1 <= p <= 100 -> 0 <= W < 2 ^ 31 -> 1 <= target_width W p < 2 ^ 31.
Proof.
  intros Hp HW. destruct (target_width_floor W p Hp HW) as [[L U] _].
  assert (W * p / 100 <= W).
  { apply Z.div_le_upper_bound; nia. }
  lia.
Qed.

(** The target width is within one pixel of the rounded value. *)
Lemma target_width_near_rounded (W p : Z) :
  1 <= p <= 100 -> 0 <= W < 2 ^ 31 ->
  Z.abs (target_width W p - spec_width W p) <= 1.
Proof.
  intros Hp HW.
  destruct (target_width_floor W p Hp HW) as [TB TE]. cbv zeta in TB, TE.
  destruct (nearest_percent_floor W p) as [SB SE]. cbv zeta in SB, SE.
  fold (spec_width W p) in SB, SE.
  assert (N0 : 0 <= W * p / 100) by (apply Z.div_pos; nia).
  destruct (Z.eq_dec ((W * p) mod 100) 0) as [Z0 | NZ].
  - rewrite (SE Z0). lia.
  - rewrite (TE NZ). lia.
Qed.

Lemma apply_opacity_width (wm : Image) (o : Z) :
  width (ImageWatermarkRenderer.apply_opacity wm o) = width wm.
Proof.
  unfold ImageWatermarkRenderer.apply_opacity. destruct (o <? 100); reflexivity.
Qed.

(** The image renderer scales the asset to the target width, give or take
    the pixel lost by truncation. *)
Lemma image_sprite_width (self : ImageWatermarkRenderer.t) (asset : Image)
    (W Hb : Z) (s : WatermarkSettings) :
  ImageWatermarkRenderer.watermark_image self = Some asset ->
  1 <= width asset < 2 ^ 31 ->
  1 <= size_percent s <= 100 -> 0 <= W < 2 ^ 31 ->
  exists sprite,
    ImageWatermarkRenderer.render_unrotated self (W, Hb) s = Ok sprite /\
    target_width W (size_percent s) - 1 <= width sprite <= target_width W (size_percent s) /\
    1 <= width sprite.
Proof.
  intros Ha Hw Hp HW.
  unfold ImageWatermarkRenderer.render_unrotated. rewrite Ha.
  unfold ImageWatermarkRenderer.scale_watermark.
  rewrite truediv_ok by lia. cbn [mbind result_bind].
  eexists. split; [reflexivity |].
  rewrite apply_opacity_width. simpl width.
  apply image_new_width; [apply target_width_range; assumption | assumption].
Qed.

(** The text renderer scales the text, not the sprite, to the target
    width: the sprite carries the padding scaled by the same factor. *)
Lemma text_sprite_width (W Hb : Z) (s : WatermarkSettings) :
  let text_w :=
    fst (TextWatermarkRenderer.logical_size
           (TextWatermarkRenderer._measure_text (text s)
              (TextWatermarkRenderer._get_font (font_path s) (font_size s)))) in
  1 <= text_w < 2 ^ 31 ->
  1 <= size_percent s <= 100 -> 0 <= W < 2 ^ 31 ->
  exists sprite,
    TextWatermarkRenderer.render_scaled (W, Hb) s = Ok sprite /\
    let X := (inject_Z (text_w + 40)
              * (inject_Z (target_width W (size_percent s)) / inject_Z text_w))%Q in
    (X - 2 < inject_Z (width sprite))%Q /\ (inject_Z (width sprite) < X + 1)%Q.
Proof.
  intros text_w Hw Hp HW. unfold TextWatermarkRenderer.render_scaled.
  subst text_w.
  destruct (TextWatermarkRenderer.logical_size _) as [text_w text_h]. simpl in Hw.
  destruct (text_color s) as [[[r g] b] a].
  unfold TextWatermarkRenderer._scale_image.
  rewrite truediv_ok by lia. cbn [mbind result_bind].
  eexists. split; [reflexivity |]. cbn [fst]. simpl width.
  apply text_new_width; [apply target_width_range; assumption | assumption].
Qed.

(** Whenever the target is at least a tenth of the measured text width,
    the text sprite is more than one pixel wider than the rounded value,
    whatever the font. *)
Lemma text_sprite_exceeds_rounded_width (W Hb : Z) (s : WatermarkSettings) :
  let text_w :=
    fst (TextWatermarkRenderer.logical_size
           (TextWatermarkRenderer._measure_text (text s)
              (TextWatermarkRenderer._get_font (font_path s) (font_size s)))) in
  1 <= text_w < 2 ^ 31 ->
  1 <= size_percent s <= 100 -> 0 <= W < 2 ^ 31 ->
  text_w <= 10 * target_width W (size_percent s) ->
  exists sprite,
    TextWatermarkRenderer.render_scaled (W, Hb) s = Ok sprite /\
    spec_width W (size_percent s) + 1 < width sprite.
Proof.
  intros text_w Hw Hp HW Hbig.
  destruct (text_sprite_width W Hb s Hw Hp HW) as (sprite & R & B1 & _).
  fold text_w in B1.
  pose proof (target_width_near_rounded W (size_percent s) Hp HW) as N.
  pose proof (target_width_range W (size_percent s) Hp HW) as TR.
  set (t := target_width W (size_percent s)) in *.
  exists sprite. split; [assumption |].
  assert (Ew : (1 <= inject_Z text_w)%Q) by (apply (inject_Z_le 1); lia).
  assert (Eb : (inject_Z text_w <= 10 * inject_Z t)%Q).
  { change 10%Q with (inject_Z 10). rewrite <- inject_Z_mult. apply inject_Z_le. lia. }
  assert (D : ((1 # 10) <= inject_Z t / inject_Z text_w)%Q).
  { apply Qle_shift_div_l; lra. }
  assert (E : (inject_Z (text_w + 40) * (inject_Z t / inject_Z text_w)
               == inject_Z t + 40 * (inject_Z t / inject_Z text_w))%Q).
  { rewrite inject_Z_plus. change (inject_Z 40) with 40%Q. field. lra. }
  rewrite E in B1.
  assert (L : (inject_Z (t + 2) < inject_Z (width sprite))%Q).
  { rewrite inject_Z_plus. change (inject_Z 2) with 2%Q. lra. }
  rewrite <- Zlt_Qlt in L. lia.
Qed.

End SpriteWidth.

(** C1, as the specification words it, fails.  Text renderer, on the small
    implementation: background 1000 wide at 20 percent, "Sample
    Watermark" measured 160 wide; the target is 200 and the sprite is 250
    wide, the 200 canvas pixels (text plus padding) scaled by 200/160. *)
Lemma text_sprite_wider_than_target :
  exists sprite,
    TextWatermarkRenderer.render_scaled (H := Reference.pil) (1000, 800) default_settings
      = Ok sprite /\
    width sprite = 250 /\ spec_width 1000 (size_percent default_settings) = 200 /\
    ~ Z.abs (width sprite - spec_width 1000 (size_percent default_settings)) <= 1.
Proof.
  eexists. split; [vm_compute; reflexivity |].
  split; [reflexivity |]. split; [reflexivity |]. vm_compute. intros C. apply C. reflexivity.
Qed.

(** Image renderer: background 100 wide at 29 percent and an asset 55
    wide give a sprite 27 wide, two pixels short of round(29). *)
Lemma image_sprite_two_pixels_short :
  exists sprite,
    ImageWatermarkRenderer.render_unrotated (H := Reference.pil)
      (ImageWatermarkRenderer.mk (Some (mkImage 55 10 (fun _ _ => (9, 9, 9, 255)))))
      (100, 50) (set_size_percent default_settings 29) = Ok sprite /\
    width sprite = 27 /\ target_width 100 29 = 28 /\ spec_width 100 29 = 29.
Proof.
  eexists. split; [vm_compute; reflexivity |]. repeat split; reflexivity.
Qed.

(** C1 (amended): for a size percent in [1, 100] and a background width
    below 2^31, the target width [max(1, int(W * p / 100.0))] is within one
    pixel of [round(W * p / 100)].  The image renderer, with an asset at
    least one pixel wide, returns before rotation a sprite as wide as the
    target or one pixel narrower, hence within two pixels of the rounded
    value.  The text renderer scales the measured text to the target: its
    sprite, which includes the padding, is within two pixels of
    [target * (text_w + 40) / text_w]. *)
Theorem sprite_width_follows_target `{PIL} (W Hb p : Z) :
  1 <= p <= 100 -> 0 <= W < 2 ^ 31 ->
  Z.abs (target_width W p - spec_width W p) <= 1 /\
  (forall self asset s,
      ImageWatermarkRenderer.watermark_image self = Some asset ->
      1 <= width asset < 2 ^ 31 -> size_percent s = p ->
      exists sprite,
        ImageWatermarkRenderer.render_unrotated self (W, Hb) s = Ok sprite /\
        target_width W p - 1 <= width sprite <= target_width W p /\
        Z.abs (width sprite - spec_width W p) <= 2) /\
  (forall s,
      let text_w :=
        fst (TextWatermarkRenderer.logical_size
               (TextWatermarkRenderer._measure_text (text s)
                  (TextWatermarkRenderer._get_font (font_path s) (font_size s)))) in
      1 <= text_w < 2 ^ 31 -> size_percent s = p ->
      exists sprite,
        TextWatermarkRenderer.render_scaled (W, Hb) s = Ok sprite /\
        let X := (inject_Z (text_w + 40)
                  * (inject_Z (target_width W p) / inject_Z text_w))%Q in
        (X - 2 < inject_Z (width sprite))%Q /\ (inject_Z (width sprite) < X + 1)%Q).
Proof.
  intros Hp HW.
  destruct (target_width_floor W p Hp HW) as [TB TE]. cbv zeta in TB, TE.
  destruct (nearest_percent_floor W p) as [SB SE]. cbv zeta in SB, SE.
  fold (spec_width W p) in SB, SE.
  assert (N0 : 0 <= W * p / 100) by (apply Z.div_pos; nia).
  split; [| split].
  - apply target_width_near_rounded; assumption.
  - intros self asset s Ha Hw Hs.
    destruct (image_sprite_width self asset W Hb s Ha Hw ltac:(lia) HW)
      as (sprite & R & B & P).
    rewrite Hs in B. exists sprite. split; [assumption |]. split; [assumption |].
    destruct (Z.eq_dec ((W * p) mod 100) 0) as [Z0 | NZ].
    + rewrite (SE Z0). lia.
    + rewrite (TE NZ) in B. lia.
  - intros s text_w Hw Hs.
    destruct (text_sprite_width W Hb s Hw ltac:(lia) HW) as (sprite & R & B).
    rewrite Hs in B. exists sprite. split; assumption.
Qed.

Lemma sprite_width_follows_target_witness :
  Z.abs (target_width 100 29 - spec_width 100 29) <= 1 /\
  (exists sprite,
      ImageWatermarkRenderer.render_unrotated (H := Reference.pil)
        (ImageWatermarkRenderer.mk (Some Reference.photo)) (100, 50)
        (set_size_percent default_settings 29) = Ok sprite /\
      target_width 100 29 - 1 <= width sprite <= target_width 100 29 /\
      Z.abs (width sprite - spec_width 100 29) <= 2).
Proof.
  destruct (sprite_width_follows_target (H := Reference.pil) 100 50 29
              ltac:(lia) ltac:(lia)) as (T & I & _).
  split; [exact T |].
  apply (I (ImageWatermarkRenderer.mk (Some Reference.photo)) Reference.photo
           (set_size_percent default_settings 29)); [reflexivity | simpl; lia | reflexivity].
Defined.

(* ===================================================================== *)
(** ** From a ratio to a pixel and back                                   *)
(* ===================================================================== *)

Section RoundTrip.
Import Float FloatFacts PyFacts.
Local Open Scope Q_scope.

Lemma eta_small : 0 < pow2 (-1075) /\ pow2 (-1075) <= (1 # 1152921504606846976).
Proof.
  split; [apply pow2_pos |]. apply Qle_bool_iff. vm_compute. reflexivity.
Qed.

(** One axis: the ratio read back is at most one pixel below the ratio
    given, and above it by float rounding only. *)
Lemma axis_round_trip (r : float) (w : Z) :
  0 <= r -> r <= 1 -> (1 <= w < 2 ^ 31)%Z ->
  let c := py_int (fmul r (float_of_int w)) in
  exists r',
    truediv (fl (Qmax 0 (Qmin (fsub (float_of_int c) (float_of_int 0)) (inject_Z w))))
            (float_of_int w) = Ok r' /\
    (0 <= c <= w)%Z /\
    r - 1 / inject_Z w - (1 # 1125899906842624) <= r' /\
    r' <= r + (1 # 1125899906842624).
Proof.
  intros R0 R1 Hw c.
  assert (W1 : 1 <= inject_Z w) by (apply (inject_Z_le 1); lia).
  assert (W2 : inject_Z w <= 2147483648) by (apply (inject_Z_le w 2147483648); lia).
  assert (Ew : float_of_int w == inject_Z w) by (apply float_of_int_exact; lia).
  (* the pixel *)
  set (y := fmul r (float_of_int w)) in *.
  assert (Ey : r * float_of_int w == r * inject_Z w) by (rewrite Ew; reflexivity).
  assert (P0 : 0 <= r * inject_Z w) by (apply Qmult_le_0_compat; lra).
  assert (P1 : r * inject_Z w <= inject_Z w).
  { rewrite <- (Qmult_1_l (inject_Z w)) at 2. apply Qmult_le_compat_r; lra. }
  assert (Y0 : 0 <= y) by (unfold y, fmul; apply fl_nonneg; rewrite Ey; assumption).
  assert (Y1 : y <= inject_Z w).
  { unfold y, fmul. rewrite (fl_Qeq _ _ Ey). apply fl_le_int; [lia | assumption]. }
  destruct (fl_abs (r * inject_Z w) P0) as [A1 A2].
  rewrite <- (fl_Qeq _ _ Ey) in A1, A2. fold (fmul r (float_of_int w)) in A1, A2.
  fold y in A1, A2.
  destruct eta_small as [H0 H1]. set (eta := pow2 (-1075)) in *.
  assert (C : c = Qfloor y) by (apply py_int_nonneg; assumption).
  pose proof (Qfloor_le y) as F1. pose proof (Qlt_floor y) as F2.
  rewrite inject_Z_plus in F2. change (inject_Z 1) with 1 in F2. rewrite <- C in F1, F2.
  assert (Cb : (0 <= c <= w)%Z).
  { split.
    - rewrite C, <- (Qfloor_Z 0). apply Qfloor_resp_le. assumption.
    - rewrite Zle_Qle. lra. }
  assert (C0 : 0 <= inject_Z c) by (apply (inject_Z_le 0); lia).
  assert (C1 : inject_Z c <= inject_Z w) by (apply inject_Z_le; lia).
  (* reading the pixel back *)
  assert (Ec : float_of_int c == inject_Z c) by (apply float_of_int_exact; lia).
  assert (Ed : float_of_int c - float_of_int 0 == inject_Z c).
  { rewrite Ec. change (float_of_int 0) with 0. ring. }
  assert (Dv : fsub (float_of_int c) (float_of_int 0) == inject_Z c).
  { unfold fsub. rewrite (fl_Qeq _ _ Ed). apply fl_int. lia. }
  assert (Lv : Qmax 0 (Qmin (fsub (float_of_int c) (float_of_int 0)) (inject_Z w))
               == inject_Z c).
  { rewrite Dv. rewrite Q.min_l by assumption. apply Q.max_r. assumption. }
  assert (Nv : fl (Qmax 0 (Qmin (fsub (float_of_int c) (float_of_int 0)) (inject_Z w)))
               == inject_Z c).
  { rewrite (fl_Qeq _ _ Lv). apply fl_int. lia. }
  rewrite truediv_ok by lia. unfold fdiv.
  set (i := 1 / inject_Z w).
  assert (I0 : 0 < i) by (unfold i; apply Qlt_shift_div_l; lra).
  assert (I1 : i <= 1) by (unfold i; apply Qle_shift_div_r; lra).
  assert (Wi : inject_Z w * i == 1) by (unfold i; field; lra).
  assert (Eq : fl (Qmax 0 (Qmin (fsub (float_of_int c) (float_of_int 0)) (inject_Z w)))
               / float_of_int w == inject_Z c * i).
  { rewrite Nv, Ew. unfold i. field. lra. }
  rewrite (fl_Qeq _ _ Eq).
  set (k := inject_Z c * i).
  assert (K0 : 0 <= k) by (apply Qmult_le_0_compat; lra).
  (* the inequalities on pixels, scaled to ratios *)
  set (z := y * i).
  assert (Z1 : k <= z) by (apply Qmult_le_compat_r; lra).
  assert (Z2 : z <= k + i).
  { assert (y * i <= (inject_Z c + 1) * i) by (apply Qmult_le_compat_r; lra).
    unfold z, k. lra. }
  assert (Z3 : z <= r + r * u64 + eta * i).
  { assert (y * i <= (r * inject_Z w + (r * inject_Z w * u64 + eta)) * i)
      by (apply Qmult_le_compat_r; lra).
    assert ((r * inject_Z w + (r * inject_Z w * u64 + eta)) * i
            == r * (inject_Z w * i) + r * (inject_Z w * i) * u64 + eta * i) by ring.
    rewrite Wi in H2. unfold z. lra. }
  assert (Z4 : r - r * u64 - eta * i <= z).
  { assert ((r * inject_Z w - (r * inject_Z w * u64 + eta)) * i <= y * i)
      by (apply Qmult_le_compat_r; lra).
    assert ((r * inject_Z w - (r * inject_Z w * u64 + eta)) * i
            == r * (inject_Z w * i) - r * (inject_Z w * i) * u64 - eta * i) by ring.
    rewrite Wi in H2. unfold z. lra. }
  assert (EI : 0 <= eta * i /\ eta * i <= eta).
  { split; [apply Qmult_le_0_compat; lra |].
    rewrite <- (Qmult_1_r eta) at 2. apply Qmult_le_l_nonneg; lra. }
  destruct EI as [EI0 EI1].
  set (ei := eta * i) in *.
  (* the rounding of the quotient *)
  assert (Rk : k - k * u64 <= fl k /\ fl k <= k + k * u64).
  { destruct (Z.eq_dec c 0) as [Zc | NZc].
    - assert (K : k == 0) by (unfold k; rewrite Zc; change (inject_Z 0) with 0; ring).
      rewrite (fl_Qeq _ _ K), fl_0, K. split; [| rewrite Qmult_0_l]; lra.
    - apply fl_rel.
      assert (1 <= inject_Z c) by (apply (inject_Z_le 1); lia).
      assert (1 * i <= inject_Z c * i) by (apply Qmult_le_compat_r; lra).
      assert ((1 # 2147483648) <= i).
      { unfold i. apply Qle_shift_div_l; lra. }
      unfold k. lra. }
  destruct Rk as [Rk1 Rk2].
  exists (fl k). split; [reflexivity |]. split; [assumption |].
  fold i. unfold u64 in *. split; lra.
Qed.

End RoundTrip.

(** C4, as the specification words it, fails: the pixel centre is
    truncated to a whole pixel.  For the ratio (0.5, 0.5) in a 3x3
    container the centre is pixel (1, 1), which reads back as the float
    nearest to 1/3, more than a tenth away from 0.5. *)
Lemma round_trip_loses_a_pixel :
  exists ratio,
    round_trip (1 # 2, 1 # 2)%Q (3, 3) = Ok ratio /\
    WatermarkProcessor.placement_center (1 # 2, 1 # 2)%Q (3, 3) = (1, 1) /\
    ((1 # 10) < (1 # 2) - fst ratio)%Q /\ ((1 # 10) < (1 # 2) - snd ratio)%Q.
Proof.
  eexists. split; [vm_compute; reflexivity |]. split; [reflexivity |].
  split; reflexivity.
Qed.

(** C4 (amended): for a ratio in the unit square and a container of
    positive size (below 2^31 per axis), the round trip returns a ratio of
    the unit square that is at most one pixel, 1/size, below the ratio
    given and above it by float tolerance only (2^-50), on each axis. *)
Theorem round_trip_within_a_pixel (ratio : float * float) (w h : Z) :
  unit_ratio ratio -> 1 <= w < 2 ^ 31 -> 1 <= h < 2 ^ 31 ->
  exists back,
    round_trip ratio (w, h) = Ok back /\
    unit_ratio back /\
    (fst ratio - 1 / inject_Z w - (1 # 1125899906842624) <= fst back)%Q /\
    (fst back <= fst ratio + (1 # 1125899906842624))%Q /\
    (snd ratio - 1 / inject_Z h - (1 # 1125899906842624) <= snd back)%Q /\
    (snd back <= snd ratio + (1 # 1125899906842624))%Q.
Proof.
  intros (X0 & X1 & Y0 & Y1) Hw Hh. destruct ratio as [rx ry]. simpl in *.
  destruct (axis_round_trip rx w X0 X1 Hw) as (bx & Ex & _ & Lx & Ux).
  destruct (axis_round_trip ry h Y0 Y1 Hh) as (by_ & Ey & _ & Ly & Uy).
  assert (R : round_trip (rx, ry) (w, h) = Ok (bx, by_)).
  { unfold round_trip, WatermarkProcessor.placement_center,
      CanvasController.ratio_from_pixel. cbn [fst snd].
    rewrite Ex. cbn [mbind result_bind]. rewrite Ey. reflexivity. }
  exists (bx, by_). split; [exact R |].
  split; [apply (ratio_from_pixel_unit _ _ _ R) |]. simpl. tauto.
Qed.

Lemma round_trip_within_a_pixel_witness :
  exists back,
    round_trip (1 # 2, 1 # 2)%Q (3, 3) = Ok back /\
    unit_ratio back /\
    ((1 # 2) - 1 / inject_Z 3 - (1 # 1125899906842624) <= fst back)%Q /\
    (fst back <= (1 # 2) + (1 # 1125899906842624))%Q /\
    ((1 # 2) - 1 / inject_Z 3 - (1 # 1125899906842624) <= snd back)%Q /\
    (snd back <= (1 # 2) + (1 # 1125899906842624))%Q.
Proof.
  apply (round_trip_within_a_pixel (1 # 2, 1 # 2)%Q 3 3); [| lia | lia].
  unfold unit_ratio. simpl. repeat split; discriminate.
Defined.

(* ===================================================================== *)
(** ** Further properties of the renderers                                *)
(* ===================================================================== *)

Section MoreArithmetic.
Import Float FloatFacts PyFacts.
Local Open Scope Q_scope.

(** Half-integers of moderate size are floats. *)
Lemma fl_half_int (n : Z) : (Z.abs n < 2 ^ 53)%Z -> fl (inject_Z n / 2) == inject_Z n / 2.
Proof.
  intros Hn.
  assert (P : forall m, (0 < m < 2 ^ 53)%Z -> fl (inject_Z m / 2) == inject_Z m / 2).
  { intros m Hm. unfold fl.
    assert (M0 : 0 < inject_Z m) by (apply (Qlt_le_trans _ 1); [lra | apply (inject_Z_le 1); lia]).
    rewrite round_gt0 by (apply Qlt_shift_div_l; lra).
    rewrite <- (Qred_correct (inject_Z m / 2)) at 2.
    apply round_pos_fixed with (m := m) (e := (-1)%Z); simpl; try lia.
    rewrite Qred_correct. reflexivity. }
  destruct (Z_dec n 0) as [[N | G] | ->].
  - assert (E : inject_Z n / 2 == - (inject_Z (- n) / 2)).
    { rewrite inject_Z_opp. field. }
    unfold fl in *. rewrite (round_Qeq _ _ _ E), round_opp, P by lia.
    symmetry. exact E.
  - apply P. lia.
  - reflexivity.
Qed.

(** [int(n / 2)] for an integer [n]: the quotient truncated toward zero. *)
Lemma py_int_half (n : Z) : py_int (inject_Z n / 2) = Z.quot n 2.
Proof.
  unfold py_int.
  assert (E : inject_Z n / 2 == n # 2).
  { unfold inject_Z, Qdiv, Qmult, Qinv, Qeq. simpl. lia. }
  destruct (Qle_bool 0 (inject_Z n / 2)) eqn:S.
  - apply Qle_bool_iff in S. rewrite (Qfloor_comp _ _ E).
    assert (0 <= n)%Z.
    { rewrite E in S. unfold Qle in S. simpl in S. lia. }
    unfold Qfloor. simpl. rewrite Z.quot_div_nonneg by lia. reflexivity.
  - assert (N : (n < 0)%Z).
    { destruct (Z_lt_le_dec n 0) as [L | G]; [assumption |].
      assert (C : 0 <= inject_Z n / 2).
      { rewrite E. unfold Qle. simpl. lia. }
      apply Qle_bool_iff in C. congruence. }
    rewrite (Qceiling_comp _ _ E). unfold Qceiling, Qfloor. simpl.
    rewrite <- (Z.opp_involutive n) at 2. rewrite Z.quot_opp_l by lia.
    rewrite Z.quot_div_nonneg by lia. reflexivity.
Qed.

(** A product of two float factors grows with both, from zero up. *)
Lemma fmul_mono (a1 a2 b1 b2 : float) :
  0 <= a1 -> a1 <= a2 -> 0 <= b1 -> b1 <= b2 -> fmul a1 b1 <= fmul a2 b2.
Proof.
  intros A0 A B0 B. unfold fmul. apply fl_mono.
  apply Qle_trans with (a2 * b1).
  - apply Qmult_le_compat_r; assumption.
  - apply Qmult_le_l_nonneg; [lra | assumption].
Qed.

Lemma float_of_int_mono (a b : Z) : (a <= b)%Z -> float_of_int a <= float_of_int b.
Proof. intros L. apply fl_mono, inject_Z_le, L. Qed.

Lemma float_of_int_nonneg (a : Z) : (0 <= a)%Z -> 0 <= float_of_int a.
Proof. intros L. apply fl_nonneg, (inject_Z_le 0), L. Qed.

Lemma factor_nonneg (p : Z) : (0 <= p)%Z -> 0 <= fdiv (float_of_int p) 100.
Proof.
  intros Hp. unfold fdiv. apply fl_nonneg.
  pose proof (float_of_int_nonneg p Hp). rewrite div100. lra.
Qed.

Lemma factor_100 : fdiv (float_of_int 100) 100 = 1.
Proof. vm_compute. reflexivity. Qed.

End MoreArithmetic.

(** X1: the target width [max(1, int(bg_w * (size_percent / 100.0)))] is at
    least one pixel and never shrinks when the background gets wider or
    the percentage larger; at 100 percent it is the background width
    itself. *)
Theorem target_width_monotone (W1 W2 p1 p2 : Z) :
  0 <= W1 <= W2 -> 0 <= p1 <= p2 ->
  1 <= target_width W1 p1 <= target_width W2 p2 /\
  (W2 < 2 ^ 53 -> target_width W2 100 = Z.max 1 W2).
Proof.
  intros HW Hp. split.
  - unfold target_width. split; [lia |].
    apply Z.max_le_compat_l. apply PyFacts.py_int_mono.
    + apply PyFacts.fl_nonneg. apply Qmult_le_0_compat;
        [apply float_of_int_nonneg | apply factor_nonneg]; lia.
    + apply fmul_mono;
        [apply float_of_int_nonneg | apply float_of_int_mono
         | apply factor_nonneg | apply factor_mono]; lia.
  - intros HB. unfold target_width. rewrite factor_100. unfold fmul.
    assert (E : (float_of_int W2 * 1 == inject_Z W2)%Q).
    { rewrite Qmult_1_r. apply PyFacts.float_of_int_exact. lia. }
    rewrite (PyFacts.fl_Qeq _ _ E).
    rewrite (PyFacts.py_int_Qeq _ _ (PyFacts.fl_int W2 ltac:(lia))).
    rewrite PyFacts.py_int_Z. reflexivity.
Qed.

Lemma target_width_monotone_witness :
  1 <= target_width 640 20 <= target_width 1920 35 /\
  (1920 < 2 ^ 53 -> target_width 1920 100 = Z.max 1 1920).
Proof. apply (target_width_monotone 640 1920 20 35); lia. Defined.

Section Extents.
Import Float FloatFacts PyFacts.
Local Open Scope Q_scope.

(** A new extent [max(1, int(A * (t / float(w))))] for lengths below 2^20:
    the exact value [A * t / w] truncated, never less than one pixel. *)
Lemma new_extent (A t w : Z) :
  (1 <= A < 2 ^ 20)%Z -> (1 <= t < 2 ^ 20)%Z -> (1 <= w < 2 ^ 31)%Z ->
  let new := Z.max 1 (py_int (fmul (float_of_int A)
                                (fdiv (float_of_int t) (float_of_int w)))) in
  let X := inject_Z A * (inject_Z t / inject_Z w) in
  X - 1 - (1 # 1000) < inject_Z new /\ inject_Z new <= Qmax 1 (X + (1 # 1000)).
Proof.
  intros HA Ht Hw. cbv zeta.
  destruct (scale_product A t w ltac:(lia) ltac:(lia) Hw) as (X0 & P1 & P2).
  cbv zeta in X0, P1, P2.
  set (X := inject_Z A * (inject_Z t / inject_Z w)) in *.
  set (prod := fmul (float_of_int A) (fdiv (float_of_int t) (float_of_int w))) in *.
  assert (Ew : 1 <= inject_Z w) by (apply (inject_Z_le 1); lia).
  assert (Et : 1 <= inject_Z t) by (apply (inject_Z_le 1); lia).
  assert (Et' : inject_Z t <= 1048576) by (apply (inject_Z_le t 1048576); lia).
  assert (EA : 1 <= inject_Z A) by (apply (inject_Z_le 1); lia).
  assert (EA' : inject_Z A <= 1048576) by (apply (inject_Z_le A 1048576); lia).
  assert (D : inject_Z t / inject_Z w <= inject_Z t) by (apply Qle_shift_div_r; nra).
  assert (D0 : 0 <= inject_Z t / inject_Z w) by (apply Qle_shift_div_l; lra).
  assert (XU : X <= 1048576 * 1048576).
  { unfold X. apply Qle_trans with (inject_Z A * inject_Z t).
    - apply Qmult_le_l_nonneg; lra.
    - nra. }
  assert (P0 : 0 <= prod) by lra.
  pose proof (Qfloor_le prod) as F1. pose proof (Qlt_floor prod) as F2.
  rewrite inject_Z_plus in F2. change (inject_Z 1) with 1 in F2.
  rewrite py_int_nonneg by assumption.
  destruct (Z.max_spec 1 (Qfloor prod)) as [[C ->] | [C ->]].
  - split; [lra |].
    apply Qle_trans with (X + (1 # 1000)); [lra | apply Q.le_max_r].
  - assert (inject_Z (Qfloor prod) <= 1) by (apply (inject_Z_le _ 1); lia).
    change (inject_Z 1) with 1. split; [lra | apply Q.le_max_l].
Qed.

(** With a divisor of one, the new extent is the product itself. *)
Lemma new_extent_unit (A t : Z) :
  (1 <= A < 2 ^ 20)%Z -> (1 <= t < 2 ^ 31)%Z ->
  Z.max 1 (py_int (fmul (float_of_int A) (fdiv (float_of_int t) (float_of_int 1))))
  = (A * t)%Z.
Proof.
  intros HA Ht.
  assert (E1 : float_of_int t / float_of_int 1 == inject_Z t).
  { change (float_of_int 1) with 1. rewrite (float_of_int_exact t) by lia. field. }
  unfold fdiv. rewrite (fl_Qeq _ _ E1).
  assert (E2 : float_of_int A * fl (inject_Z t) == inject_Z (A * t)).
  { rewrite (float_of_int_exact A), (fl_int t), inject_Z_mult by lia. reflexivity. }
  unfold fmul. rewrite (fl_Qeq _ _ E2).
  rewrite (py_int_Qeq _ _ (fl_int (A * t) ltac:(nia))), py_int_Z. nia.
Qed.

End Extents.

Section MoreSprites.
Context `{PIL}.
Import PyFacts.

Lemma target_width_le (W p : Z) :
  0 <= W -> 0 <= p <= 100 -> W < 2 ^ 53 -> 1 <= target_width W p <= Z.max 1 W.
Proof.
  intros HW Hp HB. unfold target_width. split; [lia |].
  apply Z.max_le_compat_l.
  assert (E : (float_of_int W * 1 == inject_Z W)%Q).
  { rewrite Qmult_1_r. apply float_of_int_exact. lia. }
  assert (B : py_int (fmul (float_of_int W) (fdiv (float_of_int p) 100%Q))
               <= py_int (fl (float_of_int W * 1))).
  { apply py_int_mono.
    - apply fl_nonneg. apply Qmult_le_0_compat;
        [apply float_of_int_nonneg | apply factor_nonneg]; lia.
    - apply fl_mono. apply Qmult_le_l_nonneg; [apply float_of_int_nonneg; lia |].
      rewrite <- factor_100. apply factor_mono. lia. }
  rewrite (fl_Qeq _ _ E), (py_int_Qeq _ _ (fl_int W ltac:(lia))), py_int_Z in B.
  exact B.
Qed.

Lemma apply_opacity_height (wm : Image) (o : Z) :
  height (ImageWatermarkRenderer.apply_opacity wm o) = height wm.
Proof.
  unfold ImageWatermarkRenderer.apply_opacity. destruct (o <? 100); reflexivity.
Qed.

End MoreSprites.

(** X2: the image renderer keeps the proportions of the asset.  For an asset
    and a background below 2^20 pixels in each dimension, the height of
    the sprite before rotation is [asset height * target width / asset
    width] truncated, a thousandth of a pixel granted for the rounding of
    the floats: less than a pixel below the exact value, not above it,
    and never less than one pixel. *)
Theorem image_sprite_keeps_proportions `{PIL}
    (self : ImageWatermarkRenderer.t) (asset : Image) (W Hb : Z) (s : WatermarkSettings) :
  ImageWatermarkRenderer.watermark_image self = Some asset ->
  1 <= width asset < 2 ^ 20 -> 1 <= height asset < 2 ^ 20 ->
  1 <= size_percent s <= 100 -> 0 <= W < 2 ^ 20 ->
  exists sprite,
    ImageWatermarkRenderer.render_unrotated self (W, Hb) s = Ok sprite /\
    1 <= height sprite /\
    let X := (inject_Z (height asset)
              * (inject_Z (target_width W (size_percent s)) / inject_Z (width asset)))%Q in
    (X - 1 - (1 # 1000) < inject_Z (height sprite))%Q /\
    (inject_Z (height sprite) <= Qmax 1 (X + (1 # 1000)))%Q.
Proof.
  intros Ha Hw Hh Hp HW.
  pose proof (target_width_le W (size_percent s) ltac:(lia) ltac:(lia) ltac:(lia)) as T.
  unfold ImageWatermarkRenderer.render_unrotated. rewrite Ha.
  unfold ImageWatermarkRenderer.scale_watermark.
  rewrite PyFacts.truediv_ok by lia. cbn [mbind result_bind].
  eexists. split; [reflexivity |].
  rewrite apply_opacity_height. simpl height. split; [lia |].
  apply new_extent; lia.
Qed.

Lemma image_sprite_keeps_proportions_witness :
  exists sprite,
    ImageWatermarkRenderer.render_unrotated (H := Reference.pil)
      (ImageWatermarkRenderer.mk (Some Reference.photo)) (1000, 800) default_settings
      = Ok sprite /\
    1 <= height sprite /\
    let X := (inject_Z (height Reference.photo)
              * (inject_Z (target_width 1000 (size_percent default_settings))
                 / inject_Z (width Reference.photo)))%Q in
    (X - 1 - (1 # 1000) < inject_Z (height sprite))%Q /\
    (inject_Z (height sprite) <= Qmax 1 (X + (1 # 1000)))%Q.
Proof.
  apply (image_sprite_keeps_proportions (H := Reference.pil)
           (ImageWatermarkRenderer.mk (Some Reference.photo)) Reference.photo 1000 800
           default_settings); simpl; first [reflexivity | lia].
Defined.

(** X3: the text renderer scales the padded canvas in both directions by
    target width / text width.  For a text measured at least one pixel
    wide, with sizes below 2^20, the sprite before rotation is
    [(text_h + 40) * target / text_w] high, truncated (a thousandth of a
    pixel granted for the rounding of the floats) and never less than one
    pixel. *)
Theorem text_sprite_height `{PIL} (W Hb : Z) (s : WatermarkSettings) :
  let logical :=
    TextWatermarkRenderer.logical_size
      (TextWatermarkRenderer._measure_text (text s)
         (TextWatermarkRenderer._get_font (font_path s) (font_size s))) in
  1 <= fst logical < 2 ^ 20 -> 0 <= snd logical < 2 ^ 20 - 40 ->
  1 <= size_percent s <= 100 -> 0 <= W < 2 ^ 20 ->
  exists sprite,
    TextWatermarkRenderer.render_scaled (W, Hb) s = Ok sprite /\
    1 <= height sprite /\
    let X := (inject_Z (snd logical + 40)
              * (inject_Z (target_width W (size_percent s)) / inject_Z (fst logical)))%Q in
    (X - 1 - (1 # 1000) < inject_Z (height sprite))%Q /\
    (inject_Z (height sprite) <= Qmax 1 (X + (1 # 1000)))%Q.
Proof.
  intros logical Hw Hh Hp HW.
  pose proof (target_width_le W (size_percent s) ltac:(lia) ltac:(lia) ltac:(lia)) as T.
  unfold TextWatermarkRenderer.render_scaled. subst logical.
  destruct (TextWatermarkRenderer.logical_size _) as [text_w text_h].
  cbn [fst snd] in *.
  destruct (text_color s) as [[[r g] b] a].
  unfold TextWatermarkRenderer._scale_image.
  rewrite PyFacts.truediv_ok by lia. cbn [mbind result_bind].
  eexists. split; [reflexivity |]. simpl height. split; [lia |].
  change (20 * 2) with 40. apply new_extent; lia.
Qed.

Lemma text_sprite_height_witness :
  exists sprite,
    TextWatermarkRenderer.render_scaled (H := Reference.pil) (1000, 800) default_settings
      = Ok sprite /\
    1 <= height sprite /\
    let X := (inject_Z (12 + 40)
              * (inject_Z (target_width 1000 (size_percent default_settings))
                 / inject_Z 160))%Q in
    (X - 1 - (1 # 1000) < inject_Z (height sprite))%Q /\
    (inject_Z (height sprite) <= Qmax 1 (X + (1 # 1000)))%Q.
Proof.
  apply (text_sprite_height (H := Reference.pil) 1000 800 default_settings);
    simpl; lia.
Defined.

(** X4: a text measured zero pixels wide, the empty text for one, is given
    the logical size 1x1 and a 41x41 canvas, and the scale is the target
    width itself: the sprite before rotation is a square of 41 times the
    target width. *)
Theorem empty_text_sprite_size `{PIL} (W Hb : Z) (s : WatermarkSettings) :
  fst (TextWatermarkRenderer._measure_text (text s)
         (TextWatermarkRenderer._get_font (font_path s) (font_size s))) = 0 ->
  1 <= size_percent s <= 100 -> 0 <= W < 2 ^ 31 ->
  exists sprite,
    TextWatermarkRenderer.render_scaled (W, Hb) s = Ok sprite /\
    size sprite = (41 * target_width W (size_percent s),
                   41 * target_width W (size_percent s)).
Proof.
  intros Hm Hp HW.
  pose proof (target_width_range W (size_percent s) Hp HW) as T.
  unfold TextWatermarkRenderer.render_scaled.
  destruct (TextWatermarkRenderer._measure_text _ _) as [mw mh]. simpl in Hm. subst mw.
  cbn [TextWatermarkRenderer.logical_size Z.eqb].
  destruct (text_color s) as [[[r g] b] a].
  unfold TextWatermarkRenderer._scale_image.
  rewrite PyFacts.truediv_ok by lia. cbn [mbind result_bind].
  eexists. split; [reflexivity |].
  unfold size. cbn [width height resize draw_text Image_new fst snd].
  change (1 + 20 * 2) with 41.
  rewrite !new_extent_unit by lia. reflexivity.
Qed.

Lemma empty_text_sprite_size_witness :
  exists sprite,
    TextWatermarkRenderer.render_scaled (H := Reference.pil) (1000, 800)
      (set_text default_settings "") = Ok sprite /\
    size sprite = (41 * target_width 1000 20, 41 * target_width 1000 20).
Proof.
  apply (empty_text_sprite_size (H := Reference.pil) 1000 800
           (set_text default_settings "")); simpl; first [reflexivity | lia].
Defined.

(** Where the image renderer divides by zero. *)
Lemma image_render_zero_division `{PIL} (self : ImageWatermarkRenderer.t) (bg : Z * Z)
    (s : WatermarkSettings) :
  ImageWatermarkRenderer.render self bg s = Raise ZeroDivisionError <->
  exists asset,
    ImageWatermarkRenderer.watermark_image self = Some asset /\ width asset = 0.
Proof.
  unfold ImageWatermarkRenderer.render, ImageWatermarkRenderer.scale_watermark.
  destruct bg as [bg_w bg_h]. split.
  - destruct (ImageWatermarkRenderer.watermark_image self) as [asset |]; [| discriminate].
    destruct (Z.eq_dec (width asset) 0) as [Z0 | NZ]; [eauto |].
    rewrite PyFacts.truediv_ok by assumption. cbn [mbind result_bind].
    destruct (negb _); discriminate.
  - intros (asset & -> & Hw). rewrite Hw. reflexivity.
Qed.

(** X5: the image renderer has no guard like the text renderer's: it
    raises [ZeroDivisionError], from [target_w / float(wm.width)], exactly
    when the stored asset is zero pixels wide.  With a watermark type
    other than "text" nothing handles the exception on its way through
    [create_watermark] and [create_overlay]. *)
Theorem image_render_fails_on_zero_width `{PIL}
    (self : WatermarkProcessor.t) (bg : Z * Z) (s : WatermarkSettings) :
  (ImageWatermarkRenderer.render (WatermarkProcessor.image_renderer self) bg s
   = Raise ZeroDivisionError <->
   exists asset,
     ImageWatermarkRenderer.watermark_image (WatermarkProcessor.image_renderer self)
     = Some asset /\ width asset = 0) /\
  (forall asset,
      String.eqb (wm_type s) "text" = false ->
      ImageWatermarkRenderer.watermark_image (WatermarkProcessor.image_renderer self)
      = Some asset ->
      width asset = 0 ->
      WatermarkProcessor.create_watermark self bg s = Raise ZeroDivisionError /\
      WatermarkProcessor.create_overlay self bg s = Raise ZeroDivisionError).
Proof.
  split; [apply image_render_zero_division |].
  intros asset T A Hw.
  assert (W : WatermarkProcessor.create_watermark self bg s = Raise ZeroDivisionError).
  { unfold WatermarkProcessor.create_watermark. rewrite T.
    apply image_render_zero_division. eauto. }
  split; [exact W |].
  unfold WatermarkProcessor.create_overlay. destruct bg as [w h]. rewrite W. reflexivity.
Qed.

(** X6: "Apply opacity" touches the alpha band only.  For an opacity in
    [0, 100] the sprite keeps its size and the colour of every pixel, and
    an eight-bit alpha never grows; at opacity 0 every alpha becomes 0,
    and from 100 upwards the sprite is returned as it is. *)
Theorem apply_opacity_only_lowers_alpha (wm : Image) (o : Z) :
  0 <= o <= 100 ->
  size (ImageWatermarkRenderer.apply_opacity wm o) = size wm /\
  (forall x y r g b a,
      getpixel wm x y = (r, g, b, a) ->
      exists a', getpixel (ImageWatermarkRenderer.apply_opacity wm o) x y = (r, g, b, a') /\
                 (0 <= a <= 255 -> 0 <= a' <= a)) /\
  (forall x y, alpha_at (ImageWatermarkRenderer.apply_opacity wm 0) x y = 0) /\
  (forall o', 100 <= o' -> ImageWatermarkRenderer.apply_opacity wm o' = wm).
Proof.
  intros Ho. split; [| split; [| split]].
  - unfold ImageWatermarkRenderer.apply_opacity. destruct (o <? 100); reflexivity.
  - intros x y r g b a P.
    unfold ImageWatermarkRenderer.apply_opacity.
    destruct (Z.ltb_spec o 100) as [L | G].
    + cbn [getpixel putalpha Brightness_enhance split_alpha band_get].
      rewrite P. unfold alpha_at. rewrite P. cbn [alpha_of].
      eexists. split; [reflexivity |].
      destruct (factor_unit o ltac:(lia)) as [F0 F1].
      intros Ha. split; [| apply blend_black_le; assumption].
      rewrite blend_black_product by assumption.
      rewrite PyFacts.py_int_nonneg.
      * rewrite <- (Qfloor_Z 0). apply Qfloor_resp_le.
        apply FloatFacts.round_nonneg. apply Qmult_le_0_compat.
        -- apply FloatFacts.round_nonneg. assumption.
        -- apply (PyFacts.inject_Z_le 0). lia.
      * apply FloatFacts.round_nonneg. apply Qmult_le_0_compat.
        -- apply FloatFacts.round_nonneg. assumption.
        -- apply (PyFacts.inject_Z_le 0). lia.
    + exists a. split; [assumption | lia].
  - intros x y. rewrite apply_opacity_alpha. reflexivity.
  - intros o' Ho'. unfold ImageWatermarkRenderer.apply_opacity.
    destruct (Z.ltb_spec o' 100); [lia | reflexivity].
Qed.

Lemma apply_opacity_only_lowers_alpha_witness :
  size (ImageWatermarkRenderer.apply_opacity Reference.photo 40) = size Reference.photo /\
  (forall x y r g b a,
      getpixel Reference.photo x y = (r, g, b, a) ->
      exists a', getpixel (ImageWatermarkRenderer.apply_opacity Reference.photo 40) x y
                 = (r, g, b, a') /\
                 (0 <= a <= 255 -> 0 <= a' <= a)) /\
  (forall x y, alpha_at (ImageWatermarkRenderer.apply_opacity Reference.photo 0) x y = 0) /\
  (forall o', 100 <= o' -> ImageWatermarkRenderer.apply_opacity Reference.photo o'
                           = Reference.photo).
Proof. apply (apply_opacity_only_lowers_alpha Reference.photo 40). lia. Defined.

Section Placement.
Import PyFacts.
Local Open Scope Q_scope.

(** [c - extent / 2] is computed without rounding. *)
Lemma centre_offset_exact (c extent : Z) :
  (Z.abs c < 2 ^ 31)%Z -> (Z.abs extent < 2 ^ 31)%Z ->
  fsub (float_of_int c) (fl (inject_Z extent / 2)) == inject_Z (2 * c - extent) / 2.
Proof.
  intros Hc He. unfold fsub.
  assert (E : float_of_int c - fl (inject_Z extent / 2) == inject_Z (2 * c - extent) / 2).
  { rewrite (float_of_int_exact c), (fl_half_int extent) by lia.
    rewrite inject_Z_sub, inject_Z_mult. change (inject_Z 2) with 2. field. }
  rewrite (fl_Qeq _ _ E). apply fl_half_int. lia.
Qed.

End Placement.

(** X7: the corner of the sprite is the centre minus half the extent,
    truncated toward zero, with no rounding error: [int(c - extent / 2)]
    is the quotient of [2 c - extent] by 2.  Where the corner is not
    negative, an odd extent puts the larger half before the centre; where
    it is negative, after. *)
Theorem top_left_truncates_half (c extent : Z) :
  Z.abs c < 2 ^ 31 -> 0 <= extent < 2 ^ 31 ->
  WatermarkProcessor.top_left c extent = Z.quot (2 * c - extent) 2 /\
  (extent <= 2 * c -> WatermarkProcessor.top_left c extent = c - (extent + 1) / 2) /\
  (2 * c <= extent -> WatermarkProcessor.top_left c extent = c - extent / 2).
Proof.
  intros Hc He.
  assert (E : WatermarkProcessor.top_left c extent = Z.quot (2 * c - extent) 2).
  { unfold WatermarkProcessor.top_left.
    rewrite (PyFacts.py_int_Qeq _ _ (centre_offset_exact c extent Hc ltac:(lia))).
    apply py_int_half. }
  rewrite E. split; [reflexivity |]. split; intros L.
  - rewrite Z.quot_div_nonneg by lia. Z.div_mod_to_equations. lia.
  - replace (2 * c - extent) with (- (extent - 2 * c)) by lia.
    rewrite Z.quot_opp_l by lia. rewrite Z.quot_div_nonneg by lia.
    Z.div_mod_to_equations. lia.
Qed.

Lemma top_left_truncates_half_witness :
  WatermarkProcessor.top_left 3 7 = Z.quot (2 * 3 - 7) 2 /\
  (7 <= 2 * 3 -> WatermarkProcessor.top_left 3 7 = 3 - (7 + 1) / 2) /\
  (2 * 3 <= 7 -> WatermarkProcessor.top_left 3 7 = 3 - 7 / 2).
Proof. apply (top_left_truncates_half 3 7); lia. Defined.

Section Overlay.
Context `{PIL}.

(** Pillow's [DIV255] is the division by 255 rounded to nearest, on the
    products of two eight-bit values. *)
Lemma DIV255_rounds (a : Z) : 0 <= a <= 255 * 255 -> DIV255 a = (a + 127) / 255.
Proof.
  intros Ha. unfold DIV255. rewrite !Z.shiftr_div_pow2 by lia.
  change (2 ^ 8) with 256. Z.div_mod_to_equations. lia.
Qed.

Lemma blend_onto_transparent (mask r g b a : Z) :
  blend_pixel mask transparent (r, g, b, a)
  = (DIV255 (r * mask), DIV255 (g * mask), DIV255 (b * mask), DIV255 (a * mask)).
Proof. unfold blend_pixel, transparent, BLEND. reflexivity. Qed.

Lemma inside_box (x y x0 y0 w h : Z) :
  (0 <=? x - x0) && (x - x0 <? w) && (0 <=? y - y0) && (y - y0 <? h) = true
  <-> (x0 <= x < x0 + w /\ y0 <= y < y0 + h).
Proof.
  rewrite !andb_true_iff, !Z.leb_le, !Z.ltb_lt. lia.
Qed.

(** What [create_overlay] returns, pixel by pixel. *)
Lemma create_overlay_pixels (self : WatermarkProcessor.t) (w h : Z)
    (s : WatermarkSettings) (overlay : Image) :
  WatermarkProcessor.create_overlay self (w, h) s = Ok overlay ->
  exists sprite,
    WatermarkProcessor.create_watermark self (w, h) s = Ok sprite /\
    size overlay = (w, h) /\
    let c := WatermarkProcessor.placement_center (anchor_ratio s) (w, h) in
    let x0 := WatermarkProcessor.top_left (fst c) (width sprite) in
    let y0 := WatermarkProcessor.top_left (snd c) (height sprite) in
    forall x y,
      getpixel overlay x y
      = if (0 <=? x - x0) && (x - x0 <? width sprite)
           && (0 <=? y - y0) && (y - y0 <? height sprite)
        then blend_pixel (alpha_at sprite (x - x0) (y - y0)) transparent
               (getpixel sprite (x - x0) (y - y0))
        else transparent.
Proof.
  unfold WatermarkProcessor.create_overlay.
  destruct (WatermarkProcessor.create_watermark self (w, h) s) as [sprite | e];
    [| discriminate].
  cbn [mbind result_bind]. intros E. exists sprite. split; [reflexivity |].
  destruct (WatermarkProcessor.placement_center (anchor_ratio s) (w, h)) as [cx cy].
  inversion E. subst overlay. clear E. split; [reflexivity |].
  intros x y. reflexivity.
Qed.

(** A text watermark is always rendered, and so is its overlay. *)
Lemma text_create_watermark_ok (self : WatermarkProcessor.t) (bg : Z * Z)
    (s : WatermarkSettings) :
  String.eqb (wm_type s) "text" = true ->
  exists sprite, WatermarkProcessor.create_watermark self bg s = Ok sprite.
Proof.
  intros T. unfold WatermarkProcessor.create_watermark. rewrite T.
  unfold TextWatermarkRenderer.render.
  destruct (text_render_scaled_ok bg s) as [sprite ->]. cbn [mbind result_bind].
  destruct (negb _); eauto.
Qed.

Lemma text_overlay_ok (self : WatermarkProcessor.t) (w h : Z) (s : WatermarkSettings) :
  String.eqb (wm_type s) "text" = true ->
  exists overlay,
    WatermarkProcessor.create_overlay self (w, h) s = Ok overlay /\ size overlay = (w, h).
Proof.
  intros T. unfold WatermarkProcessor.create_overlay.
  destruct (text_create_watermark_ok self (w, h) s T) as [sprite ->].
  cbn [mbind result_bind].
  destruct (WatermarkProcessor.placement_center _ _) as [cx cy].
  eexists. split; reflexivity.
Qed.

End Overlay.

(** X8: the overlay has the size of the original and is fully transparent
    outside the rectangle of the sprite, whose upper left corner is
    [top_left] of the pixel centre; it is also fully transparent wherever
    the sprite itself is. *)
Theorem overlay_transparent_outside_sprite `{PIL} (self : WatermarkProcessor.t)
    (w h : Z) (s : WatermarkSettings) (overlay : Image) :
  WatermarkProcessor.create_overlay self (w, h) s = Ok overlay ->
  exists sprite,
    WatermarkProcessor.create_watermark self (w, h) s = Ok sprite /\
    size overlay = (w, h) /\
    let c := WatermarkProcessor.placement_center (anchor_ratio s) (w, h) in
    let x0 := WatermarkProcessor.top_left (fst c) (width sprite) in
    let y0 := WatermarkProcessor.top_left (snd c) (height sprite) in
    forall x y,
      (~ (x0 <= x < x0 + width sprite /\ y0 <= y < y0 + height sprite) ->
       getpixel overlay x y = (0, 0, 0, 0)) /\
      (alpha_at sprite (x - x0) (y - y0) = 0 -> getpixel overlay x y = (0, 0, 0, 0)).
Proof.
  intros E. destruct (create_overlay_pixels self w h s overlay E) as (sprite & W & S & P).
  exists sprite. split; [assumption |]. split; [assumption |].
  cbv zeta in *. intros x y. rewrite P.
  match goal with |- context [if ?b then _ else _] => destruct b eqn:B end.
  - apply inside_box in B. split; [intros C; contradiction |].
    intros A. rewrite A.
    destruct (getpixel sprite _ _) as [[[r g] b] a].
    rewrite blend_onto_transparent, !Z.mul_0_r. reflexivity.
  - split; reflexivity.
Qed.

Lemma overlay_transparent_outside_sprite_witness :
  exists overlay sprite,
    WatermarkProcessor.create_overlay (H := Reference.pil) WatermarkProcessor.__init__
      (1000, 800) default_settings = Ok overlay /\
    WatermarkProcessor.create_watermark (H := Reference.pil) WatermarkProcessor.__init__
      (1000, 800) default_settings = Ok sprite /\
    size overlay = (1000, 800) /\
    let c := WatermarkProcessor.placement_center (anchor_ratio default_settings)
               (1000, 800) in
    let x0 := WatermarkProcessor.top_left (fst c) (width sprite) in
    let y0 := WatermarkProcessor.top_left (snd c) (height sprite) in
    forall x y,
      (~ (x0 <= x < x0 + width sprite /\ y0 <= y < y0 + height sprite) ->
       getpixel overlay x y = (0, 0, 0, 0)) /\
      (alpha_at sprite (x - x0) (y - y0) = 0 -> getpixel overlay x y = (0, 0, 0, 0)).
Proof.
  destruct (text_overlay_ok (H := Reference.pil) WatermarkProcessor.__init__ 1000 800
              default_settings eq_refl) as (overlay & E & _).
  exists overlay.
  destruct (overlay_transparent_outside_sprite (H := Reference.pil)
              WatermarkProcessor.__init__ 1000 800 default_settings overlay E)
    as (sprite & W & R).
  exists sprite. split; [exact E |]. split; [exact W | exact R].
Defined.

(** X9: the sprite is pasted onto the transparent overlay through its own
    alpha, which applies the alpha twice.  Inside the rectangle of the
    sprite a pixel [(r, g, b, a)] of eight-bit channels becomes
    [(r a / 255, g a / 255, b a / 255, a a / 255)], each rounded to
    nearest: the alpha of the overlay never exceeds the alpha of the
    sprite and equals it only for 0 and 255, and an opaque pixel is copied
    as it is. *)
Theorem overlay_applies_alpha_twice `{PIL} (self : WatermarkProcessor.t)
    (w h : Z) (s : WatermarkSettings) (overlay : Image) :
  WatermarkProcessor.create_overlay self (w, h) s = Ok overlay ->
  exists sprite,
    WatermarkProcessor.create_watermark self (w, h) s = Ok sprite /\
    let c := WatermarkProcessor.placement_center (anchor_ratio s) (w, h) in
    let x0 := WatermarkProcessor.top_left (fst c) (width sprite) in
    let y0 := WatermarkProcessor.top_left (snd c) (height sprite) in
    forall x y r g b a,
      x0 <= x < x0 + width sprite -> y0 <= y < y0 + height sprite ->
      getpixel sprite (x - x0) (y - y0) = (r, g, b, a) ->
      0 <= r <= 255 -> 0 <= g <= 255 -> 0 <= b <= 255 -> 0 <= a <= 255 ->
      getpixel overlay x y
      = ((r * a + 127) / 255, (g * a + 127) / 255, (b * a + 127) / 255,
         (a * a + 127) / 255) /\
      alpha_at overlay x y <= a /\
      (alpha_at overlay x y = a <-> a = 0 \/ a = 255) /\
      (a = 255 -> getpixel overlay x y = (r, g, b, a)).
Proof.
  intros E. destruct (create_overlay_pixels self w h s overlay E) as (sprite & W & S & P).
  exists sprite. split; [assumption |].
  cbv zeta in *. intros x y r g b a Hx Hy Px Hr Hg Hb Ha.
  assert (B : (0 <=? x - WatermarkProcessor.top_left
                       (fst (WatermarkProcessor.placement_center (anchor_ratio s) (w, h)))
                       (width sprite))
              && (x - WatermarkProcessor.top_left
                    (fst (WatermarkProcessor.placement_center (anchor_ratio s) (w, h)))
                    (width sprite) <? width sprite)
              && (0 <=? y - WatermarkProcessor.top_left
                          (snd (WatermarkProcessor.placement_center (anchor_ratio s) (w, h)))
                          (height sprite))
              && (y - WatermarkProcessor.top_left
                    (snd (WatermarkProcessor.placement_center (anchor_ratio s) (w, h)))
                    (height sprite) <? height sprite) = true).
  { apply inside_box. split; assumption. }
  assert (G : getpixel overlay x y
              = ((r * a + 127) / 255, (g * a + 127) / 255, (b * a + 127) / 255,
                 (a * a + 127) / 255)).
  { rewrite P, B. unfold alpha_at. rewrite Px. cbn [alpha_of].
    rewrite blend_onto_transparent, !DIV255_rounds by nia. reflexivity. }
  split; [exact G |]. unfold alpha_at. rewrite G. cbn [alpha_of].
  split; [| split].
  - assert ((a * a + 127) / 255 < a + 1) by (apply Z.div_lt_upper_bound; nia). lia.
  - split.
    + intros Q. assert (255 * a <= a * a + 127).
      { rewrite <- Q at 1. apply Z.mul_div_le. lia. }
      assert (a * (255 - a) <= 127) by nia.
      destruct (Z.eq_dec a 0); [left; assumption |].
      destruct (Z.eq_dec a 255); [right; assumption | nia].
    + intros [-> | ->]; reflexivity.
  - intros ->.
    assert (K : forall c, 0 <= c <= 255 -> (c * 255 + 127) / 255 = c)
      by (intros; Z.div_mod_to_equations; lia).
    rewrite !K by lia. reflexivity.
Qed.

Lemma overlay_applies_alpha_twice_witness :
  exists overlay sprite,
    WatermarkProcessor.create_overlay (H := Reference.pil) WatermarkProcessor.__init__
      (1000, 800) default_settings = Ok overlay /\
    WatermarkProcessor.create_watermark (H := Reference.pil) WatermarkProcessor.__init__
      (1000, 800) default_settings = Ok sprite /\
    let c := WatermarkProcessor.placement_center (anchor_ratio default_settings)
               (1000, 800) in
    let x0 := WatermarkProcessor.top_left (fst c) (width sprite) in
    let y0 := WatermarkProcessor.top_left (snd c) (height sprite) in
    forall x y r g b a,
      x0 <= x < x0 + width sprite -> y0 <= y < y0 + height sprite ->
      getpixel sprite (x - x0) (y - y0) = (r, g, b, a) ->
      0 <= r <= 255 -> 0 <= g <= 255 -> 0 <= b <= 255 -> 0 <= a <= 255 ->
      getpixel overlay x y
      = ((r * a + 127) / 255, (g * a + 127) / 255, (b * a + 127) / 255,
         (a * a + 127) / 255) /\
      alpha_at overlay x y <= a /\
      (alpha_at overlay x y = a <-> a = 0 \/ a = 255) /\
      (a = 255 -> getpixel overlay x y = (r, g, b, a)).
Proof.
  destruct (text_overlay_ok (H := Reference.pil) WatermarkProcessor.__init__ 1000 800
              default_settings eq_refl) as (overlay & E & _).
  exists overlay.
  destruct (overlay_applies_alpha_twice (H := Reference.pil)
              WatermarkProcessor.__init__ 1000 800 default_settings overlay E)
    as (sprite & W & R).
  exists sprite. split; [exact E |]. split; [exact W | exact R].
Defined.

(* ===================================================================== *)
(** ** Further properties of the image manager                            *)
(* ===================================================================== *)

(** X10: the preview is centred on the canvas.  With no preview the display
    info is all zeros; otherwise the right and bottom margins equal the
    left and top ones or exceed them by one pixel, and the offsets are not
    negative for a preview that fits the canvas. *)
Theorem display_image_centred `{PIL} (self : ImageManager.t) :
  (ImageManager.display_image self = None ->
   ImageManager.get_display_info self = (0, 0, 0, 0)) /\
  (forall d,
      ImageManager.display_image self = Some d ->
      exists img_x img_y,
        ImageManager.get_display_info self = (img_x, img_y, width d, height d) /\
        let right := ImageManager.canvas_width self - (img_x + width d) in
        let bottom := ImageManager.canvas_height self - (img_y + height d) in
        img_x <= right <= img_x + 1 /\ img_y <= bottom <= img_y + 1 /\
        (width d <= ImageManager.canvas_width self -> 0 <= img_x) /\
        (height d <= ImageManager.canvas_height self -> 0 <= img_y)).
Proof.
  unfold ImageManager.get_display_info. split.
  - intros ->. reflexivity.
  - intros d ->. eexists. eexists. split; [reflexivity |].
    cbv zeta. repeat split; Z.div_mod_to_equations; lia.
Qed.

Section Loading.
Context `{PIL}.

(** The three ways [load_image] ends. *)
Lemma load_image_cases (self : ImageManager.t) (path : string) :
  let cw := ImageManager.canvas_width self in
  let ch := ImageManager.canvas_height self in
  match open_rgba path with
  | None => ImageManager.load_image self path = (self, false)
  | Some img =>
      let d := thumbnail_lanczos img (cw, ch) in
      match photo_image d with
      | Some photo =>
          ImageManager.load_image self path
          = (ImageManager.mk cw ch (Some img) (Some d) (Some photo), true)
      | None =>
          ImageManager.load_image self path
          = (ImageManager.mk cw ch (Some img) (Some d) (ImageManager.display_photo self),
             false)
      end
  end.
Proof.
  unfold ImageManager.load_image, ImageManager._update_display_image.
  destruct (open_rgba path) as [img |]; [| reflexivity].
  cbn. destruct (photo_image _); reflexivity.
Qed.

Lemma load_image_consistent (cw ch : Z) (m : ImageManager.t) (path : string) :
  manager_consistent cw ch m ->
  manager_consistent cw ch (fst (ImageManager.load_image m path)).
Proof.
  intros (W & Hh & D & P). pose proof (load_image_cases m path) as C.
  cbv zeta in C. destruct (open_rgba path) as [img |].
  - destruct (photo_image _) as [photo |]; rewrite C; cbn [fst];
      (split; [exact W |]); (split; [exact Hh |]); cbn; rewrite W, Hh;
      (split; [reflexivity | discriminate]).
  - rewrite C. cbn [fst]. repeat split; assumption.
Qed.

Lemma load_image_keeps_display (m : ImageManager.t) (path : string) :
  ImageManager.display_image m <> None ->
  ImageManager.display_image (fst (ImageManager.load_image m path)) <> None.
Proof.
  intros D. pose proof (load_image_cases m path) as C.
  cbv zeta in C. destruct (open_rgba path) as [img |].
  - destruct (photo_image _) as [photo |]; rewrite C; discriminate.
  - rewrite C. exact D.
Qed.

End Loading.

(** X11: [load_image] returns [True] exactly when the file decodes and the
    photo of its preview can be built; the manager then holds the decoded
    image, its thumbnail fitted to the canvas and the photo of that
    thumbnail, the canvas size unchanged. *)
Theorem load_image_true_iff `{PIL} (self : ImageManager.t) (path : string) :
  snd (ImageManager.load_image self path) = true <->
  exists img photo,
    open_rgba path = Some img /\
    let cw := ImageManager.canvas_width self in
    let ch := ImageManager.canvas_height self in
    let d := thumbnail_lanczos img (cw, ch) in
    photo_image d = Some photo /\
    fst (ImageManager.load_image self path)
    = ImageManager.mk cw ch (Some img) (Some d) (Some photo).
Proof.
  pose proof (load_image_cases self path) as C. cbv zeta in *.
  destruct (open_rgba path) as [img |].
  - destruct (photo_image _) as [photo |] eqn:P; rewrite C; cbn [fst snd]; split.
    + intros _. exists img, photo. repeat split; [exact P].
    + reflexivity.
    + discriminate.
    + intros (img' & photo' & E & P' & _). inversion E. subst img'. congruence.
  - rewrite C. cbn [snd]. split; [discriminate |].
    intros (img & photo & E & _). discriminate.
Qed.

(** X12: whatever files are opened one after the other, failures included,
    the manager keeps its canvas size, its preview is the thumbnail of its
    current original fitted to that canvas (both absent before the first
    file that decodes), and it holds no photo without a preview. *)
Theorem display_is_thumbnail_of_original `{PIL} (cw ch : Z) (paths : list string) :
  let m := fold_left (fun m path => fst (ImageManager.load_image m path)) paths
             (ImageManager.__init__ cw ch) in
  ImageManager.canvas_width m = cw /\ ImageManager.canvas_height m = ch /\
  ImageManager.display_image m
  = (fun original => thumbnail_lanczos original (cw, ch)) <$> ImageManager.original_image m /\
  (ImageManager.display_photo m <> None -> ImageManager.display_image m <> None).
Proof.
  cbv zeta. change (manager_consistent cw ch
                      (fold_left (fun m path => fst (ImageManager.load_image m path)) paths
                         (ImageManager.__init__ cw ch))).
  induction paths as [| path paths IH] using rev_ind.
  - repeat split. intros C. exfalso. apply C. reflexivity.
  - rewrite fold_left_app. cbn [fold_left]. apply load_image_consistent. exact IH.
Qed.

(* ===================================================================== *)
(** ** Further properties of the drag and of the preview position         *)
(* ===================================================================== *)

Section DragAxis.
Import Float FloatFacts PyFacts.
Local Open Scope Q_scope.

Lemma float_of_int_zero : float_of_int 0 = 0.
Proof. reflexivity. Qed.

Lemma truediv_zero (x : float) : truediv x (float_of_int 0) = Raise ZeroDivisionError.
Proof. reflexivity. Qed.

(** The clamp of [_on_motion] on integers. *)
Lemma clamp_int (d w : Z) :
  (0 <= w)%Z ->
  Qmax 0 (Qmin (inject_Z d) (inject_Z w)) == inject_Z (Z.max 0 (Z.min d w)).
Proof.
  intros Hw.
  destruct (Z_le_gt_dec d w) as [L | G].
  - rewrite Z.min_l by lia. rewrite Q.min_l by (apply inject_Z_le; lia).
    destruct (Z_le_gt_dec 0 d) as [P | N].
    + rewrite Z.max_r by lia. apply Q.max_r. apply (inject_Z_le 0); lia.
    + rewrite Z.max_l by lia. apply Q.max_l. apply (inject_Z_le d 0); lia.
  - rewrite Z.min_r by lia. rewrite Q.min_r by (apply inject_Z_le; lia).
    rewrite Z.max_r by lia. apply Q.max_r. apply (inject_Z_le 0); lia.
Qed.

(** One axis of [ratio_from_pixel] at a whole canvas coordinate [k]: the
    quotient of the clamped offset by the extent. *)
Lemma axis_ratio_int (k origin extent : Z) :
  (Z.abs k < 2 ^ 31)%Z -> (Z.abs origin < 2 ^ 31)%Z -> (1 <= extent < 2 ^ 31)%Z ->
  truediv (fl (Qmax 0 (Qmin (fsub (inject_Z k) (float_of_int origin)) (inject_Z extent))))
          (float_of_int extent)
  = Ok (fdiv (float_of_int (Z.max 0 (Z.min (k - origin) extent))) (float_of_int extent)).
Proof.
  intros Hk Ho He. rewrite truediv_ok by lia. f_equal. unfold fdiv.
  apply fl_Qeq.
  assert (D : fsub (inject_Z k) (float_of_int origin) == inject_Z (k - origin)).
  { unfold fsub.
    assert (E : inject_Z k - float_of_int origin == inject_Z (k - origin)).
    { rewrite (float_of_int_exact origin) by lia. rewrite inject_Z_sub. reflexivity. }
    rewrite (fl_Qeq _ _ E). apply fl_int. lia. }
  assert (C : Qmax 0 (Qmin (fsub (inject_Z k) (float_of_int origin)) (inject_Z extent))
              == inject_Z (Z.max 0 (Z.min (k - origin) extent))).
  { rewrite <- clamp_int by lia.
    apply Q.max_compat; [reflexivity |]. apply Q.min_compat; [exact D | reflexivity]. }
  rewrite (fl_Qeq _ _ C). reflexivity.
Qed.

(** [int((t / float(w)) * w)] is [t] or [t - 1]. *)
Lemma quotient_times_divisor (t w : Z) :
  (0 <= t < 2 ^ 31)%Z -> (1 <= w < 2 ^ 31)%Z ->
  (t - 1 <= py_int (fmul (fdiv (float_of_int t) (float_of_int w)) (float_of_int w)) <= t)%Z /\
  (0 <= py_int (fmul (fdiv (float_of_int t) (float_of_int w)) (float_of_int w)))%Z.
Proof.
  intros Ht Hw.
  assert (Cm : fmul (fdiv (float_of_int t) (float_of_int w)) (float_of_int w)
               = fmul (float_of_int w) (fdiv (float_of_int t) (float_of_int w))).
  { unfold fmul. apply fl_Qeq. apply Qmult_comm. }
  rewrite Cm. clear Cm.
  destruct (Z.eq_dec t 0) as [-> | NZ].
  - assert (E : float_of_int w * fdiv (float_of_int 0) (float_of_int w) == 0).
    { unfold fdiv. rewrite float_of_int_zero.
      assert (Z0 : 0 / float_of_int w == 0) by (unfold Qdiv; ring).
      rewrite (fl_Qeq _ _ Z0), fl_0. ring. }
    unfold fmul. rewrite (fl_Qeq _ _ E), fl_0. change (py_int 0) with 0%Z. lia.
  - destruct (scale_product w t w ltac:(lia) ltac:(lia) Hw) as (X0 & P1 & P2).
    cbv zeta in X0, P1, P2.
    assert (Ew : 1 <= inject_Z w) by (apply (inject_Z_le 1); lia).
    assert (EX : inject_Z w * (inject_Z t / inject_Z w) == inject_Z t) by (field; lra).
    rewrite EX in X0, P1, P2.
    assert (Et : inject_Z t <= 2147483648) by (apply (inject_Z_le t 2147483648); lia).
    set (prod := fmul (float_of_int w) (fdiv (float_of_int t) (float_of_int w))) in *.
    assert (B : (t - 1 <= py_int prod <= t)%Z) by (apply py_int_near; [lia | lra | lra]).
    lia.
Qed.

(** [int(r * w)] for a ratio of the unit interval lies in [0, w]. *)
Lemma unit_times_extent (r : float) (w : Z) :
  0 <= r -> r <= 1 -> (0 <= w < 2 ^ 53)%Z ->
  (0 <= py_int (fmul r (float_of_int w)) <= w)%Z.
Proof.
  intros R0 R1 Hw.
  assert (W0 : 0 <= inject_Z w) by (apply (inject_Z_le 0); lia).
  assert (E : float_of_int w == inject_Z w) by (apply float_of_int_exact; lia).
  assert (P0 : 0 <= r * float_of_int w) by (rewrite E; apply Qmult_le_0_compat; assumption).
  assert (P1 : r * float_of_int w <= inject_Z w).
  { rewrite E. rewrite <- (Qmult_1_l (inject_Z w)) at 2.
    apply Qmult_le_compat_r; assumption. }
  assert (F0 : 0 <= fmul r (float_of_int w)) by (apply fl_nonneg; assumption).
  assert (F1 : fmul r (float_of_int w) <= inject_Z w).
  { destruct (Z.eq_dec w 0) as [-> | NZ].
    - assert (Z0 : r * float_of_int 0 == 0) by (rewrite float_of_int_zero; ring).
      unfold fmul. rewrite (fl_Qeq _ _ Z0), fl_0. apply Qle_refl.
    - apply fl_le_int; [lia | assumption]. }
  split.
  - change 0%Z with (py_int 0). apply py_int_mono; [apply Qle_refl | assumption].
  - rewrite <- (py_int_Z w) at 2. apply py_int_mono; assumption.
Qed.

(** Beyond the far edge the clamp returns the extent and the ratio is 1;
    before the near edge the clamp returns 0 and the ratio is 0. *)
Lemma axis_saturates (c : float) (origin extent : Z) :
  (Z.abs origin < 2 ^ 53)%Z -> (1 <= extent < 2 ^ 53)%Z ->
  (inject_Z (origin + extent) <= c ->
   truediv (fl (Qmax 0 (Qmin (fsub c (float_of_int origin)) (inject_Z extent))))
           (float_of_int extent) = Ok 1) /\
  (c <= inject_Z origin ->
   truediv (fl (Qmax 0 (Qmin (fsub c (float_of_int origin)) (inject_Z extent))))
           (float_of_int extent) = Ok 0).
Proof.
  intros Ho He.
  assert (Eo : float_of_int origin == inject_Z origin) by (apply float_of_int_exact; lia).
  assert (Ee : float_of_int extent == inject_Z extent) by (apply float_of_int_exact; lia).
  assert (E1 : 1 <= inject_Z extent) by (apply (inject_Z_le 1); lia).
  rewrite truediv_ok by lia. unfold fdiv. split; intros Hc.
  - assert (D : inject_Z extent <= fsub c (float_of_int origin)).
    { rewrite <- (fl_int extent) by lia. unfold fsub. apply fl_mono.
      rewrite Eo. rewrite inject_Z_plus in Hc. lra. }
    assert (C : Qmax 0 (Qmin (fsub c (float_of_int origin)) (inject_Z extent))
                == inject_Z extent).
    { rewrite Q.min_r by assumption. apply Q.max_r. lra. }
    f_equal. rewrite <- fl_1. apply fl_Qeq.
    assert (L : fl (Qmax 0 (Qmin (fsub c (float_of_int origin)) (inject_Z extent)))
                == inject_Z extent).
    { rewrite (fl_Qeq _ _ C). apply fl_int. lia. }
    rewrite L, Ee. field. lra.
  - assert (D : fsub c (float_of_int origin) <= 0).
    { rewrite <- fl_0. unfold fsub. apply fl_mono. rewrite Eo. lra. }
    assert (C : Qmax 0 (Qmin (fsub c (float_of_int origin)) (inject_Z extent)) == 0).
    { apply Q.max_l. apply Qle_trans with (fsub c (float_of_int origin));
        [apply Q.le_min_l | assumption]. }
    f_equal. rewrite <- fl_0. apply fl_Qeq.
    assert (L : fl (Qmax 0 (Qmin (fsub c (float_of_int origin)) (inject_Z extent))) == 0).
    { rewrite (fl_Qeq _ _ C). reflexivity. }
    rewrite L. unfold Qdiv. ring.
Qed.

End DragAxis.

(** X13: the ratio of a canvas point cannot be computed for a displayed
    image of zero width or height, the display info [(0, 0, 0, 0)] of a
    manager without preview included: the division raises
    [ZeroDivisionError].  For every other extent the ratio is computed
    and lies in the unit square. *)
Theorem ratio_from_pixel_fails_on_empty_image
    (coords : float * float) (img_x img_y img_w img_h : Z) :
  (img_w = 0 \/ img_h = 0 ->
   CanvasController.ratio_from_pixel coords (img_x, img_y, img_w, img_h)
   = Raise ZeroDivisionError) /\
  (img_w <> 0 /\ img_h <> 0 ->
   exists ratio,
     CanvasController.ratio_from_pixel coords (img_x, img_y, img_w, img_h) = Ok ratio /\
     unit_ratio ratio).
Proof.
  destruct coords as [cx cy]. split.
  - intros Z0. unfold CanvasController.ratio_from_pixel.
    destruct (Z.eq_dec img_w 0) as [-> | NW].
    + rewrite truediv_zero. reflexivity.
    + destruct Z0 as [Z0 | ->]; [contradiction |].
      rewrite (PyFacts.truediv_ok _ img_w) by assumption. cbn [mbind result_bind].
      rewrite truediv_zero. reflexivity.
  - intros [NW NH].
    destruct (CanvasController.ratio_from_pixel (cx, cy) (img_x, img_y, img_w, img_h))
      as [ratio | e] eqn:R.
    + exists ratio. split; [reflexivity |]. exact (ratio_from_pixel_unit _ _ _ R).
    + exfalso. unfold CanvasController.ratio_from_pixel in R.
      rewrite !PyFacts.truediv_ok in R by assumption. discriminate.
Qed.

(** X14: a point dragged to the far edge of the displayed image or beyond
    gives the ratio 1.0 exactly on that axis, and a point at the near edge
    or before it gives 0.0 exactly. *)
Theorem drag_beyond_edge_saturates (cx cy : float) (img_x img_y img_w img_h : Z) :
  Z.abs img_x < 2 ^ 53 -> Z.abs img_y < 2 ^ 53 ->
  1 <= img_w < 2 ^ 53 -> 1 <= img_h < 2 ^ 53 ->
  exists rx ry,
    CanvasController.ratio_from_pixel (cx, cy) (img_x, img_y, img_w, img_h) = Ok (rx, ry) /\
    ((inject_Z (img_x + img_w) <= cx)%Q -> rx = 1%Q) /\
    ((cx <= inject_Z img_x)%Q -> rx = 0%Q) /\
    ((inject_Z (img_y + img_h) <= cy)%Q -> ry = 1%Q) /\
    ((cy <= inject_Z img_y)%Q -> ry = 0%Q).
Proof.
  intros Hx Hy Hw Hh.
  destruct (axis_saturates cx img_x img_w Hx Hw) as [X1 X0].
  destruct (axis_saturates cy img_y img_h Hy Hh) as [Y1 Y0].
  unfold CanvasController.ratio_from_pixel.
  rewrite !PyFacts.truediv_ok in * by lia. cbn [mbind result_bind].
  eexists. eexists. split; [reflexivity |].
  repeat split; intros C.
  - specialize (X1 C). congruence.
  - specialize (X0 C). congruence.
  - specialize (Y1 C). congruence.
  - specialize (Y0 C). congruence.
Qed.

Lemma drag_beyond_edge_saturates_witness :
  exists rx ry,
    CanvasController.ratio_from_pixel (954, 1)%Q (350, 250, 200, 100) = Ok (rx, ry) /\
    ((inject_Z (350 + 200) <= 954)%Q -> rx = 1%Q) /\
    ((954 <= inject_Z 350)%Q -> rx = 0%Q) /\
    ((inject_Z (250 + 100) <= 1)%Q -> ry = 1%Q) /\
    ((1 <= inject_Z 250)%Q -> ry = 0%Q).
Proof. apply (drag_beyond_edge_saturates 954%Q 1%Q 350 250 200 100); lia. Defined.

(** X15: [update_watermark] puts the centre of the watermark item inside the
    displayed image: for an anchor ratio of the unit square the centre
    lies between the left and the right edge and between the top and the
    bottom edge, edges included. *)
Theorem item_center_inside_image (ratio : float * float) (img_x img_y img_w img_h : Z) :
  unit_ratio ratio -> 0 <= img_w < 2 ^ 53 -> 0 <= img_h < 2 ^ 53 ->
  let c := CanvasController.item_center ratio (img_x, img_y, img_w, img_h) in
  img_x <= fst c <= img_x + img_w /\ img_y <= snd c <= img_y + img_h.
Proof.
  intros (X0 & X1 & Y0 & Y1) Hw Hh. cbv zeta. unfold CanvasController.item_center.
  cbn [fst snd].
  pose proof (unit_times_extent (fst ratio) img_w X0 X1 Hw).
  pose proof (unit_times_extent (snd ratio) img_h Y0 Y1 Hh).
  lia.
Qed.

Lemma item_center_inside_image_witness :
  let c := CanvasController.item_center (fl (92 # 100), fl (8 # 100)) (350, 250, 200, 100) in
  350 <= fst c <= 350 + 200 /\ 250 <= snd c <= 250 + 100.
Proof.
  apply (item_center_inside_image (fl (92 # 100), fl (8 # 100)) 350 250 200 100);
    [vm_compute; repeat split; discriminate | lia | lia].
Defined.

(** X16: from a drag to the next redraw.  The ratio that [_on_motion]
    stores for a whole canvas point, handed to [update_watermark], puts
    the item back at the point clamped to the displayed image, or one
    pixel before it on either axis (a quotient times its divisor can fall
    just short of the dividend), and never before the near edge. *)
Theorem drag_then_redraw_within_a_pixel (kx ky img_x img_y img_w img_h : Z) :
  Z.abs kx < 2 ^ 31 -> Z.abs ky < 2 ^ 31 ->
  Z.abs img_x < 2 ^ 31 -> Z.abs img_y < 2 ^ 31 ->
  1 <= img_w < 2 ^ 31 -> 1 <= img_h < 2 ^ 31 ->
  exists ratio,
    CanvasController.ratio_from_pixel (inject_Z kx, inject_Z ky)
      (img_x, img_y, img_w, img_h) = Ok ratio /\
    let c := CanvasController.item_center ratio (img_x, img_y, img_w, img_h) in
    let px := img_x + Z.max 0 (Z.min (kx - img_x) img_w) in
    let py := img_y + Z.max 0 (Z.min (ky - img_y) img_h) in
    px - 1 <= fst c <= px /\ img_x <= fst c /\
    py - 1 <= snd c <= py /\ img_y <= snd c.
Proof.
  intros Hkx Hky Hx Hy Hw Hh.
  unfold CanvasController.ratio_from_pixel.
  rewrite (axis_ratio_int kx img_x img_w Hkx Hx Hw). cbn [mbind result_bind].
  rewrite (axis_ratio_int ky img_y img_h Hky Hy Hh). cbn [mbind result_bind].
  eexists. split; [reflexivity |]. cbv zeta.
  unfold CanvasController.item_center. cbn [fst snd].
  destruct (quotient_times_divisor (Z.max 0 (Z.min (kx - img_x) img_w)) img_w
              ltac:(lia) Hw) as [A1 A2].
  destruct (quotient_times_divisor (Z.max 0 (Z.min (ky - img_y) img_h)) img_h
              ltac:(lia) Hh) as [B1 B2].
  lia.
Qed.

Lemma drag_then_redraw_within_a_pixel_witness :
  exists ratio,
    CanvasController.ratio_from_pixel (inject_Z 379, inject_Z 300)
      (350, 250, 100, 100) = Ok ratio /\
    let c := CanvasController.item_center ratio (350, 250, 100, 100) in
    let px := 350 + Z.max 0 (Z.min (379 - 350) 100) in
    let py := 250 + Z.max 0 (Z.min (300 - 250) 100) in
    px - 1 <= fst c <= px /\ 350 <= fst c /\
    py - 1 <= snd c <= py /\ 250 <= snd c.
Proof. apply (drag_then_redraw_within_a_pixel 379 300 350 250 100 100); lia. Defined.

(** The pixel is lost indeed: a drag to x = 379 over an image 100 wide
    displayed at x = 350 stores 0.29, and the redraw puts the item at
    x = 378. *)
Lemma drag_then_redraw_loses_a_pixel :
  exists ratio,
    CanvasController.ratio_from_pixel (inject_Z 379, inject_Z 300)
      (350, 250, 100, 100) = Ok ratio /\
    CanvasController.item_center ratio (350, 250, 100, 100) = (378, 300).
Proof. eexists. split; [vm_compute; reflexivity | vm_compute; reflexivity]. Qed.

(* ===================================================================== *)
(** ** Further invariants of the UI controller                            *)
(* ===================================================================== *)

Section MoreUIInvariants.
Context `{PIL}.
Import UIController.

Lemma preview_manager (self : t) :
  image_manager (_update_watermark_preview self) = image_manager self.
Proof.
  unfold _update_watermark_preview.
  destruct (ImageManager.display_image _); [| reflexivity].
  destruct (WatermarkProcessor.create_watermark _ _ _); [| reflexivity].
  destruct (photo_image _); reflexivity.
Qed.

Lemma preview_processor (self : t) :
  watermark_processor (_update_watermark_preview self) = watermark_processor self.
Proof.
  unfold _update_watermark_preview.
  destruct (ImageManager.display_image _); [| reflexivity].
  destruct (WatermarkProcessor.create_watermark _ _ _); [| reflexivity].
  destruct (photo_image _); reflexivity.
Qed.

Lemma preview_pos_var (self : t) :
  pos_var (_update_watermark_preview self) = pos_var self.
Proof.
  unfold _update_watermark_preview.
  destruct (ImageManager.display_image _); [| reflexivity].
  destruct (WatermarkProcessor.create_watermark _ _ _); [| reflexivity].
  destruct (photo_image _); reflexivity.
Qed.

(** The item of the watermark is created only over a preview. *)
Lemma preview_item (self : t) :
  (watermark_id self <> None -> ImageManager.display_image (image_manager self) <> None) ->
  watermark_id (_update_watermark_preview self) <> None ->
  ImageManager.display_image (image_manager self) <> None.
Proof.
  unfold _update_watermark_preview.
  destruct (ImageManager.display_image (image_manager self)) as [d |] eqn:D.
  - intros _ _. discriminate.
  - intros I W. exact (I W).
Qed.

Lemma preview_keeps_item_over_preview (self : t) :
  item_over_preview self -> item_over_preview (_update_watermark_preview self).
Proof.
  intros [M I]. split.
  - rewrite preview_manager. exact M.
  - intros W. rewrite preview_manager. exact (preview_item self I W).
Qed.

Lemma handle_keeps_item_over_preview (self : t) (ev : event) :
  item_over_preview self -> item_over_preview (handle self ev).
Proof.
  intros Inv. pose proof Inv as [M I].
  destruct ev as [path | selected | txt fs sp rot op | selected | path
                 | r g b | path | x y | x y coords | ]; cbn [handle].
  - unfold _load_image. destruct (String.eqb path ""); [assumption |].
    pose proof (load_image_consistent 900 600 (image_manager self) path M) as M'.
    pose proof (load_image_keeps_display (image_manager self) path) as D'.
    destruct (ImageManager.load_image (image_manager self) path) as [im ok].
    cbn [fst] in M', D'.
    assert (J : item_over_preview
                  (mk (settings self) im (watermark_processor self) (watermark_id self)
                      (_drag_data self) (pos_var self))).
    { split; [exact M' |]. cbn. intros W. apply D'. apply I. exact W. }
    destruct ok; [| exact J].
    apply preview_keeps_item_over_preview. exact J.
  - apply preview_keeps_item_over_preview. exact Inv.
  - apply preview_keeps_item_over_preview. exact Inv.
  - unfold _on_position_preset. simpl.
    destruct (mapping !! selected); [| exact Inv].
    apply preview_keeps_item_over_preview. exact Inv.
  - unfold _choose_font. destruct (String.eqb path ""); [exact Inv |].
    apply preview_keeps_item_over_preview. exact Inv.
  - apply preview_keeps_item_over_preview. exact Inv.
  - unfold _choose_watermark_image. destruct (String.eqb path ""); [exact Inv |].
    destruct (open_rgba path); [| exact Inv].
    apply preview_keeps_item_over_preview. exact Inv.
  - exact Inv.
  - unfold _on_motion. destruct (watermark_id self) eqn:W; [| exact Inv].
    destruct (CanvasController.ratio_from_pixel _ _);
      (split; [exact M | intros _; apply I; discriminate]).
  - exact Inv.
Qed.

Lemma handle_keeps_text_alpha (self : t) (ev : event) :
  alpha_of (text_color (settings (handle self ev))) = alpha_of (text_color (settings self)).
Proof.
  destruct ev as [path | selected | txt fs sp rot op | selected | path
                 | r g b | path | x y | x y coords | ]; cbn [handle].
  - unfold _load_image. destruct (String.eqb path ""); [reflexivity |].
    destruct (ImageManager.load_image _ _) as [im ok].
    destruct ok; [| reflexivity]. rewrite preview_settings. reflexivity.
  - unfold _on_type_change. rewrite preview_settings. reflexivity.
  - unfold _update_settings. rewrite preview_settings.
    destruct fs as [fs |]; [| reflexivity].
    destruct sp as [sp |]; [| reflexivity].
    destruct rot as [rot |]; [| reflexivity].
    destruct op as [op |]; reflexivity.
  - unfold _on_position_preset. simpl.
    destruct (mapping !! selected); [| reflexivity].
    rewrite preview_settings. reflexivity.
  - unfold _choose_font. destruct (String.eqb path ""); [reflexivity |].
    rewrite preview_settings. reflexivity.
  - unfold _choose_color. rewrite preview_settings. reflexivity.
  - unfold _choose_watermark_image. destruct (String.eqb path ""); [reflexivity |].
    destruct (open_rgba path); [| reflexivity].
    rewrite preview_settings. reflexivity.
  - reflexivity.
  - unfold _on_motion. destruct (watermark_id self); [| reflexivity]. cbn.
    destruct (CanvasController.ratio_from_pixel _ _); reflexivity.
  - reflexivity.
Qed.

End MoreUIInvariants.

(** X17: whatever the user does, the text colour keeps the alpha 200 of the
    defaults: the colour chooser replaces red, green and blue and carries
    the alpha over, and no other handler writes the colour.  The opacity
    of a text watermark is therefore at most 200/255 of the opacity
    setting. *)
Theorem text_alpha_is_always_200 `{PIL} (evs : list UIController.event) :
  alpha_of (text_color (UIController.settings (UIController.run evs))) = 200 /\
  forall r g b,
    text_color (UIController.settings
                  (UIController.handle (UIController.run evs) (UIController.ColorChosen r g b)))
    = (r, g, b, 200).
Proof.
  assert (A : forall evs,
             alpha_of (text_color (UIController.settings (UIController.run evs))) = 200).
  { clear evs. intros evs. induction evs as [| ev evs IH] using rev_ind.
    - reflexivity.
    - rewrite run_app, handle_keeps_text_alpha. exact IH. }
  split; [apply A |]. intros r g b. cbn [UIController.handle].
  unfold UIController._choose_color. rewrite preview_settings. cbn. rewrite A. reflexivity.
Qed.

(** X18: in every state the UI controller can reach, the image manager keeps
    the 900x600 canvas and a preview that is the thumbnail of the current
    original, and the canvas item of the watermark exists only if a
    preview and an original are loaded: the drag handlers are never bound
    before an image has been opened. *)
Theorem watermark_item_needs_image `{PIL} (evs : list UIController.event) :
  let self := UIController.run evs in
  let m := UIController.image_manager self in
  manager_consistent 900 600 m /\
  (UIController.watermark_id self <> None ->
   ImageManager.display_image m <> None /\ ImageManager.original_image m <> None).
Proof.
  cbv zeta.
  assert (Inv : item_over_preview (UIController.run evs)).
  { induction evs as [| ev evs IH] using rev_ind.
    - split; [repeat split; intros C; exfalso; apply C; reflexivity |].
      intros C. exfalso. apply C. reflexivity.
    - rewrite run_app. apply handle_keeps_item_over_preview. exact IH. }
  destruct Inv as [M I]. split; [exact M |].
  intros W. specialize (I W). split; [exact I |].
  destruct M as (_ & _ & D & _). rewrite D in I.
  destruct (ImageManager.original_image _); [discriminate | exact I].
Qed.

(** Opening a background image.  When the dialog is cancelled or the
    file cannot be loaded, no setting changes.  When it loads, the anchor
    ratio is reset to (0.5, 0.5) and every other setting is kept; the
    position selector is not reset with it and keeps showing the preset
    chosen before. *)
Lemma load_recentres_watermark `{PIL} (self : UIController.t) (path : string) :
  let self' := UIController._load_image self path in
  UIController.pos_var self' = UIController.pos_var self /\
  UIController.watermark_processor self' = UIController.watermark_processor self /\
  (path = "" \/ snd (ImageManager.load_image (UIController.image_manager self) path) = false ->
   UIController.settings self' = UIController.settings self) /\
  (path <> "" /\ snd (ImageManager.load_image (UIController.image_manager self) path) = true ->
   UIController.settings self'
   = set_anchor_ratio (UIController.settings self) (fl (1 # 2), fl (1 # 2))).
Proof.
  cbv zeta. unfold UIController._load_image.
  destruct (String.eqb_spec path "") as [-> | NE].
  - repeat split. intros [C _]. contradiction.
  - destruct (ImageManager.load_image (UIController.image_manager self) path) as [im ok].
    cbn [snd]. destruct ok.
    + rewrite preview_pos_var, preview_processor, preview_settings. cbn.
      repeat split. intros [C | C]; [contradiction | discriminate].
    + cbn. repeat split. intros [_ C]. discriminate.
Qed.

(* ===================================================================== *)
(** ** The canvas controller and its canvas                               *)
(* ===================================================================== *)

Section CanvasItems.
Context `{PIL}.
Import CanvasController.

Lemma alter_missing (f : Canvas.item -> Canvas.item) (id : Z) (m : gmap Z Canvas.item) :
  m !! id = None -> alter f id m = m.
Proof.
  intros N. apply map_eq. intros k. destruct (decide (k = id)) as [-> | NE].
  - rewrite lookup_alter_eq, N. reflexivity.
  - rewrite lookup_alter_ne by congruence. reflexivity.
Qed.

Lemma perform_all_app (self : t) (calls : list call) (c : call) :
  perform_all self (calls ++ [c]) = perform (perform_all self calls) c.
Proof. unfold perform_all. rewrite fold_left_app. reflexivity. Qed.

(** Ids are given out in increasing order. *)
Lemma perform_keeps_issued (self : t) (c : call) :
  item_id_issued self -> item_id_issued (perform self c).
Proof.
  unfold item_id_issued. intros I.
  destruct c as [im | im wm s | x y | im x y | ]; cbn [perform].
  - unfold update_background. destruct (ImageManager.display_photo im); [| exact I].
    destruct (ImageManager.get_display_info im) as [[[img_x img_y] img_w] img_h].
    cbn. intros id W. specialize (I id W). lia.
  - unfold update_watermark. destruct (ImageManager.display_image im); [| exact I].
    destruct (photo_image wm); [| exact I].
    destruct (item_center _ _) as [cx cy].
    destruct (watermark_id self) as [wid |] eqn:W.
    + cbn. intros id E. apply I. first [exact E | rewrite W; exact E].
    + cbn. intros id E. inversion E. lia.
  - exact I.
  - unfold _on_motion. destruct (watermark_id self) as [wid |] eqn:W.
    + destruct (on_position_change self);
        [| cbn; intros id E; apply I; first [exact E | rewrite W; exact E]].
      destruct (Canvas.coords _ _);
        [| cbn; intros id E; apply I; first [exact E | rewrite W; exact E]].
      destruct (ratio_from_pixel _ _); cbn; intros id E; apply I; first [exact E | rewrite W; exact E].
    + cbn. intros id E. first [discriminate | rewrite W in E; discriminate].
  - exact I.
Qed.

Lemma reachable_issued (calls : list call) :
  item_id_issued (perform_all (__init__ Canvas.empty) calls).
Proof.
  induction calls as [| c calls IH] using rev_ind.
  - intros id W. discriminate.
  - rewrite perform_all_app. apply perform_keeps_issued. exact IH.
Qed.

(** Once lost, the watermark item stays lost, and the canvas holds
    background items only. *)
Lemma perform_keeps_lost (self : t) (c : call) :
  watermark_item_lost self /\ only_background self ->
  (watermark_item_lost (perform self c) /\ only_background (perform self c)) /\
  watermark_id (perform self c) = watermark_id self.
Proof.
  intros [(id & W & N & I) B].
  destruct c as [im | im wm s | x y | im x y | ]; cbn [perform].
  - unfold update_background.
    destruct (ImageManager.display_photo im); [| split; [split; [exists id |] |]; auto].
    destruct (ImageManager.get_display_info im) as [[[img_x img_y] img_w] img_h].
    cbn. split; [split |]; [| | reflexivity].
    + exists id. cbn [canvas watermark_id Canvas.items Canvas.next_id].
      split; [exact W |]. split; [| lia].
      rewrite lookup_insert_ne by lia. apply lookup_empty.
    + intros k it. cbn [canvas watermark_id Canvas.items Canvas.next_id].
      destruct (decide (k = Canvas.next_id (canvas self))) as [-> | NE].
      * rewrite lookup_insert_eq. intros E. inversion E. reflexivity.
      * rewrite lookup_insert_ne by congruence. rewrite lookup_empty. discriminate.
  - unfold update_watermark.
    destruct (ImageManager.display_image im); [| split; [split; [exists id |] |]; auto].
    destruct (photo_image wm); [| split; [split; [exists id |] |]; auto].
    destruct (item_center _ _) as [cx cy]. rewrite W.
    unfold Canvas.itemconfig, Canvas.set_coords. cbn.
    rewrite (alter_missing _ id (Canvas.items (canvas self)) N).
    rewrite (alter_missing _ id (Canvas.items (canvas self)) N).
    split; [split; [exists id |] |]; auto.
  - split; [split; [exists id |] |]; auto.
  - unfold _on_motion. rewrite W.
    assert (M : Canvas.move (canvas self) id (x - fst (_drag_data self))
                  (y - snd (_drag_data self)) = canvas self).
    { unfold Canvas.move. rewrite (alter_missing _ id _ N). destruct (canvas self).
      reflexivity. }
    rewrite M.
    destruct (on_position_change self);
      [| cbn; split; [split; [exists id |] |]; auto].
    destruct (Canvas.coords _ _);
      [| cbn; split; [split; [exists id |] |]; auto].
    destruct (ratio_from_pixel _ _); cbn; (split; [split; [exists id |] |]; auto).
  - split; [split; [exists id |] |]; auto.
Qed.

Lemma perform_all_keeps_lost (calls : list call) (self : t) :
  watermark_item_lost self /\ only_background self ->
  (watermark_item_lost (perform_all self calls) /\ only_background (perform_all self calls)) /\
  watermark_id (perform_all self calls) = watermark_id self.
Proof.
  intros L. induction calls as [| c calls IH] using rev_ind.
  - split; [exact L | reflexivity].
  - rewrite perform_all_app. destruct IH as [IH E].
    destruct (perform_keeps_lost _ c IH) as [K E']. split; [exact K | congruence].
Qed.

(** One motion event moves the item by the displacement of the pointer
    since the previous event. *)
Lemma motion_moves_item (self : t) (im : ImageManager.t) (qx qy x y : Z) :
  item_at self qx qy ->
  Z.abs (qx - fst (_drag_data self)) < 2 ^ 32 ->
  Z.abs (qy - snd (_drag_data self)) < 2 ^ 32 ->
  Z.abs (fst (_drag_data self)) < 2 ^ 31 -> Z.abs (snd (_drag_data self)) < 2 ^ 31 ->
  Z.abs x < 2 ^ 31 -> Z.abs y < 2 ^ 31 ->
  let self' := fst (_on_motion self im x y) in
  item_at self' (qx + (x - fst (_drag_data self))) (qy + (y - snd (_drag_data self))) /\
  _drag_data self' = (x, y).
Proof.
  intros (id & it & W & L & Px & Py) Bx By Dx Dy Hx Hy. cbv zeta.
  unfold _on_motion. rewrite W.
  set (dx := x - fst (_drag_data self)). set (dy := y - snd (_drag_data self)).
  assert (S : forall (s : t) (m : motion),
             fst (if on_position_change self
                  then match Canvas.coords (Canvas.move (canvas self) id dx dy) id with
                       | Some coords =>
                           match ratio_from_pixel coords (ImageManager.get_display_info im) with
                           | Ok new_ratio => (s, Dragged new_ratio)
                           | Raise e => (s, DivisionFailed e)
                           end
                       | None => (s, UnpackFailed)
                       end
                  else (s, m)) = s).
  { intros s m. destruct (on_position_change self); [| reflexivity].
    destruct (Canvas.coords _ _); [| reflexivity].
    destruct (ratio_from_pixel _ _); reflexivity. }
  cbn [canvas]. rewrite S. cbn [_drag_data]. split; [| reflexivity].
  exists id. eexists. cbn [watermark_id canvas Canvas.move Canvas.items].
  split; [first [exact W | reflexivity] |]. split.
  - rewrite lookup_alter_eq, L. reflexivity.
  - cbn [Canvas.position fst snd].
    assert (A : forall p q d, (p == inject_Z q)%Q -> Z.abs (q + d) < 2 ^ 53 ->
                              Z.abs d < 2 ^ 53 ->
                              (fl (p + float_of_int d) == inject_Z (q + d))%Q).
    { intros p q d E B1 B2.
      assert (E' : (p + float_of_int d == inject_Z (q + d))%Q).
      { rewrite E, (PyFacts.float_of_int_exact d), inject_Z_plus by assumption.
        reflexivity. }
      rewrite (PyFacts.fl_Qeq _ _ E'). apply PyFacts.fl_int. assumption. }
    split; apply A; try assumption; unfold dx, dy; lia.
Qed.

Lemma last_cons (p d : Z * Z) (rest : list (Z * Z)) :
  List.last (p :: rest) d = List.last rest p.
Proof.
  revert p d. induction rest as [| q rest IH]; intros p d; [reflexivity |].
  change (List.last (p :: q :: rest) d) with (List.last (q :: rest) d).
  rewrite (IH q d), (IH q p). reflexivity.
Qed.

Lemma drag_telescopes (im : ImageManager.t) (path : list (Z * Z)) :
  forall (self : t) (qx qy : Z),
    item_at self qx qy ->
    Z.abs (qx - fst (_drag_data self)) < 2 ^ 32 ->
    Z.abs (qy - snd (_drag_data self)) < 2 ^ 32 ->
    Z.abs (fst (_drag_data self)) < 2 ^ 31 -> Z.abs (snd (_drag_data self)) < 2 ^ 31 ->
    Forall (fun p => Z.abs (fst p) < 2 ^ 31 /\ Z.abs (snd p) < 2 ^ 31) path ->
    let final := fold_left (fun s p => fst (_on_motion s im (fst p) (snd p))) path self in
    let last := List.last path (_drag_data self) in
    item_at final (qx + (fst last - fst (_drag_data self)))
                  (qy + (snd last - snd (_drag_data self))) /\
    _drag_data final = last.
Proof.
  induction path as [| p path IH]; intros self qx qy At Bx By Dx Dy Hp; cbv zeta.
  - cbn [fold_left List.last]. rewrite !Z.sub_diag, !Z.add_0_r.
    split; [exact At | reflexivity].
  - inversion Hp as [| p' path' [Hx Hy] Hrest]. subst p' path'.
    destruct (motion_moves_item self im qx qy (fst p) (snd p) At Bx By Dx Dy Hx Hy)
      as [At' D'].
    cbv zeta in At', D'. cbn [fold_left].
    set (self' := fst (_on_motion self im (fst p) (snd p))) in *.
    specialize (IH self' _ _ At').
    rewrite D' in IH. cbn [fst snd] in IH.
    specialize (IH ltac:(lia) ltac:(lia) ltac:(lia) ltac:(lia) Hrest). cbv zeta in IH.
    rewrite last_cons. destruct p as [x y]. cbn [fst snd] in *.
    destruct IH as [IH1 IH2]. split; [| exact IH2].
    match goal with
    | K : item_at ?f ?a ?b |- item_at ?f ?a' ?b' =>
        replace a' with a by lia; replace b' with b by lia; exact K
    end.
Qed.

End CanvasItems.

(** X19: loading another background removes the watermark from the preview
    for good.  [update_background] deletes every canvas item and draws
    the background, but [watermark_id] keeps the id of the deleted item;
    from then on [update_watermark] and the drag handlers address that
    id, which designates nothing, and no watermark item is created
    again: whatever calls follow, the canvas holds background items only. *)
Theorem reload_loses_watermark_item `{PIL}
    (calls_before calls_after : list CanvasController.call) (im : ImageManager.t) :
  let before :=
    CanvasController.perform_all (CanvasController.__init__ Canvas.empty) calls_before in
  CanvasController.watermark_id before <> None ->
  ImageManager.display_photo im <> None ->
  let after :=
    CanvasController.perform_all (CanvasController.update_background before im)
      calls_after in
  CanvasController.watermark_id after = CanvasController.watermark_id before /\
  (forall id, CanvasController.watermark_id after = Some id ->
              Canvas.coords (CanvasController.canvas after) id = None) /\
  (forall k it, Canvas.items (CanvasController.canvas after) !! k = Some it ->
                Canvas.tags it = ["bg"]).
Proof.
  intros before W P after.
  pose proof (reachable_issued calls_before) as I. fold before in I.
  destruct (CanvasController.watermark_id before) as [id |] eqn:Wid; [| contradiction].
  destruct (ImageManager.display_photo im) as [photo |] eqn:Ph; [| contradiction].
  specialize (I id Wid).
  assert (L : watermark_item_lost (CanvasController.update_background before im) /\
              only_background (CanvasController.update_background before im)).
  { unfold CanvasController.update_background. rewrite Ph.
    destruct (ImageManager.get_display_info im) as [[[img_x img_y] img_w] img_h].
    split.
    - exists id. cbn. split; [exact Wid |]. split; [| lia].
      rewrite lookup_insert_ne by lia. apply lookup_empty.
    - intros k it. cbn.
      destruct (decide (k = Canvas.next_id (CanvasController.canvas before))) as [-> | NE].
      + rewrite lookup_insert_eq. intros E. inversion E. reflexivity.
      + rewrite lookup_insert_ne by congruence. rewrite lookup_empty. discriminate. }
  destruct (perform_all_keeps_lost calls_after _ L) as [[(id' & W' & N' & _) B] E].
  fold after in W', N', B, E.
  assert (E0 : CanvasController.watermark_id (CanvasController.update_background before im)
               = Some id).
  { unfold CanvasController.update_background. rewrite Ph.
    destruct (ImageManager.get_display_info im) as [[[img_x img_y] img_w] img_h].
    exact Wid. }
  split; [congruence |]. split; [| exact B].
  intros k Wk. unfold Canvas.coords. assert (k = id') by congruence. subst k.
  rewrite N'. reflexivity.
Qed.

Lemma reload_loses_watermark_item_witness :
  let im := fst (ImageManager.load_image (H := Reference.pil)
                   (ImageManager.__init__ 900 600) "photo.png") in
  let show := CanvasController.UpdateWatermark im Reference.photo default_settings in
  let before :=
    CanvasController.perform_all (H := Reference.pil)
      (CanvasController.__init__ Canvas.empty)
      [CanvasController.UpdateBackground im; show] in
  let after :=
    CanvasController.perform_all (CanvasController.update_background before im)
      [show; CanvasController.Press 450 300; CanvasController.Motion im 460 310] in
  CanvasController.watermark_id before = Some 2 /\
  CanvasController.watermark_id after = CanvasController.watermark_id before /\
  (forall id, CanvasController.watermark_id after = Some id ->
              Canvas.coords (CanvasController.canvas after) id = None) /\
  (forall k it, Canvas.items (CanvasController.canvas after) !! k = Some it ->
                Canvas.tags it = ["bg"]).
Proof.
  intros im show before after. split; [reflexivity |].
  apply (reload_loses_watermark_item (H := Reference.pil)
           [CanvasController.UpdateBackground im; show]
           [show; CanvasController.Press 450 300; CanvasController.Motion im 460 310] im);
    discriminate.
Defined.

(** X20: during a drag the watermark item follows the pointer.  After a
    press at a point and any sequence of motion events, an item that sat
    at a whole point has moved by exactly the displacement of the pointer
    from the press to the last event, without any clamp to the displayed
    image (only the ratio handed to the callback is clamped), and the
    drag data hold the last pointer position. *)
Theorem drag_follows_pointer `{PIL} (self : CanvasController.t) (im : ImageManager.t)
    (qx qy x0 y0 : Z) (path : list (Z * Z)) :
  item_at self qx qy ->
  Z.abs qx < 2 ^ 31 -> Z.abs qy < 2 ^ 31 -> Z.abs x0 < 2 ^ 31 -> Z.abs y0 < 2 ^ 31 ->
  Forall (fun p => Z.abs (fst p) < 2 ^ 31 /\ Z.abs (snd p) < 2 ^ 31) path ->
  let final :=
    fold_left (fun s p => fst (CanvasController._on_motion s im (fst p) (snd p))) path
      (CanvasController._on_press self x0 y0) in
  let last := List.last path (x0, y0) in
  item_at final (qx + (fst last - x0)) (qy + (snd last - y0)) /\
  CanvasController._drag_data final = last.
Proof.
  intros At Hqx Hqy Hx0 Hy0 Hp.
  apply (drag_telescopes im path (CanvasController._on_press self x0 y0) qx qy);
    [exact At | cbn; lia | cbn; lia | cbn; lia | cbn; lia | exact Hp].
Qed.

Lemma drag_follows_pointer_witness :
  let im := fst (ImageManager.load_image (H := Reference.pil)
                   (ImageManager.__init__ 900 600) "photo.png") in
  let self :=
    CanvasController.mk (H := Reference.pil)
      (snd (Canvas.create_image (H := Reference.pil) Canvas.empty 450 300
              ((4, 2) : @PhotoImage Reference.pil) "center" ["watermark"]))
      None (Some 1) None (0, 0) true in
  let final :=
    fold_left (fun s p => fst (CanvasController._on_motion s im (fst p) (snd p)))
      [(452, 303); (470, 290); (1200, -40)]
      (CanvasController._on_press self 451 301) in
  item_at final (450 + (1200 - 451)) (300 + (-40 - 301)) /\
  CanvasController._drag_data final = (1200, -40).
Proof.
  intros im self.
  apply (drag_follows_pointer (H := Reference.pil) self im 450 300 451 301
           [(452, 303); (470, 290); (1200, -40)]).
  - exists 1. eexists. split; [reflexivity |]. split; [apply lookup_insert_eq |].
    split; reflexivity.
  - lia.
  - lia.
  - lia.
  - lia.
  - repeat constructor; simpl; lia.
Defined.

(* ===================================================================== *)
(** ** Saving the watermarked image                                       *)
(* ===================================================================== *)

Section Suffixes.
Local Open Scope string_scope.

Lemma append_cons (c : ascii) (a b : string) : String c a ++ b = String c (a ++ b).
Proof. reflexivity. Qed.

Lemma lower_app (a b : string) : lower (a ++ b) = lower a ++ lower b.
Proof.
  induction a as [| c a IH]; [reflexivity |].
  rewrite append_cons. cbn [lower]. rewrite IH, append_cons. reflexivity.
Qed.

Lemma lower_length (s : string) : String.length (lower s) = String.length s.
Proof. induction s as [| c s IH]; [reflexivity |]. cbn. rewrite IH. reflexivity. Qed.

Lemma lower_substring (s : string) :
  forall i n, lower (substring i n s) = substring i n (lower s).
Proof.
  induction s as [| c s IH]; intros i n.
  - destruct i, n; reflexivity.
  - destruct i as [| i].
    + destruct n as [| n]; [reflexivity |]. cbn. rewrite IH. reflexivity.
    + cbn. apply IH.
Qed.

Lemma substring_all (s : string) : substring 0 (String.length s) s = s.
Proof. induction s as [| c s IH]; [reflexivity |]. cbn. rewrite IH. reflexivity. Qed.

Lemma substring_after (a b : string) :
  substring (String.length a) (String.length b) (a ++ b) = b.
Proof.
  induction a as [| c a IH]; [apply substring_all |].
  rewrite append_cons. exact IH.
Qed.

Lemma append_length (a b : string) :
  String.length (a ++ b) = (String.length a + String.length b)%nat.
Proof.
  induction a as [| c a IH]; [reflexivity |].
  rewrite append_cons. cbn [String.length]. rewrite IH. reflexivity.
Qed.

Lemma substring_cut (s : string) :
  forall k, (k <= String.length s)%nat ->
            s = substring 0 k s ++ substring k (String.length s - k) s.
Proof.
  induction s as [| c s IH]; intros k Hk.
  - destruct k; [reflexivity | cbn in Hk; lia].
  - destruct k as [| k].
    + cbn [substring String.length Nat.sub]. rewrite substring_all. reflexivity.
    + cbn [String.length] in Hk. cbn [substring String.length Nat.sub].
      rewrite append_cons. f_equal. apply IH. lia.
Qed.

Lemma endswith_app (a b : string) : endswith (a ++ b) b = true.
Proof.
  unfold endswith. rewrite append_length.
  replace (String.length a + String.length b - String.length b)%nat
    with (String.length a) by lia.
  rewrite substring_after, String.eqb_refl.
  rewrite andb_true_r. apply Nat.leb_le. lia.
Qed.

(** A string ends with a suffix in lower case exactly when it splits into
    a stem and an extension that is the suffix up to the case of its
    letters. *)
Lemma endswith_lower (path suffix : string) :
  endswith (lower path) suffix = true <->
  exists stem ext, path = stem ++ ext /\ lower ext = suffix.
Proof.
  split.
  - unfold endswith. rewrite lower_length. intros E.
    apply andb_true_iff in E. destruct E as [L E].
    apply Nat.leb_le in L. apply String.eqb_eq in E.
    set (n := String.length path) in *. set (m := String.length suffix) in *.
    exists (substring 0 (n - m) path), (substring (n - m) m path). split.
    + pose proof (substring_cut path (n - m) ltac:(lia)) as C.
      replace (String.length path - (n - m))%nat with m in C by (unfold n; lia).
      exact C.
    + rewrite lower_substring. exact E.
  - intros (stem & ext & -> & <-). rewrite lower_app. apply endswith_app.
Qed.

End Suffixes.

Section Saving.
Context `{PIL}.
Import UIController.

Lemma composite_transparent (dst : Pixel) : composite_pixel dst (0, 0, 0, 0) = dst.
Proof. destruct dst as [[[r g] b] a]. reflexivity. Qed.

(** The calls that [_save_image] makes before it saves, and what it
    hands to [save]. *)
Lemma save_reaches_result (self : t) (path : string) (save : save_call -> result unit)
    (call : save_call) :
  attempted (_save_image self path save) = Some call ->
  exists original overlay result,
    ImageManager.original_image (image_manager self) = Some original /\
    WatermarkProcessor.create_overlay (watermark_processor self) (size original)
      (settings self) = Ok overlay /\
    alpha_composite original overlay = Some result /\
    path <> "" /\
    call = (if endswith (lower path) ".jpg" || endswith (lower path) ".jpeg"
            then SaveJPEG path (convert_RGB result) 95
            else SavePNG path result).
Proof.
  unfold _save_image.
  destruct (ImageManager.original_image (image_manager self)) as [original |];
    [| discriminate].
  destruct (String.eqb_spec path "") as [-> | NE]; [discriminate |].
  destruct (WatermarkProcessor.create_overlay _ _ _) as [overlay | e] eqn:V;
    [| discriminate].
  destruct (alpha_composite original overlay) as [result |] eqn:A;
    [| discriminate].
  cbv zeta. intros C. exists original, overlay, result.
  repeat split; try assumption; try reflexivity.
  destruct (save _); cbn [attempted] in C; congruence.
Qed.

Lemma alpha_composite_same_size (im1 im2 : Image) :
  size im2 = size im1 ->
  alpha_composite im1 im2
  = Some (mkImage (width im1) (height im1)
            (fun x y => composite_pixel (getpixel im1 x y) (getpixel im2 x y))).
Proof.
  unfold size. intros E. inversion E as [[Ew Eh]].
  unfold alpha_composite. rewrite Ew, Eh, !Z.eqb_refl. reflexivity.
Qed.

(** Once the overlay is built, [save] is called and decides how
    [_save_image] ends. *)
Lemma save_after_overlay (self : t) (path : string) (save : save_call -> result unit)
    (original overlay : Image) :
  ImageManager.original_image (image_manager self) = Some original ->
  path <> "" ->
  WatermarkProcessor.create_overlay (watermark_processor self) (size original)
    (settings self) = Ok overlay ->
  exists result call,
    alpha_composite original overlay = Some result /\
    size result = size original /\
    (forall x y, getpixel result x y
                 = composite_pixel (getpixel original x y) (getpixel overlay x y)) /\
    call = (if endswith (lower path) ".jpg" || endswith (lower path) ".jpeg"
            then SaveJPEG path (convert_RGB result) 95
            else SavePNG path result) /\
    _save_image self path save
    = match save call with
      | Ok _ => Saved call
      | Raise _ => CouldNotSave (Some call)
      end.
Proof.
  intros O NE V. unfold _save_image. rewrite O.
  destruct (String.eqb_spec path "") as [E | _]; [contradiction |].
  rewrite V. unfold size in V.
  destruct (create_overlay_pixels _ _ _ _ _ V) as (sprite & _ & Sz & _).
  rewrite (alpha_composite_same_size original overlay Sz). cbv zeta.
  eexists. eexists. split; [reflexivity |]. split; [reflexivity |].
  split; [intros x y; reflexivity |]. split; reflexivity.
Qed.

End Saving.

(** On the small implementation, with "photo.png" open and the default
    text watermark: the extension in capitals is saved as JPEG, and a
    path that only contains ".jpg" is saved as it is. *)
Lemma save_format_examples (save : UIController.save_call -> result unit) :
  let loaded := UIController.run (H := Reference.pil) [UIController.OpenImage "photo.png"] in
  (exists image,
      UIController.attempted (UIController._save_image loaded "HOLIDAY.JPG" save)
      = Some (UIController.SaveJPEG "HOLIDAY.JPG" image 95)) /\
  (exists image,
      UIController.attempted (UIController._save_image loaded "holiday.jpg.png" save)
      = Some (UIController.SavePNG "holiday.jpg.png" image)).
Proof.
  intros loaded.
  destruct (text_overlay_ok (H := Reference.pil)
              (UIController.watermark_processor loaded) 4 2
              (UIController.settings loaded) eq_refl) as (overlay & V & Sz).
  split.
  - destruct (save_after_overlay (H := Reference.pil) loaded "HOLIDAY.JPG" save
                Reference.photo overlay eq_refl ltac:(discriminate) V)
      as (result & call & _ & _ & _ & C & S).
    change (endswith (lower "HOLIDAY.JPG") ".jpg" || endswith (lower "HOLIDAY.JPG") ".jpeg")
      with true in C. cbv iota in C.
    subst call. exists (convert_RGB result). rewrite S.
    destruct (save _); reflexivity.
  - destruct (save_after_overlay (H := Reference.pil) loaded "holiday.jpg.png" save
                Reference.photo overlay eq_refl ltac:(discriminate) V)
      as (result & call & _ & _ & _ & C & S).
    change (endswith (lower "holiday.jpg.png") ".jpg"
            || endswith (lower "holiday.jpg.png") ".jpeg") with false in C.
    cbv iota in C.
    subst call. exists result. rewrite S.
    destruct (save _); reflexivity.
Qed.

(** X21: saving changes the original only where the watermark is.  The
    image handed to [save] has the size of the original, and every pixel
    outside the rectangle of the sprite, or under a fully transparent
    pixel of the sprite, is the pixel of the original: in all four
    channels when the composite is saved as it is, and in the three
    colours when a path in ".jpg" or ".jpeg" has it converted to RGB,
    which drops the alpha band.  This holds of every call of [save],
    whether [save] then returns or raises. *)
Theorem save_keeps_pixels_outside_watermark `{PIL} (self : UIController.t)
    (path : string) (save : UIController.save_call -> result unit)
    (call : UIController.save_call) :
  UIController.attempted (UIController._save_image self path save) = Some call ->
  exists original sprite,
    ImageManager.original_image (UIController.image_manager self) = Some original /\
    WatermarkProcessor.create_watermark (UIController.watermark_processor self)
      (size original) (UIController.settings self) = Ok sprite /\
    let c := WatermarkProcessor.placement_center
               (anchor_ratio (UIController.settings self)) (size original) in
    let x0 := WatermarkProcessor.top_left (fst c) (width sprite) in
    let y0 := WatermarkProcessor.top_left (snd c) (height sprite) in
    match call with
    | UIController.SavePNG p image =>
        p = path /\ size image = size original /\
        forall x y,
          ~ (x0 <= x < x0 + width sprite /\ y0 <= y < y0 + height sprite) \/
          alpha_at sprite (x - x0) (y - y0) = 0 ->
          getpixel image x y = getpixel original x y
    | UIController.SaveJPEG p image quality =>
        p = path /\ quality = 95 /\
        (rgb_width image, rgb_height image) = size original /\
        forall x y,
          ~ (x0 <= x < x0 + width sprite /\ y0 <= y < y0 + height sprite) \/
          alpha_at sprite (x - x0) (y - y0) = 0 ->
          rgb_getpixel image x y = rgb_of (getpixel original x y)
    end.
Proof.
  intros S. destruct (save_reaches_result self path save call S)
    as (original & overlay & result & O & V & A & _ & C).
  exists original. unfold size in V.
  destruct (create_overlay_pixels _ _ _ _ _ V) as (sprite & W & Sz & P).
  exists sprite. split; [exact O |]. split; [exact W |].
  rewrite (alpha_composite_same_size original overlay Sz) in A.
  inversion A. subst result. clear A.
  assert (K : forall x y,
             ~ (WatermarkProcessor.top_left
                  (fst (WatermarkProcessor.placement_center
                          (anchor_ratio (UIController.settings self)) (size original)))
                  (width sprite) <= x
                < WatermarkProcessor.top_left
                    (fst (WatermarkProcessor.placement_center
                            (anchor_ratio (UIController.settings self)) (size original)))
                    (width sprite) + width sprite /\
                WatermarkProcessor.top_left
                  (snd (WatermarkProcessor.placement_center
                          (anchor_ratio (UIController.settings self)) (size original)))
                  (height sprite) <= y
                < WatermarkProcessor.top_left
                    (snd (WatermarkProcessor.placement_center
                            (anchor_ratio (UIController.settings self)) (size original)))
                    (height sprite) + height sprite) \/
             alpha_at sprite
               (x - WatermarkProcessor.top_left
                      (fst (WatermarkProcessor.placement_center
                              (anchor_ratio (UIController.settings self)) (size original)))
                      (width sprite))
               (y - WatermarkProcessor.top_left
                      (snd (WatermarkProcessor.placement_center
                              (anchor_ratio (UIController.settings self)) (size original)))
                      (height sprite)) = 0 ->
             composite_pixel (getpixel original x y) (getpixel overlay x y)
             = getpixel original x y).
  { cbv zeta in P. intros x y D. rewrite P.
    change (size original) with (width original, height original) in D.
    match goal with |- context [if ?b then _ else _] => destruct b eqn:B end.
    - apply inside_box in B. destruct D as [D | D]; [contradiction |].
      rewrite D. destruct (getpixel sprite _ _) as [[[r g] b] a].
      rewrite blend_onto_transparent, !Z.mul_0_r. apply composite_transparent.
    - apply composite_transparent. }
  cbv zeta. subst call.
  destruct (endswith (lower path) ".jpg" || endswith (lower path) ".jpeg").
  - split; [reflexivity |]. split; [reflexivity |]. split; [reflexivity |].
    intros x y D. cbn [convert_RGB rgb_getpixel getpixel]. rewrite (K x y D). reflexivity.
  - split; [reflexivity |]. split; [reflexivity |].
    intros x y D. cbn [getpixel]. apply (K x y D).
Qed.

Lemma save_keeps_pixels_outside_watermark_witness :
  let loaded := UIController.run (H := Reference.pil) [UIController.OpenImage "photo.png"] in
  let save := fun _ : UIController.save_call => Ok tt in
  exists rgb image sprite,
    UIController.attempted (UIController._save_image loaded "HOLIDAY.JPG" save)
    = Some (UIController.SaveJPEG "HOLIDAY.JPG" rgb 95) /\
    UIController.attempted (UIController._save_image loaded "holiday.jpg.png" save)
    = Some (UIController.SavePNG "holiday.jpg.png" image) /\
    WatermarkProcessor.create_watermark (H := Reference.pil)
      (UIController.watermark_processor loaded)
      (size Reference.photo) (UIController.settings loaded) = Ok sprite /\
    let c := WatermarkProcessor.placement_center
               (anchor_ratio (UIController.settings loaded)) (size Reference.photo) in
    let x0 := WatermarkProcessor.top_left (fst c) (width sprite) in
    let y0 := WatermarkProcessor.top_left (snd c) (height sprite) in
    (rgb_width rgb, rgb_height rgb) = (4, 2) /\
    size image = (4, 2) /\
    forall x y,
      ~ (x0 <= x < x0 + width sprite /\ y0 <= y < y0 + height sprite) \/
      alpha_at sprite (x - x0) (y - y0) = 0 ->
      rgb_getpixel rgb x y = rgb_of (getpixel Reference.photo x y) /\
      getpixel image x y = getpixel Reference.photo x y.
Proof.
  intros loaded save.
  destruct (save_format_examples save) as [[rgb SJ] [image SP]].
  fold loaded in SJ, SP.
  destruct (save_keeps_pixels_outside_watermark (H := Reference.pil) loaded
              "HOLIDAY.JPG" save _ SJ) as (o1 & sprite1 & O1 & W1 & _ & _ & Z1 & R1).
  destruct (save_keeps_pixels_outside_watermark (H := Reference.pil) loaded
              "holiday.jpg.png" save _ SP) as (o2 & sprite2 & O2 & W2 & _ & Z2 & R2).
  assert (E1 : Some o1 = Some Reference.photo) by (rewrite <- O1; reflexivity).
  assert (E2 : Some o2 = Some Reference.photo) by (rewrite <- O2; reflexivity).
  injection E1 as E1. injection E2 as E2. subst o1 o2.
  assert (E : sprite2 = sprite1) by congruence. subst sprite2.
  exists rgb, image, sprite1.
  split; [exact SJ |]. split; [exact SP |]. split; [exact W1 |].
  cbv zeta. split; [exact Z1 |]. split; [exact Z2 |].
  intros x y D. split; [apply (R1 x y D) | apply (R2 x y D)].
Defined.

(** X22: how [_save_image] ends.  Without a background it reports the
    error and asks for no path; with a cancelled dialog it does nothing.
    Otherwise an exception while the overlay is built ends it with "Could
    not save image" before [save] is reached, as for an image watermark
    whose asset is zero pixels wide.  Once the overlay is built the
    composition cannot fail on a size mismatch: [save] is called, with
    the path as given and the composite, which has the size of the
    original (converted to RGB, with quality 95, for a path in ".jpg" or
    ".jpeg"), and the run ends with "Saved" if [save] returns and with
    "Could not save image" if it raises. *)
Theorem save_image_outcomes `{PIL} (self : UIController.t) (path : string)
    (save : UIController.save_call -> result unit) :
  (ImageManager.original_image (UIController.image_manager self) = None ->
   UIController._save_image self path save = UIController.NoBackground) /\
  (forall original,
      ImageManager.original_image (UIController.image_manager self) = Some original ->
      (path = "" ->
       UIController._save_image self path save = UIController.SaveCancelled) /\
      (path <> "" ->
       (forall e,
           WatermarkProcessor.create_overlay (UIController.watermark_processor self)
             (size original) (UIController.settings self) = Raise e ->
           UIController._save_image self path save = UIController.CouldNotSave None) /\
       (forall asset,
           String.eqb (wm_type (UIController.settings self)) "text" = false ->
           ImageWatermarkRenderer.watermark_image
             (WatermarkProcessor.image_renderer (UIController.watermark_processor self))
           = Some asset ->
           width asset = 0 ->
           UIController._save_image self path save = UIController.CouldNotSave None) /\
       (forall overlay,
           WatermarkProcessor.create_overlay (UIController.watermark_processor self)
             (size original) (UIController.settings self) = Ok overlay ->
           exists image,
             alpha_composite original overlay = Some image /\
             size image = size original /\
             UIController._save_image self path save
             = let call :=
                 if endswith (lower path) ".jpg" || endswith (lower path) ".jpeg"
                 then UIController.SaveJPEG path (convert_RGB image) 95
                 else UIController.SavePNG path image in
               match save call with
               | Ok _ => UIController.Saved call
               | Raise _ => UIController.CouldNotSave (Some call)
               end))).
Proof.
  split.
  - unfold UIController._save_image. intros ->. reflexivity.
  - intros original O. split.
    + unfold UIController._save_image. rewrite O. intros ->. reflexivity.
    + intros NE.
      assert (F : forall e,
                 WatermarkProcessor.create_overlay (UIController.watermark_processor self)
                   (size original) (UIController.settings self) = Raise e ->
                 UIController._save_image self path save = UIController.CouldNotSave None).
      { intros e V. unfold UIController._save_image. rewrite O.
        destruct (String.eqb_spec path "") as [E | _]; [contradiction |].
        rewrite V. reflexivity. }
      split; [exact F |]. split.
      * intros asset T A Hw. apply (F ZeroDivisionError).
        unfold WatermarkProcessor.create_overlay, size.
        assert (W : WatermarkProcessor.create_watermark
                      (UIController.watermark_processor self)
                      (width original, height original) (UIController.settings self)
                    = Raise ZeroDivisionError).
        { unfold WatermarkProcessor.create_watermark. rewrite T.
          apply image_render_zero_division. eauto. }
        rewrite W. reflexivity.
      * intros overlay V.
        destruct (save_after_overlay self path save original overlay O NE V)
          as (image & call & A & Sz & _ & C & S).
        exists image. split; [exact A |]. split; [exact Sz |].
        cbv zeta. rewrite <- C. exact S.
Qed.

(** X23: the format is chosen by the extension, whatever the case of its
    letters.  [save] is called on the RGB conversion with quality 95
    exactly when the path is a stem followed by an extension that reads
    ".jpg" or ".jpeg" in lower case; every other path is saved as it is,
    the format left to Pillow. *)
Theorem save_format_follows_extension `{PIL} (self : UIController.t)
    (path p : string) (save : UIController.save_call -> result unit) :
  (forall image quality,
      UIController.attempted (UIController._save_image self path save)
      = Some (UIController.SaveJPEG p image quality) ->
      p = path /\ quality = 95 /\
      exists stem ext, path = (stem ++ ext)%string /\
                       (lower ext = ".jpg" \/ lower ext = ".jpeg")) /\
  (forall image,
      UIController.attempted (UIController._save_image self path save)
      = Some (UIController.SavePNG p image) ->
      p = path /\
      forall stem ext, path = (stem ++ ext)%string ->
                       lower ext <> ".jpg" /\ lower ext <> ".jpeg").
Proof.
  split.
  - intros image quality S.
    destruct (save_reaches_result self path save _ S)
      as (original & overlay & result & _ & _ & _ & _ & C).
    destruct (endswith (lower path) ".jpg") eqn:J1;
      [| destruct (endswith (lower path) ".jpeg") eqn:J2]; cbn [orb] in C;
      try discriminate; inversion C; subst; (split; [reflexivity |]);
      (split; [reflexivity |]).
    + apply endswith_lower in J1. destruct J1 as (stem & ext & E1 & E2). eauto.
    + apply endswith_lower in J2. destruct J2 as (stem & ext & E1 & E2). eauto.
  - intros image S.
    destruct (save_reaches_result self path save _ S)
      as (original & overlay & result & _ & _ & _ & _ & C).
    destruct (endswith (lower path) ".jpg") eqn:J1;
      [| destruct (endswith (lower path) ".jpeg") eqn:J2]; cbn [orb] in C;
      try discriminate. inversion C; subst. split; [reflexivity |].
    intros stem ext E1. split; intros E2.
    + assert (D : endswith (lower path) ".jpg" = true)
        by (apply endswith_lower; eauto). congruence.
    + assert (D : endswith (lower path) ".jpeg" = true)
        by (apply endswith_lower; eauto). congruence.
Qed.

(** X24: with an image watermark selected and no asset set, saving hands
    [save] the original itself.  The composite has the size of the
    original and every pixel equal in all four channels; it is saved as
    it is, or, for a path in ".jpg" or ".jpeg", converted to RGB first,
    which keeps the three colours of every pixel of the original and
    drops its alpha.  [save] decides how the run ends. *)
Theorem save_without_asset_writes_original `{PIL} (self : UIController.t)
    (path : string) (save : UIController.save_call -> result unit) (original : Image) :
  ImageManager.original_image (UIController.image_manager self) = Some original ->
  path <> "" ->
  String.eqb (wm_type (UIController.settings self)) "text" = false ->
  ImageWatermarkRenderer.watermark_image
    (WatermarkProcessor.image_renderer (UIController.watermark_processor self)) = None ->
  exists image,
    size image = size original /\
    (forall x y, getpixel image x y = getpixel original x y) /\
    (rgb_width (convert_RGB image), rgb_height (convert_RGB image)) = size original /\
    (forall x y, rgb_getpixel (convert_RGB image) x y = rgb_of (getpixel original x y)) /\
    UIController._save_image self path save
    = let call :=
        if endswith (lower path) ".jpg" || endswith (lower path) ".jpeg"
        then UIController.SaveJPEG path (convert_RGB image) 95
        else UIController.SavePNG path image in
      match save call with
      | Ok _ => UIController.Saved call
      | Raise _ => UIController.CouldNotSave (Some call)
      end.
Proof.
  intros O NE T N.
  assert (W : WatermarkProcessor.create_watermark (UIController.watermark_processor self)
                (width original, height original) (UIController.settings self)
              = Ok (Image_new (1, 1) (0, 0, 0, 0))).
  { unfold WatermarkProcessor.create_watermark. rewrite T.
    unfold ImageWatermarkRenderer.render. rewrite N. reflexivity. }
  destruct (WatermarkProcessor.create_overlay (UIController.watermark_processor self)
              (width original, height original) (UIController.settings self))
    as [overlay | e] eqn:V.
  2:{ unfold WatermarkProcessor.create_overlay in V. rewrite W in V.
      cbn [mbind result_bind] in V.
      destruct (WatermarkProcessor.placement_center _ _). discriminate. }
  destruct (create_overlay_pixels _ _ _ _ _ V) as (sprite & W' & _ & P).
  rewrite W in W'. inversion W'. subst sprite. clear W'.
  destruct (save_after_overlay self path save original overlay O NE V)
    as (image & call & _ & Sz & Q & C & S).
  assert (K : forall x y, getpixel image x y = getpixel original x y).
  { intros x y. rewrite Q. cbv zeta in P. rewrite P.
    match goal with |- context [if ?b then _ else _] => destruct b end;
      apply composite_transparent. }
  exists image. split; [exact Sz |]. split; [exact K |]. split; [exact Sz |].
  split.
  - intros x y. cbn [convert_RGB rgb_getpixel]. rewrite K. reflexivity.
  - cbv zeta. rewrite <- C. exact S.
Qed.

Lemma save_without_asset_writes_original_witness :
  let loaded :=
    UIController.run (H := Reference.pil)
      [UIController.OpenImage "photo.png"; UIController.TypeSelected "image"] in
  (exists image,
      UIController._save_image loaded "out.jpg" (fun _ => Ok tt)
      = UIController.Saved (UIController.SaveJPEG "out.jpg" (convert_RGB image) 95) /\
      (rgb_width (convert_RGB image), rgb_height (convert_RGB image)) = (4, 2) /\
      forall x y,
        rgb_getpixel (convert_RGB image) x y = rgb_of (getpixel Reference.photo x y)) /\
  (exists image,
      UIController._save_image loaded "out.png" (fun _ => Raise OSError)
      = UIController.CouldNotSave (Some (UIController.SavePNG "out.png" image)) /\
      size image = (4, 2) /\
      forall x y, getpixel image x y = getpixel Reference.photo x y).
Proof.
  intros loaded. split.
  - destruct (save_without_asset_writes_original (H := Reference.pil) loaded "out.jpg"
                (fun _ => Ok tt) Reference.photo)
      as (image & _ & _ & Sz & K & S);
      [reflexivity | discriminate | reflexivity | reflexivity |].
    exists image. split; [exact S |]. split; [exact Sz | exact K].
  - destruct (save_without_asset_writes_original (H := Reference.pil) loaded "out.png"
                (fun _ => Raise OSError) Reference.photo)
      as (image & Sz & K & _ & _ & S);
      [reflexivity | discriminate | reflexivity | reflexivity |].
    exists image. split; [exact S |]. split; [exact Sz | exact K].
Defined.

(** X25: an image watermark never comes out wider than the background: for
    a size percent in [1, 100] its sprite before rotation is between one
    pixel and the background width wide (one pixel for a background of
    width zero). *)
Theorem image_sprite_fits_background `{PIL}
    (self : ImageWatermarkRenderer.t) (asset : Image) (W Hb : Z) (s : WatermarkSettings) :
  ImageWatermarkRenderer.watermark_image self = Some asset ->
  1 <= width asset < 2 ^ 31 ->
  1 <= size_percent s <= 100 -> 0 <= W < 2 ^ 31 ->
  exists sprite,
    ImageWatermarkRenderer.render_unrotated self (W, Hb) s = Ok sprite /\
    1 <= width sprite <= Z.max 1 W.
Proof.
  intros Ha Hw Hp HW.
  destruct (image_sprite_width self asset W Hb s Ha Hw Hp HW) as (sprite & R & B & P).
  pose proof (target_width_le W (size_percent s) ltac:(lia) ltac:(lia) ltac:(lia)) as T.
  exists sprite. split; [exact R | lia].
Qed.

Lemma image_sprite_fits_background_witness :
  exists sprite,
    ImageWatermarkRenderer.render_unrotated (H := Reference.pil)
      (ImageWatermarkRenderer.mk (Some Reference.photo)) (1000, 800)
      (set_size_percent default_settings 90) = Ok sprite /\
    1 <= width sprite <= Z.max 1 1000.
Proof.
  apply (image_sprite_fits_background (H := Reference.pil)
           (ImageWatermarkRenderer.mk (Some Reference.photo)) Reference.photo 1000 800
           (set_size_percent default_settings 90)); simpl; first [reflexivity | lia].
Defined.

(** A text watermark can: at 90 percent of a background 1000 wide, a text
    measured 160 wide gives a sprite 1125 wide on the small
    implementation. *)
Lemma text_sprite_can_exceed_background :
  exists sprite,
    TextWatermarkRenderer.render_scaled (H := Reference.pil) (1000, 800)
      (set_size_percent default_settings 90) = Ok sprite /\
    width sprite = 1125.
Proof. eexists. split; [vm_compute; reflexivity | reflexivity]. Qed.

Section CanvasAccounting.
Context `{PIL}.
Import CanvasController.

Lemma perform_keeps_accounted (self : t) (c : call) :
  items_accounted self /\ item_id_issued self ->
  items_accounted (perform self c).
Proof.
  unfold items_accounted. intros [A I].
  destruct c as [im | im wm s | x y | im x y | ]; cbn [perform].
  - unfold update_background. destruct (ImageManager.display_photo im); [| exact A].
    destruct (ImageManager.get_display_info im) as [[[img_x img_y] img_w] img_h].
    cbn [canvas bg_image_id watermark_id Canvas.create_image Canvas.delete_all
         Canvas.items Canvas.next_id]. intros k it.
    destruct (decide (k = Canvas.next_id (canvas self))) as [-> | NE].
    + rewrite lookup_insert_eq. intros E. inversion E. left. split; reflexivity.
    + rewrite lookup_insert_ne by congruence. rewrite lookup_empty. discriminate.
  - unfold update_watermark. destruct (ImageManager.display_image im); [| exact A].
    destruct (photo_image wm); [| exact A].
    destruct (item_center _ _) as [cx cy].
    destruct (watermark_id self) as [wid |] eqn:W.
    + cbn [canvas bg_image_id watermark_id Canvas.set_coords Canvas.itemconfig
           Canvas.items Canvas.next_id]. intros k it.
      destruct (decide (k = wid)) as [-> | NE].
      * rewrite !lookup_alter_eq.
        destruct (Canvas.items (canvas self) !! wid) as [it0 |] eqn:L; [| discriminate].
        cbn. intros E. inversion E. cbn [Canvas.tags].
        destruct (A wid it0 L) as [[T B] | [T B]]; [left | right]; split;
          first [exact T | exact B | reflexivity].
      * rewrite !lookup_alter_ne by congruence. intros L.
        destruct (A k it L) as [[T B] | [T B]]; [left | right]; split;
          first [exact T | exact B | congruence].
    + cbn [canvas bg_image_id watermark_id Canvas.create_image
           Canvas.items Canvas.next_id]. intros k it.
      destruct (decide (k = Canvas.next_id (canvas self))) as [-> | NE].
      * rewrite lookup_insert_eq. intros E. inversion E. right. split; reflexivity.
      * rewrite lookup_insert_ne by congruence. intros L.
        destruct (A k it L) as [[T B] | [T B]]; [left; split; assumption |].
        congruence.
  - exact A.
  - unfold _on_motion. destruct (watermark_id self) as [wid |] eqn:W;
      [| cbn [fst]; rewrite W; exact A].
    assert (M : forall k it,
               Canvas.items (Canvas.move (canvas self) wid (x - fst (_drag_data self))
                               (y - snd (_drag_data self))) !! k = Some it ->
               (Canvas.tags it = ["bg"] /\ bg_image_id self = Some k) \/
               (Canvas.tags it = ["watermark"] /\ Some wid = Some k)).
    { intros k it. cbn [Canvas.move Canvas.items].
      destruct (decide (k = wid)) as [-> | NE].
      - rewrite lookup_alter_eq.
        destruct (Canvas.items (canvas self) !! wid) as [it0 |] eqn:L; [| discriminate].
        cbn. intros E. inversion E. cbn [Canvas.tags].
        destruct (A wid it0 L) as [[T B] | [T B]]; [left | right]; split;
          first [exact T | exact B | reflexivity].
      - rewrite lookup_alter_ne by congruence. intros L.
        destruct (A k it L) as [[T B] | [T B]]; [left | right]; split;
          first [exact T | exact B | congruence]. }
    destruct (on_position_change self); [| exact M].
    destruct (Canvas.coords _ _); [| exact M].
    destruct (ratio_from_pixel _ _); exact M.
  - exact A.
Qed.

End CanvasAccounting.

(** X26: the canvas never holds two backgrounds or two watermarks.  In every
    state the canvas controller reaches from an empty canvas, each item
    is either the background item that [bg_image_id] names or the
    watermark item that [watermark_id] names: at most one of each, since
    [update_background] deletes everything before it draws and
    [update_watermark] creates an item only while no id is held. *)
Theorem canvas_holds_one_of_each `{PIL} (calls : list CanvasController.call) :
  let self := CanvasController.perform_all (CanvasController.__init__ Canvas.empty) calls in
  forall k it,
    Canvas.items (CanvasController.canvas self) !! k = Some it ->
    (Canvas.tags it = ["bg"] /\ CanvasController.bg_image_id self = Some k) \/
    (Canvas.tags it = ["watermark"] /\ CanvasController.watermark_id self = Some k).
Proof.
  cbv zeta.
  change (items_accounted
            (CanvasController.perform_all (CanvasController.__init__ Canvas.empty) calls)).
  induction calls as [| c calls IH] using rev_ind.
  - intros k it L. cbn in L. rewrite lookup_empty in L. discriminate.
  - rewrite perform_all_app. apply perform_keeps_accounted.
    split; [exact IH | apply reachable_issued].
Qed.

Lemma canvas_holds_one_of_each_witness :
  let im := fst (ImageManager.load_image (H := Reference.pil)
                   (ImageManager.__init__ 900 600) "photo.png") in
  let self :=
    CanvasController.perform_all (H := Reference.pil)
      (CanvasController.__init__ Canvas.empty)
      [CanvasController.UpdateBackground im;
       CanvasController.UpdateWatermark im Reference.photo default_settings;
       CanvasController.Press 450 300; CanvasController.Motion im 460 310] in
  exists it,
    Canvas.items (CanvasController.canvas self) !! 2 = Some it /\
    ((Canvas.tags it = ["bg"] /\ CanvasController.bg_image_id self = Some 2) \/
     (Canvas.tags it = ["watermark"] /\ CanvasController.watermark_id self = Some 2)).
Proof.
  intros im self. eexists. split; [vm_compute; reflexivity |].
  apply (canvas_holds_one_of_each (H := Reference.pil)
           [CanvasController.UpdateBackground im;
            CanvasController.UpdateWatermark im Reference.photo default_settings;
            CanvasController.Press 450 300; CanvasController.Motion im 460 310] 2).
  vm_compute. reflexivity.
Defined.

(** X27: the settings are read inside one [try] block, in the order text,
    font size, size, rotation, opacity: a widget that cannot be read
    stops the block, so the fields before it are updated and the fields
    from it on keep their values, whatever the later widgets hold.  The
    text is always updated; type, colour, font path and anchor ratio are
    never touched. *)
Theorem update_settings_stops_at_first_failure `{PIL} (self : UIController.t)
    (txt : string) (fs sp rot op : option Z) :
  let old := UIController.settings self in
  let new := UIController.settings (UIController._update_settings self txt fs sp rot op) in
  text new = txt /\
  font_size new = default (font_size old) fs /\
  size_percent new
  = match fs with Some _ => default (size_percent old) sp | None => size_percent old end /\
  rotation new
  = match fs, sp with
    | Some _, Some _ => default (rotation old) rot
    | _, _ => rotation old
    end /\
  opacity new
  = match fs, sp, rot with
    | Some _, Some _, Some _ => default (opacity old) op
    | _, _, _ => opacity old
    end /\
  wm_type new = wm_type old /\ text_color new = text_color old /\
  font_path new = font_path old /\ anchor_ratio new = anchor_ratio old.
Proof.
  cbv zeta. unfold UIController._update_settings. rewrite preview_settings.
  destruct fs as [fs |], sp as [sp |], rot as [rot |], op as [op |];
    repeat split; reflexivity.
Qed.

(** [update_background] redraws the canvas from scratch.  With a photo
    to show, the canvas afterwards holds exactly one item: that photo,
    tagged "bg", with its upper left corner at the offsets that centre
    the preview, [(canvas - preview) // 2] on each axis; [bg_image_id]
    names it, and every other attribute of the controller is kept.
    Without a photo nothing changes. *)
Lemma update_background_draws_centred_photo `{PIL}
    (self : CanvasController.t) (im : ImageManager.t) :
  (ImageManager.display_photo im = None ->
   CanvasController.update_background self im = self) /\
  (forall photo d,
      ImageManager.display_photo im = Some photo ->
      ImageManager.display_image im = Some d ->
      let self' := CanvasController.update_background self im in
      let id := Canvas.next_id (CanvasController.canvas self) in
      let img_x := (ImageManager.canvas_width im - width d) / 2 in
      let img_y := (ImageManager.canvas_height im - height d) / 2 in
      Canvas.items (CanvasController.canvas self')
      = {[ id := Canvas.mkItem (float_of_int img_x, float_of_int img_y) photo "nw" ["bg"] ]} /\
      CanvasController.bg_image_id self' = Some id /\
      CanvasController.watermark_id self' = CanvasController.watermark_id self /\
      CanvasController._drag_data self' = CanvasController._drag_data self /\
      Canvas.next_id (CanvasController.canvas self') = id + 1).
Proof.
  unfold CanvasController.update_background. split.
  - intros ->. reflexivity.
  - intros photo d -> D. unfold ImageManager.get_display_info. rewrite D.
    cbv zeta. cbn. repeat split.
Qed.

(** X28: [update_watermark] keeps one watermark item and puts it where the
    anchor ratio says.  Over a preview, with a photo that can be built and
    an item that has not been deleted, the call succeeds; afterwards
    [watermark_id] names an item that shows the new photo with its centre
    at [item_center], wherever a drag had left it.  The first call creates
    that item under a fresh id, anchored at its centre and tagged
    "watermark"; later calls keep the id, the anchor and the tags.  No
    other item changes. *)
Theorem update_watermark_places_item `{PIL} (self : CanvasController.t)
    (im : ImageManager.t) (watermark_img : Image) (s : WatermarkSettings)
    (d : Image) (photo : PhotoImage) :
  ImageManager.display_image im = Some d ->
  photo_image watermark_img = Some photo ->
  (forall id, CanvasController.watermark_id self = Some id ->
              is_Some (Canvas.items (CanvasController.canvas self) !! id)) ->
  let c := CanvasController.item_center (anchor_ratio s)
             (ImageManager.get_display_info im) in
  exists self' id it,
    CanvasController.update_watermark self im watermark_img s = Ok self' /\
    CanvasController.watermark_id self' = Some id /\
    Canvas.items (CanvasController.canvas self') !! id = Some it /\
    Canvas.position it = (float_of_int (fst c), float_of_int (snd c)) /\
    Canvas.image it = photo /\
    (CanvasController.watermark_id self = None ->
     id = Canvas.next_id (CanvasController.canvas self) /\
     Canvas.anchor it = "center" /\ Canvas.tags it = ["watermark"]) /\
    (forall id0, CanvasController.watermark_id self = Some id0 ->
                 id = id0 /\
                 exists it0,
                   Canvas.items (CanvasController.canvas self) !! id0 = Some it0 /\
                   Canvas.anchor it = Canvas.anchor it0 /\
                   Canvas.tags it = Canvas.tags it0) /\
    (forall k, k <> id ->
               Canvas.items (CanvasController.canvas self') !! k
               = Canvas.items (CanvasController.canvas self) !! k).
Proof.
  intros D P L c. unfold CanvasController.update_watermark. rewrite D, P.
  fold c. destruct c as [cx cy].
  destruct (CanvasController.watermark_id self) as [wid |] eqn:W.
  - destruct (L wid eq_refl) as [it0 L0].
    eexists. exists wid. eexists. split; [reflexivity |].
    cbn [CanvasController.watermark_id CanvasController.canvas Canvas.itemconfig
         Canvas.set_coords Canvas.items fst snd].
    split; [reflexivity |].
    rewrite !lookup_alter_eq, L0. cbn [fmap option_fmap option_map].
    split; [reflexivity |]. cbn [Canvas.position Canvas.image Canvas.anchor Canvas.tags].
    split; [reflexivity |]. split; [reflexivity |].
    split; [discriminate |]. split.
    + intros id0 E. inversion E. subst id0. split; [reflexivity |].
      exists it0. repeat split. exact L0.
    + intros k NE. rewrite !lookup_alter_ne by congruence. reflexivity.
  - eexists. exists (Canvas.next_id (CanvasController.canvas self)). eexists.
    split; [reflexivity |].
    cbn [CanvasController.watermark_id CanvasController.canvas Canvas.create_image
         Canvas.items fst snd].
    split; [reflexivity |]. rewrite lookup_insert_eq.
    split; [reflexivity |]. cbn [Canvas.position Canvas.image Canvas.anchor Canvas.tags].
    split; [reflexivity |]. split; [reflexivity |].
    split; [intros _; repeat split |]. split.
    + intros id0 E. discriminate.
    + intros k NE. rewrite lookup_insert_ne by congruence. reflexivity.
Qed.

Lemma update_watermark_places_item_witness :
  let im := fst (ImageManager.load_image (H := Reference.pil)
                   (ImageManager.__init__ 900 600) "photo.png") in
  let dragged :=
    CanvasController.perform_all (H := Reference.pil)
      (CanvasController.__init__ Canvas.empty)
      [CanvasController.UpdateBackground im;
       CanvasController.UpdateWatermark im Reference.photo default_settings;
       CanvasController.Press 450 300; CanvasController.Motion im 1200 (-40)] in
  let c := CanvasController.item_center (anchor_ratio default_settings)
             (ImageManager.get_display_info im) in
  exists self' id it,
    CanvasController.update_watermark dragged im Reference.photo default_settings
    = Ok self' /\
    CanvasController.watermark_id self' = Some id /\
    Canvas.items (CanvasController.canvas self') !! id = Some it /\
    Canvas.position it = (float_of_int (fst c), float_of_int (snd c)) /\
    Canvas.image it = (4, 2) /\
    (CanvasController.watermark_id dragged = None ->
     id = Canvas.next_id (CanvasController.canvas dragged) /\
     Canvas.anchor it = "center" /\ Canvas.tags it = ["watermark"]) /\
    (forall id0, CanvasController.watermark_id dragged = Some id0 ->
                 id = id0 /\
                 exists it0,
                   Canvas.items (CanvasController.canvas dragged) !! id0 = Some it0 /\
                   Canvas.anchor it = Canvas.anchor it0 /\
                   Canvas.tags it = Canvas.tags it0) /\
    (forall k, k <> id ->
               Canvas.items (CanvasController.canvas self') !! k
               = Canvas.items (CanvasController.canvas dragged) !! k).
Proof.
  intros im dragged.
  apply (update_watermark_places_item (H := Reference.pil) dragged im Reference.photo
           default_settings (mkImage 4 2 (Reference.nearest Reference.photo (4, 2))) (4, 2)).
  - reflexivity.
  - reflexivity.
  - intros id E. vm_compute in E. inversion E. subst id. vm_compute. eauto.
Defined.
